(** * A shallow embedding of the IR graph core of torch_xla (csrc/ir.cpp)

    The definitions follow the translation unit: the thread-local naming
    scopes, the frontend attribute map, the node shape accessor, the use
    set and the operand bookkeeping of [AddOperand], [ReplaceOperand],
    [ReplaceAllUsesWith] and the destructor, the shape cache consulted by
    [GetOpShape], and the structural hashes computed by the [Node]
    constructors.  Nodes live in a heap indexed by address, so that the
    back-references between a node and its consumers can be stated.  The
    properties come after the definitions. *)

From Stdlib Require Import ZArith NArith Lia DecimalString.
From Stdlib Require DecimalN DecimalPos.
From stdpp Require Import base option list strings gmap fin_maps sorting.

Local Open Scope string_scope.
Local Open Scope list_scope.

(** ** Fatal outcomes

    [XLA_CHECK*] macros abort the operation, [std::vector::at] throws
    on an index out of range, and reading through a pointer to a node
    that is not alive has no defined behaviour. *)

Inductive Failure : Type :=
  | XlaCheckFailed
  | StdOutOfRange
  | BadPointer.

Inductive Outcome (A : Type) : Type :=
  | Done (a : A)
  | Fatal (why : Failure).

Arguments Done {A} a.
Arguments Fatal {A} why.

#[global] Instance Outcome_ret : MRet Outcome := fun _ a => Done a.
#[global] Instance Outcome_bind : MBind Outcome := fun _ _ f m =>
  match m with
  | Done a => f a
  | Fatal why => Fatal why
  end.

Definition XLA_CHECK (b : bool) : Outcome unit :=
  if b then Done tt else Fatal XlaCheckFailed.

Definition is_Done {A} (m : Outcome A) : Prop :=
  match m with Done _ => True | Fatal _ => False end.

(** [size_t] is 64 bits wide on the supported hosts. *)
Definition size_t_modulus : N := (2 ^ 64)%N.

(** [absl::StrCat] renders an unsigned integer in decimal. *)
Definition StrCat_size_t (n : N) : string :=
  NilZero.string_of_uint (N.to_uint n).

(** ** Scope stack (lines 23-68) *)

Record ScapeEntry : Type := mkScapeEntry {
  scape_name : string;
  saved_next_id : N
}.

Record ScopeContext : Type := mkScopeContext {
  scopes : list ScapeEntry;
  next_id : N
}.

(** A thread starts with no scope and the counter at one. *)
Definition g_scope_context_init : ScopeContext :=
  {| scopes := []; next_id := 1 |}.

Definition PushScope (name : string) (ctx : ScopeContext) : ScopeContext :=
  let id := next_id ctx in
  {| scopes := scopes ctx ++
       [ {| scape_name := name +:+ "." +:+ StrCat_size_t id;
            saved_next_id := ((next_id ctx + 1) mod size_t_modulus)%N |} ];
     next_id := 1 |}.

Definition PopScope (ctx : ScopeContext) : Outcome ScopeContext :=
  match last (scopes ctx) with
  | None => Fatal XlaCheckFailed
  | Some back =>
      Done {| scopes := removelast (scopes ctx);
              next_id := saved_next_id back |}
  end.

Definition ResetScopeContext (ctx : ScopeContext) : Outcome ScopeContext :=
  _ ← XLA_CHECK (Nat.eqb (length (scopes ctx)) 0);
  Done {| scopes := scopes ctx; next_id := 1 |}.

Definition ScopeDepth (ctx : ScopeContext) : Outcome nat :=
  _ ← XLA_CHECK (negb (Nat.eqb (length (scopes ctx)) 0));
  Done (length (scopes ctx)).

Definition string_empty (s : string) : bool :=
  match s with
  | EmptyString => true
  | String _ _ => false
  end.

Definition GetCurrentScope (ctx : ScopeContext) : string :=
  fold_left
    (fun scope scope_entry =>
       if string_empty scope
       then scope +:+ scape_name scope_entry
       else scope +:+ "/" +:+ scape_name scope_entry)
    (scopes ctx) "".

(** ** Frontend attributes (lines 92-96 and 314-374)

    The per-thread [std::unordered_map<std::string, std::string>]. *)

Record FrontendAttributePusher : Type := mkFrontendAttributePusher {
  prefix_depth_ : bool;
  key_ : string;
  previous_value_ : string
}.

Definition FrontendAttributePusher_ctor
    (key value : string) (prefix_depth : bool)
    (attributes : gmap string string)
  : FrontendAttributePusher * gmap string string :=
  let key_ :=
    if prefix_depth
    then StrCat_size_t (N.of_nat (size attributes)) +:+ "." +:+ key
    else key in
  match attributes !! key_ with
  | Some found =>
      ( {| prefix_depth_ := prefix_depth; key_ := key_;
           previous_value_ := found |},
        if negb (string_empty value)
        then <[key_ := value]> attributes
        else delete key_ attributes )
  | None =>
      ( {| prefix_depth_ := prefix_depth; key_ := key_;
           previous_value_ := "" |},
        <[key_ := value]> attributes )
  end.

Definition FrontendAttributePusher_dtor
    (self : FrontendAttributePusher) (attributes : gmap string string)
  : gmap string string :=
  match attributes !! key_ self with
  | Some _ =>
      if string_empty (previous_value_ self)
      then delete (key_ self) attributes
      else <[key_ self := previous_value_ self]> attributes
  | None =>
      if negb (string_empty (previous_value_ self))
      then <[key_ self := previous_value_ self]> attributes
      else attributes
  end.

(** [unordered_map::emplace] constructs the pair only when no element
    with that key exists. *)
Definition PythonAddFrontendAttribute
    (key value : string) (attributes : gmap string string)
  : gmap string string :=
  match attributes !! key with
  | Some _ => attributes
  | None => <[key := value]> attributes
  end.

Definition PythonRemoveFrontendAttribute
    (key : string) (attributes : gmap string string) : gmap string string :=
  delete key attributes.

(** ** Shapes

    [xla::Shape] as far as this file looks into it: the element type,
    the dimensions and, for a tuple, the shapes of its elements. *)

#[warnings="-register-all"]
Inductive Shape : Type :=
  | mkShape (element_type : N) (dimensions : list Z)
            (tuple_shapes : list Shape).

Definition PRIMITIVE_TYPE_INVALID : N := 0.
Definition TUPLE : N := 13.

Definition element_type (s : Shape) : N :=
  match s with mkShape e _ _ => e end.

Definition tuple_shapes (s : Shape) : list Shape :=
  match s with mkShape _ _ ts => ts end.

Definition IsTuple (s : Shape) : bool := N.eqb (element_type s) TUPLE.

(** [xla::Shape()], the placeholder of the lazy constructor. *)
Definition Shape_default : Shape := mkShape PRIMITIVE_TYPE_INVALID [] [].

(** ** Operator kinds, uses, outputs, values *)

(** [c10::Symbol] is an interned name, represented by its unique id. *)
Record OpKind : Type := mkOpKind { op : N }.

(** Modelled from the spec: [OpKind::operator!=], declared in ir.h; the
    spec says that equality of kinds is identity of the interned symbol. *)
Definition OpKind_ne (a b : OpKind) : bool := negb (N.eqb (op a) (op b)).

(** Modelled from the spec: [OpKind::operator<], declared in ir.h; the
    spec says that two kinds are ordered by the interned value. *)
Definition OpKind_lt (a b : OpKind) : bool := N.ltb (op a) (op b).

Abbreviation NodePtr := nat (only parsing).

Record Use : Type := mkUse {
  use_node : NodePtr;
  use_operand_index : nat;
  use_index : nat
}.

Record Output : Type := mkOutput {
  out_node : NodePtr;
  out_index : nat
}.

Record Value : Type := mkValue {
  val_node : NodePtr;
  val_index : nat
}.

Record SourceLocation : Type := mkSourceLocation {
  file : string;
  function : string;
  line : Z
}.

Record MetaData : Type := mkMetaData {
  scope : string;
  frame_info : list SourceLocation;
  frontend_attributes : gmap string string
}.

(** Values of [xla::hash_t] are unsigned integers; ir.cpp does not fix
    their width. *)
Abbreviation hash_t := Z (only parsing).

(** The members of [Node] that ir.cpp reads and writes. *)
Record Node : Type := mkNode {
  op_ : OpKind;
  num_outputs_ : nat;
  shape_ : Shape;
  node_hash_ : hash_t;
  hash_ : hash_t;
  is_autograd_ : bool;
  operands_ : list NodePtr;
  operands_as_outputs_ : list Output;
  uses_ : list Use;
  metadata_ : MetaData
}.

Definition set_uses (us : list Use) (n : Node) : Node :=
  mkNode (op_ n) (num_outputs_ n) (shape_ n) (node_hash_ n) (hash_ n)
         (is_autograd_ n) (operands_ n) (operands_as_outputs_ n) us
         (metadata_ n).

Definition set_operands (ps : list NodePtr) (os : list Output) (n : Node)
  : Node :=
  mkNode (op_ n) (num_outputs_ n) (shape_ n) (node_hash_ n) (hash_ n)
         (is_autograd_ n) ps os (uses_ n) (metadata_ n).

Definition set_hash (hv : hash_t) (n : Node) : Node :=
  mkNode (op_ n) (num_outputs_ n) (shape_ n) (node_hash_ n) hv
         (is_autograd_ n) (operands_ n) (operands_as_outputs_ n) (uses_ n)
         (metadata_ n).

Definition set_shape (s : Shape) (n : Node) : Node :=
  mkNode (op_ n) (num_outputs_ n) s (node_hash_ n) (hash_ n)
         (is_autograd_ n) (operands_ n) (operands_as_outputs_ n) (uses_ n)
         (metadata_ n).

(** The nodes that are alive, by address. *)
Abbreviation Heap := (gmap nat Node) (only parsing).

Definition deref (h : Heap) (p : NodePtr) : Outcome Node :=
  match h !! p with
  | Some n => Done n
  | None => Fatal BadPointer
  end.

Fixpoint foldM {S A : Type} (f : S -> A -> Outcome S) (l : list A) (s : S)
  : Outcome S :=
  match l with
  | [] => Done s
  | a :: l' => s' ← f s a; foldM f l' s'
  end.

(** ** [Node::shape(size_t)] (lines 209-215)

    An index past the last element of a tuple shape is outside the
    contract of [xla::Shape::tuple_shapes]; the model gives it a fatal
    outcome. *)
Definition Node_shape (n : Node) (output_index : nat) : Outcome Shape :=
  if IsTuple (shape_ n) then
    match tuple_shapes (shape_ n) !! output_index with
    | Some s => Done s
    | None => Fatal StdOutOfRange
    end
  else
    _ ← XLA_CHECK (Nat.eqb output_index 0);
    Done (shape_ n).

(** ** The use set

    [Use::operator<] (lines 100-108) reads the operator kind of each
    consumer through its node pointer. *)
Definition Use_lt (h : Heap) (a b : Use) : Outcome bool :=
  na ← deref h (use_node a);
  nb ← deref h (use_node b);
  Done (if OpKind_ne (op_ na) (op_ nb) then OpKind_lt (op_ na) (op_ nb)
        else if negb (Nat.eqb (use_operand_index a) (use_operand_index b))
             then Nat.ltb (use_operand_index a) (use_operand_index b)
             else Nat.ltb (use_index a) (use_index b)).

(** Modelled from the spec: insertion into the container of [uses_],
    declared in ir.h. The spec stores uses in an ordered set under the
    order of [Use]; such a set keeps its elements ascending, holds two
    elements as the same one when neither is less than the other, and
    ignores the insertion of an element it holds. *)
Fixpoint set_insert (h : Heap) (u : Use) (l : list Use)
  : Outcome (list Use) :=
  match l with
  | [] => Done [u]
  | x :: l' =>
      below ← Use_lt h u x;
      if below : bool then Done (u :: x :: l')
      else
        above ← Use_lt h x u;
        if above : bool then r ← set_insert h u l'; Done (x :: r)
        else Done (x :: l')
  end.

(** Modelled from the spec: erasure from the container of [uses_],
    declared in ir.h; the ordered set of the spec erases the element that
    it holds as the same one as the key, if there is one. *)
Fixpoint set_erase (h : Heap) (u : Use) (l : list Use)
  : Outcome (list Use) :=
  match l with
  | [] => Done []
  | x :: l' =>
      below ← Use_lt h u x;
      if below : bool then Done (x :: l')
      else
        above ← Use_lt h x u;
        if above : bool then r ← set_erase h u l'; Done (x :: r)
        else Done l'
  end.

(** Modelled from the spec: [Node::AddUse], declared in ir.h, files the
    use in the use set of the node. *)
Definition AddUse (self : NodePtr) (use : Use) (h : Heap) : Outcome Heap :=
  n ← deref h self;
  us ← set_insert h use (uses_ n);
  Done (<[self := set_uses us n]> h).

(** Modelled from the spec: [Node::RemoveUse], declared in ir.h, erases
    the use from the use set of the node. *)
Definition RemoveUse (self : NodePtr) (use : Use) (h : Heap)
  : Outcome Heap :=
  n ← deref h self;
  us ← set_erase h use (uses_ n);
  Done (<[self := set_uses us n]> h).

(** ** Operand bookkeeping (lines 203-240) *)

(** [Node::AddOperand] (lines 217-222). *)
Definition AddOperand (this node : NodePtr) (index : nat) (h : Heap)
  : Outcome Heap :=
  n ← deref h node;
  _ ← XLA_CHECK (Nat.ltb index (num_outputs_ n));
  t ← deref h this;
  let t' := set_operands (operands_ t ++ [node])
                         (operands_as_outputs_ t ++ [mkOutput node index])
                         t in
  AddUse node (mkUse this (length (operands_ t') - 1) index)
         (<[this := t']> h).

(** [Node::ReplaceOperand] (lines 224-231); [operands_as_outputs_.at]
    throws on a slot out of range.  The assignment of line 230 also
    releases the handle that the slot held on the old operand; the
    definition stops short of that release, which [ReplaceOperand_owned]
    below adds. *)
Definition ReplaceOperand (this : NodePtr) (operand_no : nat)
    (node : NodePtr) (index : nat) (h : Heap) : Outcome Heap :=
  n ← deref h node;
  _ ← XLA_CHECK (Nat.ltb index (num_outputs_ n));
  t ← deref h this;
  output ← match operands_as_outputs_ t !! operand_no with
            | Some o => Done o
            | None => Fatal StdOutOfRange
            end;
  old ← match operands_ t !! operand_no with
         | Some p => Done p
         | None => Fatal BadPointer
         end;
  h1 ← RemoveUse old (mkUse this operand_no (out_index output)) h;
  h2 ← AddUse node (mkUse this operand_no index) h1;
  t2 ← deref h2 this;
  Done (<[this := set_operands
                    (<[operand_no := node]> (operands_ t2))
                    (<[operand_no := mkOutput node index]>
                       (operands_as_outputs_ t2))
                    t2]> h2).

(** [Node::ReplaceAllUsesWith] (lines 233-240); the loop runs over a
    snapshot of the use set. *)
Definition ReplaceAllUsesWith (this node : NodePtr) (index : nat)
    (h : Heap) : Outcome Heap :=
  t ← deref h this;
  let current_uses := uses_ t in
  foldM (fun h use =>
           ReplaceOperand (use_node use) (use_operand_index use) node index h)
        current_uses h.

(** One turn of the loop of [Node::~Node] (lines 203-207). *)
Definition Node_dtor_step (this : NodePtr) (h : Heap) (i : nat)
  : Outcome Heap :=
  t ← deref h this;
  o ← match operands_as_outputs_ t !! i with
       | Some o => Done o
       | None => Fatal BadPointer
       end;
  p ← match operands_ t !! i with
       | Some p => Done p
       | None => Fatal BadPointer
       end;
  RemoveUse p (mkUse this i (out_index o)) h.

(** The body of [Node::~Node] (lines 203-207). *)
Definition Node_dtor_body (this : NodePtr) (h : Heap) : Outcome Heap :=
  t ← deref h this;
  foldM (Node_dtor_step this) (seq 0 (length (operands_as_outputs_ t))) h.

(** The body of [Node::~Node], followed by the release of the storage of
    the node.  The destruction of the members in between releases the
    owning handles of the operands and may destroy operands in turn;
    [Node_destroy] below adds it. *)
Definition Node_dtor (this : NodePtr) (h : Heap) : Outcome Heap :=
  t ← deref h this;
  h' ← foldM (Node_dtor_step this)
             (seq 0 (length (operands_as_outputs_ t))) h;
  Done (delete this h').

(** ** Shared ownership

    Modelled from the spec: [NodePtr], declared in ir.h, is a
    reference-counted handle with shared ownership.  The operand vector of
    a node holds one handle for every operand, a use holds none, and a
    node is destroyed when the last handle on it is released.  The
    handles on a node are those in the operand vectors of the nodes that
    are alive and those in the list [handles]: the ones that callers hold
    outside the graph, and the ones of operand vectors that are in the
    course of being destroyed. *)
Definition held (handles : list NodePtr) (h : Heap) (p : NodePtr) : bool :=
  bool_decide (p ∈ handles)
  || bool_decide (map_Exists (fun _ m => p ∈ operands_ m) h).

(** The release of the handles of a vector, here first to last (the
    order in which a vector destroys its elements is left to the
    implementation).  A node that no handle holds any more is destroyed by
    [destroy], which is passed the handles that are still to be released
    along with [roots].  The result is [None] where [destroy] gives
    none. *)
Fixpoint release_handles
    (destroy : list NodePtr -> NodePtr -> Heap -> option (Outcome Heap))
    (roots : list NodePtr) (handles : list NodePtr) (h : Heap)
  : option (Outcome Heap) :=
  match handles with
  | [] => Some (Done h)
  | p :: rest =>
      if held (rest ++ roots) h p then release_handles destroy roots rest h
      else
        match destroy (rest ++ roots) p h with
        | Some (Done h') => release_handles destroy roots rest h'
        | stopped => stopped
        end
  end.

(** The destruction of the node at [this], whose last handle has been
    released: the body of [Node::~Node], then the members, where the
    operand vector releases its handles and so may destroy operands in
    turn, then the storage.  The node is taken out of the heap at the end
    of the body, as nothing reads it from then on.  [roots] lists the
    handles held outside the node; [fuel] bounds the depth of the nested
    destructions, and the result is [None] when it runs out. *)
Fixpoint Node_destroy (fuel : nat) (roots : list NodePtr) (this : NodePtr)
    (h : Heap) : option (Outcome Heap) :=
  match fuel with
  | 0 => None
  | S fuel' =>
      match deref h this with
      | Fatal why => Some (Fatal why)
      | Done t =>
          match Node_dtor this h with
          | Fatal why => Some (Fatal why)
          | Done h' =>
              release_handles (Node_destroy fuel') roots (operands_ t) h'
          end
      end
  end.

(** [Node::ReplaceOperand] with the release of the handle on the old
    operand that the assignment of line 230 performs; [roots] lists the
    handles that callers hold. *)
Definition ReplaceOperand_owned (roots : list NodePtr) (this : NodePtr)
    (operand_no : nat) (node : NodePtr) (index : nat) (h : Heap)
  : option (Outcome Heap) :=
  match ReplaceOperand this operand_no node index h with
  | Fatal why => Some (Fatal why)
  | Done h' =>
      match h !! this ≫= fun t => operands_ t !! operand_no with
      | Some old => release_handles (Node_destroy (size h')) roots [old] h'
      | None => Some (Done h')
      end
  end.

(** ** Collaborators outside the translation unit

    The hash primitives of xla_client/util.h, the symbol table of c10 and
    the printer of [xla::Shape] are not part of ir.cpp; the constructors
    below are written against this interface. *)

Class XlaUtil : Type := {
  HashCombine : hash_t -> hash_t -> hash_t;
  StringHash : string -> hash_t;
  Hash : string -> hash_t;
  toQualString : N -> string;
  Shape_ToString : Shape -> string
}.

(** What the process environment and the Python side supply. *)
Record Environment : Type := mkEnvironment {
  XLA_IR_SHAPE_CACHE_SIZE : Z;
  XLA_IR_DEBUG : bool;
  GetPythonFrames : list SourceLocation;
  is_autograd_thread : bool
}.

(** The two thread-local contexts of the calling thread. *)
Record ThreadContext : Type := mkThreadContext {
  g_scope_context : ScopeContext;
  g_frontend_attribute_context : gmap string string
}.

(** ** Shape cache (lines 20-21, 70-75) *)

(** Modelled from the spec: [xla::util::Cache], defined in
    xla_client/cache.h. The spec describes a mapping from hash to shape of
    bounded capacity with least-recently-used eviction: the list is kept
    most recently used first. *)
Record ShapeCache : Type := mkShapeCache {
  max_size_ : N;
  element_list_ : list (hash_t * Shape)
}.

(** Modelled from the spec: the entry for [key], taken out of the list. *)
Fixpoint Cache_extract (key : hash_t) (l : list (hash_t * Shape))
  : option (Shape * list (hash_t * Shape)) :=
  match l with
  | [] => None
  | (k, s) :: l' =>
      if Z.eqb k key then Some (s, l')
      else match Cache_extract key l' with
           | Some (found, rest) => Some (found, (k, s) :: rest)
           | None => None
           end
  end.

(** Modelled from the spec: [Cache::Get]; a lookup that finds its key
    makes the entry the most recently used one. *)
Definition Cache_Get (key : hash_t) (c : ShapeCache)
  : option Shape * ShapeCache :=
  match Cache_extract key (element_list_ c) with
  | Some (s, rest) => (Some s, mkShapeCache (max_size_ c) ((key, s) :: rest))
  | None => (None, c)
  end.

(** Modelled from the spec: [Cache::Add]; an insertion beyond the
    capacity evicts the least recently used entry.  An insertion under a
    key that is held, which [GetOpShape] does not attempt since it inserts
    after a lookup that failed, keeps the entry that is held. *)
Definition Cache_Add (key : hash_t) (object : Shape) (c : ShapeCache)
  : Shape * ShapeCache :=
  match Cache_extract key (element_list_ c) with
  | Some (s, rest) => (s, mkShapeCache (max_size_ c) ((key, s) :: rest))
  | None =>
      let l := (key, object) :: element_list_ c in
      (object,
       mkShapeCache (max_size_ c)
         (if N.ltb (max_size_ c) (N.of_nat (length l))
          then removelast l else l))
  end.

(** [GetShapeCache] (lines 70-75): the cache starts empty, with the
    capacity read from the environment as a signed 64-bit integer and
    converted to [size_t]. *)
Definition GetShapeCache (env : Environment) : ShapeCache :=
  mkShapeCache (Z.to_N (XLA_IR_SHAPE_CACHE_SIZE env mod 2 ^ 64)) [].

(** The default of [XLA_IR_SHAPE_CACHE_SIZE]. *)
Definition shape_cache_size_default : Z := 4096.

(** [Node::GetOpShape] (lines 287-294). The last component of the result
    tells whether [shape_fn] was called. *)
Definition GetOpShape (n : Node) (shape_fn : unit -> Shape) (c : ShapeCache)
  : Shape * ShapeCache * bool :=
  match Cache_Get (hash_ n) c with
  | (Some shape, c') => (shape, c', false)
  | (None, c') =>
      let '(shape, c'') := Cache_Add (hash_ n) (shape_fn tt) c' in
      (shape, c'', true)
  end.

(** ** Hashes and constructors (lines 126-201, 280-302) *)

Section Constructors.
Context `{XlaUtil}.

(** [OpKind::hash] (lines 148-150). *)
Definition OpKind_hash (o : OpKind) : hash_t :=
  StringHash (toQualString (op o)).

(** [Output::hash] (lines 126-128). *)
Definition Output_hash (h : Heap) (output : Output) : Outcome hash_t :=
  n ← deref h (out_node output);
  Done (HashCombine (hash_ n) (Z.of_nat (out_index output))).

(** [Value::hash] (lines 140-142). *)
Definition Value_hash (h : Heap) (v : Value) : Outcome hash_t :=
  n ← deref h (val_node v);
  Done (HashCombine (hash_ n) (Z.of_nat (val_index v))).

(** [Node::GetOpHash] (lines 280-285). *)
Definition GetOpHash (o : OpKind) (shape : Shape) (hash_seed : hash_t)
  : hash_t :=
  let hv := HashCombine (OpKind_hash o) (Hash (Shape_ToString shape)) in
  HashCombine hv hash_seed.

(** [Node::GetFrameInfo] (lines 296-302). *)
Definition GetFrameInfo (env : Environment) : list SourceLocation :=
  if XLA_IR_DEBUG env then GetPythonFrames env else [].

(** The member initialisers and the metadata capture that the two
    non-delegating constructors share. *)
Definition Node_init (env : Environment) (tc : ThreadContext)
    (o : OpKind) (shape : Shape) (num_outputs : nat) (node_hash : hash_t)
  : Node :=
  {| op_ := o;
     num_outputs_ := num_outputs;
     shape_ := shape;
     node_hash_ := node_hash;
     hash_ := node_hash;
     is_autograd_ := is_autograd_thread env;
     operands_ := [];
     operands_as_outputs_ := [];
     uses_ := [];
     metadata_ :=
       {| scope := GetCurrentScope (g_scope_context tc);
          frame_info := GetFrameInfo env;
          frontend_attributes := g_frontend_attribute_context tc |} |}.

(** One turn of the loop over the operands (lines 169-172). *)
Definition Node_ctor_step (this : NodePtr) (h : Heap) (operand : Value)
  : Outcome Heap :=
  h1 ← AddOperand this (val_node operand) (val_index operand) h;
  oh ← Value_hash h1 operand;
  t ← deref h1 this;
  Done (<[this := set_hash (HashCombine (hash_ t) oh) t]> h1).

(** [Node(OpKind, OpList, xla::Shape, size_t, hash_t)], building the node
    at the address [this]. *)
Definition Node_ctor (env : Environment) (tc : ThreadContext)
    (this : NodePtr) (o : OpKind) (operands : list Value) (shape : Shape)
    (num_outputs : nat) (hash_seed : hash_t) (h : Heap) : Outcome Heap :=
  let node_hash := HashCombine (OpKind_hash o) hash_seed in
  foldM (Node_ctor_step this) operands
        (<[this := Node_init env tc o shape num_outputs node_hash]> h).

(** [Node(OpKind, OpList, const std::function<xla::Shape()>&, size_t,
    hash_t)]. *)
Definition Node_ctor_lazy (env : Environment) (tc : ThreadContext)
    (this : NodePtr) (o : OpKind) (operands : list Value)
    (shape_fn : unit -> Shape) (num_outputs : nat) (hash_seed : hash_t)
    (hc : Heap * ShapeCache) : Outcome (Heap * ShapeCache * bool) :=
  h1 ← Node_ctor env tc this o operands Shape_default num_outputs
                 hash_seed hc.1;
  t ← deref h1 this;
  let '(shape, c', called) := GetOpShape t shape_fn hc.2 in
  Done (<[this := set_shape shape t]> h1, c', called).

(** [Node(OpKind, xla::Shape, size_t, hash_t)]. *)
Definition Node_ctor_leaf (env : Environment) (tc : ThreadContext)
    (this : NodePtr) (o : OpKind) (shape : Shape) (num_outputs : nat)
    (hash_seed : hash_t) (h : Heap) : Heap :=
  <[this := Node_init env tc o shape num_outputs
                      (GetOpHash o shape hash_seed)]> h.

End Constructors.

(** ** Auxiliary definitions used by the statements below *)

(** The key under which a scoped push of [key] files its value. *)
Definition pusher_key (key : string) (prefix_depth : bool)
    (attributes : gmap string string) : string :=
  key_ (FrontendAttributePusher_ctor key "" prefix_depth attributes).1.

(** The members of a node that no operand or use bookkeeping writes. *)
Definition node_static (n : Node)
  : OpKind * nat * Shape * hash_t * hash_t * bool * MetaData :=
  (op_ n, num_outputs_ n, shape_ n, node_hash_ n, hash_ n, is_autograd_ n,
   metadata_ n).

Arguments node_static : simpl never.

Definition static_eq (h h' : Heap) : Prop :=
  forall p, node_static <$> h' !! p = node_static <$> h !! p.

Section OperandHashes.
Context `{XlaUtil}.

(** The hashes of an operand list, in order. *)
Fixpoint Value_hashes (h : Heap) (operands : list Value)
  : Outcome (list hash_t) :=
  match operands with
  | [] => Done []
  | v :: rest =>
      x ← Value_hash h v;
      xs ← Value_hashes h rest;
      Done (x :: xs)
  end.
End OperandHashes.

(** What the constructor body keeps of the member initialisers while it
    folds the operand hashes into [hash_]. *)
Definition node_fixed (n : Node)
  : OpKind * nat * Shape * hash_t * bool * MetaData :=
  (op_ n, num_outputs_ n, shape_ n, node_hash_ n, is_autograd_ n,
   metadata_ n).

Arguments node_fixed : simpl never.

(** [Node::hash()] of the node at an address. *)
Definition Node_hash (h : Heap) (p : NodePtr) : Outcome hash_t :=
  n ← deref h p;
  Done (hash_ n).


(** A run of shape requests against the cache, in order: the cache left
    behind and the number of calls of the shape functions. *)
Fixpoint GetOpShape_seq (requests : list (Node * (unit -> Shape)))
    (c : ShapeCache) : ShapeCache * nat :=
  match requests with
  | [] => (c, 0)
  | (n, shape_fn) :: rest =>
      let '(_, c', called) := GetOpShape n shape_fn c in
      let '(c'', calls) := GetOpShape_seq rest c' in
      (c'', (if called : bool then 1 else 0) + calls)
  end.

(** The keys of the cache, most recently used first. *)
Definition Cache_keys (l : list (hash_t * Shape)) : list hash_t := l.*1.

(** The entry for [key] holds [s] and has at most [k] entries in front. *)
Definition cached_within (key : hash_t) (s : Shape) (k : nat)
    (c : ShapeCache) : Prop :=
  exists pre post,
    element_list_ c = pre ++ (key, s) :: post
    /\ (key ∉ Cache_keys pre)
    /\ length pre <= k.

(** ** The order of uses, read as an order of keys

    [Use::operator<] compares the kind of the consumer, then the operand
    slot, then the output index; the pointer of the consumer itself is not
    compared. *)

Abbreviation UseKey := (N * nat * nat)%type.

Definition key_lt (a b : UseKey) : bool :=
  let '(oa, ia, xa) := a in
  let '(ob, ib, xb) := b in
  if negb (N.eqb oa ob) then N.ltb oa ob
  else if negb (Nat.eqb ia ib) then Nat.ltb ia ib
       else Nat.ltb xa xb.

Definition use_key (h : Heap) (u : Use) : UseKey :=
  (match h !! use_node u with
   | Some n => op (op_ n)
   | None => 0%N
   end,
   use_operand_index u, use_index u).

Arguments key_lt : simpl never.
Arguments use_key : simpl never.

Definition use_live (h : Heap) (u : Use) : Prop := is_Some (h !! use_node u).

(** The list that [set_insert] and [set_erase] return when every pointer
    they read is alive. *)
Fixpoint key_insert (k : Use -> UseKey) (u : Use) (l : list Use) : list Use :=
  match l with
  | [] => [u]
  | x :: l' =>
      if key_lt (k u) (k x) then u :: x :: l'
      else if key_lt (k x) (k u) then x :: key_insert k u l'
           else x :: l'
  end.

Fixpoint key_erase (k : Use -> UseKey) (u : Use) (l : list Use) : list Use :=
  match l with
  | [] => []
  | x :: l' =>
      if key_lt (k u) (k x) then x :: l'
      else if key_lt (k x) (k u) then x :: key_erase k u l'
           else l'
  end.

Definition key_sorted (k : Use -> UseKey) (l : list Use) : Prop :=
  StronglySorted (fun a b => key_lt (k a) (k b) = true) l.

(** ** The invariant of the node graph

    Every use a node holds names a consumer that is alive and whose
    operand slot refers back to the node at that output index; the use
    list is ascending; the two operand vectors agree; every operand is
    alive and has the output that is referred to. *)

Definition use_sound (h : Heap) (producer : NodePtr) (u : Use) : Prop :=
  exists consumer,
    h !! use_node u = Some consumer
    /\ operands_as_outputs_ consumer !! use_operand_index u
       = Some (mkOutput producer (use_index u)).

Definition operand_ok (h : Heap) (o : Output) : Prop :=
  exists n, h !! out_node o = Some n /\ out_index o < num_outputs_ n.

Record node_wf (h : Heap) (p : NodePtr) (n : Node) : Prop := mk_node_wf {
  wf_sorted : key_sorted (use_key h) (uses_ n);
  wf_sound : Forall (use_sound h p) (uses_ n);
  wf_agree : operands_ n = out_node <$> operands_as_outputs_ n;
  wf_operands : Forall (operand_ok h) (operands_as_outputs_ n)
}.

Definition heap_wf (h : Heap) : Prop :=
  forall p n, h !! p = Some n -> node_wf h p n.

(** [h'] keeps every node of [h] alive with its kind, its output count,
    at least as many operand slots, and the contents of the slots apart
    from those that [changed] names. *)
Definition heap_step (changed : NodePtr -> nat -> Prop) (h h' : Heap)
  : Prop :=
  forall q m,
    h !! q = Some m ->
    exists m',
      h' !! q = Some m'
      /\ op_ m' = op_ m
      /\ num_outputs_ m' = num_outputs_ m
      /\ length (operands_as_outputs_ m) <= length (operands_as_outputs_ m')
      /\ forall i o,
           ~ changed q i ->
           operands_as_outputs_ m !! i = Some o ->
           operands_as_outputs_ m' !! i = Some o.

Definition no_slot : NodePtr -> nat -> Prop := fun _ _ => False.
Definition one_slot (p : NodePtr) (i : nat) : NodePtr -> nat -> Prop :=
  fun q j => q = p /\ j = i.

(** An operand handed to a constructor: its node is alive and has the
    output. *)
Definition value_ok (h : Heap) (v : Value) : Prop :=
  exists n, h !! val_node v = Some n /\ val_index v < num_outputs_ n.

(** The state of the destructor loop before slot [i]: against the heap
    [h] it started from, every node has kept its kind and operands, its
    use list has only lost elements, and no use by [this] with a slot
    below [i] is left. *)
Definition dtor_inv (h : Heap) (this : NodePtr) (i : nat) (hk : Heap)
  : Prop :=
  (forall p m,
     h !! p = Some m ->
     exists m',
       hk !! p = Some m'
       /\ op_ m' = op_ m
       /\ num_outputs_ m' = num_outputs_ m
       /\ operands_ m' = operands_ m
       /\ operands_as_outputs_ m' = operands_as_outputs_ m
       /\ (forall u, u ∈ uses_ m' -> u ∈ uses_ m)
       /\ key_sorted (use_key h) (uses_ m')
       /\ (forall u, u ∈ uses_ m' -> use_node u = this ->
                     i <= use_operand_index u))
  /\ (forall p, h !! p = None -> hk !! p = None).

(** ** Operand orders

    [interleave a b bs] lists the pair [a], [b] once for every entry of
    [bs], in the order [a], [b] where the entry is [true] and in the order
    [b], [a] where it is [false]; [all_bits n] lists every choice of [n]
    entries. *)
Definition interleave {A : Type} (a b : A) (bs : list bool) : list A :=
  flat_map (fun c : bool => if c then [a; b] else [b; a]) bs.

Fixpoint all_bits (n : nat) : list (list bool) :=
  match n with
  | 0 => [[]]
  | S n' => (cons true <$> all_bits n') ++ (cons false <$> all_bits n')
  end.

(** The heap that [ReplaceOperand] leaves when every pointer it reads is
    alive: the use on the old operand [old] (a node [pn]) is erased, the
    slot of the consumer is overwritten, the use on the new operand is
    filed. *)
Definition replaced_erase (h : Heap) (this : NodePtr) (operand_no : nat)
    (o : Output) (pn : Node) : Heap :=
  <[out_node o :=
      set_uses (key_erase (use_key h) (mkUse this operand_no (out_index o))
                          (uses_ pn)) pn]> h.

Definition replaced_slot (h1 : Heap) (this : NodePtr) (operand_no : nat)
    (node : NodePtr) (index : nat) (t1 : Node) : Heap :=
  <[this := set_operands
              (<[operand_no := node]> (operands_ t1))
              (<[operand_no := mkOutput node index]>
                 (operands_as_outputs_ t1)) t1]> h1.

Definition replaced_insert (h : Heap) (h1b : Heap) (this : NodePtr)
    (operand_no : nat) (node : NodePtr) (index : nat) (n1b : Node) : Heap :=
  <[node :=
      set_uses (key_insert (use_key h) (mkUse this operand_no index)
                           (uses_ n1b)) n1b]> h1b.

(** No node of [h] has [p] as an operand. *)
Definition unheld (h : Heap) (p : NodePtr) : Prop :=
  forall q m, h !! q = Some m -> p ∉ operands_ m.

(** Every node of [h'] was a node of [h], with the same static members
    and operands, and with no use that it did not have. *)
Definition survives (h h' : Heap) : Prop :=
  forall q m',
    h' !! q = Some m' ->
    exists m,
      h !! q = Some m
      /\ node_static m' = node_static m
      /\ operands_ m' = operands_ m
      /\ operands_as_outputs_ m' = operands_as_outputs_ m
      /\ forall u, u ∈ uses_ m' -> u ∈ uses_ m.

(** The heap a successful operation returns ([d] otherwise). *)
Definition heap_of (d : Heap) (m : Outcome Heap) : Heap :=
  match m with
  | Done h => h
  | Fatal _ => d
  end.

(** ** A sample instantiation

    A concrete 64-bit combiner (multiply by 31 and add, modulo 2^64) and
    plain stand-ins for the string hashes and printers, so that the model
    can be run on concrete graphs. *)

Definition sample_util : XlaUtil := {|
  HashCombine := fun a b => ((a * 31 + b) mod 2 ^ 64)%Z;
  StringHash := fun s => Z.of_nat (String.length s);
  Hash := fun s => Z.of_nat (String.length s);
  toQualString := StrCat_size_t;
  Shape_ToString := fun s => StrCat_size_t (element_type s)
|}.

Section Sample.
#[local] Existing Instance sample_util.

Definition sample_env : Environment :=
  {| XLA_IR_SHAPE_CACHE_SIZE := shape_cache_size_default;
     XLA_IR_DEBUG := false;
     GetPythonFrames := [];
     is_autograd_thread := false |}.

Definition sample_tc : ThreadContext :=
  {| g_scope_context := g_scope_context_init;
     g_frontend_attribute_context := ∅ |}.

Definition F32 : N := 11.
Definition sample_scalar : Shape := mkShape F32 [] [].
Definition sample_pair : Shape :=
  mkShape TUPLE [] [sample_scalar; mkShape F32 [2%Z] []].

(** Two leaves at the addresses 1 and 2, of the same kind and shape, built
    with the seeds 0 and 2^63. *)
Definition sample_leaves : Heap :=
  Node_ctor_leaf sample_env sample_tc 2 (mkOpKind 7) sample_scalar 1
                 (2 ^ 63)%Z
    (Node_ctor_leaf sample_env sample_tc 1 (mkOpKind 7) sample_scalar 1
                    0%Z ∅).

(** A leaf with a tuple shape, at address 1. *)
Definition sample_tuple_leaf : Heap :=
  Node_ctor_leaf sample_env sample_tc 1 (mkOpKind 7) sample_pair 2 0%Z ∅.

Definition sample_scalar_node : Node :=
  Node_init sample_env sample_tc (mkOpKind 7) sample_scalar 1
            (GetOpHash (mkOpKind 7) sample_scalar 0%Z).

Definition sample_tuple_node : Node :=
  Node_init sample_env sample_tc (mkOpKind 7) sample_pair 2
            (GetOpHash (mkOpKind 7) sample_pair 0%Z).

(** Two nodes of one kind over the two leaves, and a third one that takes
    the leaves in the opposite order. *)
Definition sample_op : OpKind := mkOpKind 9.
Definition sample_left : Value := mkValue 1 0.
Definition sample_right : Value := mkValue 2 0.

Definition sample_binary (this : NodePtr) (operands : list Value) (h : Heap)
  : Outcome Heap :=
  Node_ctor sample_env sample_tc this sample_op operands sample_scalar 1
            5%Z h.

(** A node whose full hash is [x], and the requests for the hashes
    1 .. [n]. *)
Definition sample_hashed (x : hash_t) : Node := set_hash x sample_scalar_node.

Definition sample_requests (n : nat) : list (Node * (unit -> Shape)) :=
  map (fun i => (sample_hashed (Z.of_nat i), fun _ : unit => sample_scalar))
      (seq 1 n).

End Sample.

(** The node at an address ([d] when there is none). *)
Definition node_at (d : Node) (h : Heap) (p : NodePtr) : Node :=
  default d (h !! p).

Section SampleGraph.
#[local] Existing Instance sample_util.

(** Two consumers of one kind at the addresses 3 and 4, each taking output
    0 of the leaf at address 1 as its operand 0. *)
Definition sample_two_consumers : Heap :=
  heap_of ∅ (sample_binary 3 [sample_left] sample_leaves
             ≫= sample_binary 4 [sample_left]).

(** Two consumers of one kind: the one at address 3 takes the leaf at
    address 2, the one at address 4 takes the leaf at address 1. *)
Definition sample_split_consumers : Heap :=
  heap_of ∅ (sample_binary 3 [sample_right] sample_leaves
             ≫= sample_binary 4 [sample_left]).

End SampleGraph.

(** ** Blocks guarded by a [ScopePusher] (lines 304-306)

    The constructor pushes the scope and the destructor pops it when the
    block is left; a block may open further blocks before it ends. *)
#[warnings="-register-all"]
Inductive ScopeBlock : Type :=
  | Block (name : string) (inner : list ScopeBlock).

Fixpoint run_block (b : ScopeBlock) (ctx : ScopeContext)
  : Outcome ScopeContext :=
  match b with
  | Block name inner =>
      ctx' ← (fix run_inner (bs : list ScopeBlock) (c : ScopeContext)
                : Outcome ScopeContext :=
                match bs with
                | [] => Done c
                | b' :: rest => c' ← run_block b' c; run_inner rest c'
                end) inner (PushScope name ctx);
      PopScope ctx'
  end.

Definition run_blocks (bs : list ScopeBlock) (ctx : ScopeContext)
  : Outcome ScopeContext :=
  foldM (fun c b => run_block b c) bs ctx.

(** Every entry of the stack has a name that is not empty. *)
Definition scope_names_nonempty (ctx : ScopeContext) : Prop :=
  Forall (fun e => scape_name e <> "") (scopes ctx).

(** ** Short frame information (lines 77-90) *)

(** The character ['/'], code 47. *)
Definition slash : Ascii.ascii := Ascii.ascii_of_nat 47.

(** [std::string::find_last_of(char)]: the position of the last
    occurrence of the character, [None] for [npos]. *)
Fixpoint find_last_of (s : string) (c : Ascii.ascii) : option nat :=
  match s with
  | EmptyString => None
  | String a s' =>
      match find_last_of s' c with
      | Some pos => Some (S pos)
      | None => if Ascii.eqb a c then Some 0 else None
      end
  end.

(** [std::string::substr(pos)] throws when [pos] is past the end of the
    string. *)
Fixpoint substr (s : string) (pos : nat) : Outcome string :=
  match pos, s with
  | 0, _ => Done s
  | S pos', String _ s' => substr s' pos'
  | S _, EmptyString => Fatal StdOutOfRange
  end.

(** [operator<<] renders an [int] in decimal, with a sign when it is
    negative. *)
Definition ostream_int (z : Z) : string :=
  NilZero.string_of_int (Z.to_int z).

(** [EmitShortFrameInfo], returning the contents of the stream. *)
Definition EmitShortFrameInfo (stream : string)
    (frames : list SourceLocation) : Outcome string :=
  match frames with
  | [] => Done stream
  | frame :: _ =>
      let pos := match find_last_of (file frame) slash with
                 | None => 0
                 | Some pos => S pos
                 end in
      base ← substr (file frame) pos;
      Done (stream +:+ ", location=" +:+ function frame +:+ "@" +:+ base
            +:+ ":" +:+ ostream_int (line frame))
  end.

(** The character occurs in the string. *)
Fixpoint string_has (c : Ascii.ascii) (s : string) : bool :=
  match s with
  | EmptyString => false
  | String a s' => Ascii.eqb a c || string_has c s'
  end.

(** ** Frames of the operand bookkeeping *)

(** The two operand vectors of a node. *)
Definition node_operands (n : Node) : list NodePtr * list Output :=
  (operands_ n, operands_as_outputs_ n).

Arguments node_operands : simpl never.

(** The same nodes are alive in [h'] as in [h], with the same operands. *)
Definition operands_eq (h h' : Heap) : Prop :=
  forall p, node_operands <$> h' !! p = node_operands <$> h !! p.


(** The operand edge that a constructor argument stands for. *)
Definition Value_output (v : Value) : Output :=
  mkOutput (val_node v) (val_index v).

(** * Properties *)

(** ** Scope stack *)

Lemma PopScope_PushScope name ctx :
  PopScope (PushScope name ctx)
  = Done {| scopes := scopes ctx;
            next_id := ((next_id ctx + 1) mod size_t_modulus)%N |}.
Proof.
  unfold PopScope, PushScope; cbn [scopes next_id].
  rewrite last_snoc, removelast_last. reflexivity.
Qed.

Lemma PopScope_empty n :
  PopScope {| scopes := []; next_id := n |} = Fatal XlaCheckFailed.
Proof. reflexivity. Qed.

Lemma GetCurrentScope_PushScope_root name :
  GetCurrentScope (PushScope name g_scope_context_init) = name +:+ ".1".
Proof. reflexivity. Qed.

(** C6: from an empty scope stack with a fresh counter, pushing "a" and
    then "b" renders the current scope as "a.1/b.1"; after one pop and a
    second push of "b" it renders as "a.1/b.2".  The sibling id increments
    and the child id resets on a freshly pushed parent: [PushScope] leaves
    the counter at one whatever it was, and where the counter of the
    enclosing level stands at [n], the parent "a" is numbered [n] while its
    first child is numbered 1 and, after a pop, its second child 2. *)
Theorem C6_scope_sibling_numbering :
  (GetCurrentScope (PushScope "b" (PushScope "a" g_scope_context_init))
   = "a.1/b.1"
   /\ (ctx ← PopScope (PushScope "b" (PushScope "a" g_scope_context_init));
       Done (GetCurrentScope (PushScope "b" ctx)))
      = Done "a.1/b.2")
  /\ (forall name ctx, next_id (PushScope name ctx) = 1%N)
  /\ (forall name ctx,
        (popped ← PopScope (PushScope name ctx); Done (next_id popped))
        = Done ((next_id ctx + 1) mod size_t_modulus)%N)
  /\ (forall a b n,
        GetCurrentScope
          (PushScope b (PushScope a {| scopes := []; next_id := n |}))
        = (a +:+ "." +:+ StrCat_size_t n) +:+ "/" +:+ (b +:+ ".1")
        /\ (ctx ← PopScope
                    (PushScope b
                       (PushScope a {| scopes := []; next_id := n |}));
            Done (GetCurrentScope (PushScope b ctx)))
           = Done ((a +:+ "." +:+ StrCat_size_t n) +:+ "/" +:+ (b +:+ ".2"))).
Proof.
  split; [split; reflexivity|]. split; [reflexivity|].
  split; [intros name ctx; rewrite PopScope_PushScope; reflexivity|].
  intros a b n. split.
  - unfold GetCurrentScope, PushScope; cbn [scopes next_id app fold_left].
    destruct a; reflexivity.
  - rewrite PopScope_PushScope.
    change (Done (GetCurrentScope
                    (PushScope b
                       {| scopes := scopes (PushScope a
                                      {| scopes := []; next_id := n |});
                          next_id := ((next_id (PushScope a
                                         {| scopes := []; next_id := n |})
                                       + 1) mod size_t_modulus)%N |}))
            = Done ((a +:+ "." +:+ StrCat_size_t n) +:+ "/"
                    +:+ (b +:+ ".2"))).
    f_equal.
    unfold GetCurrentScope, PushScope; cbn [scopes next_id app fold_left].
    destruct a; reflexivity.
Qed.

(** ** Frontend attributes *)

Lemma FrontendAttributePusher_empty_value_present
    key prefix_depth (attributes : gmap string string) :
  is_Some (attributes !! pusher_key key prefix_depth attributes) ->
  (FrontendAttributePusher_ctor key "" prefix_depth attributes).2
    !! pusher_key key prefix_depth attributes = None.
Proof.
  unfold pusher_key, FrontendAttributePusher_ctor.
  intros [v Hv]. revert Hv.
  set (k := if prefix_depth then _ else _).
  destruct (attributes !! k) eqn:E; cbn; intros; [|congruence].
  apply lookup_delete_eq.
Qed.

Lemma FrontendAttributePusher_empty_value_absent
    key prefix_depth (attributes : gmap string string) :
  attributes !! pusher_key key prefix_depth attributes = None ->
  (FrontendAttributePusher_ctor key "" prefix_depth attributes).2
    !! pusher_key key prefix_depth attributes = Some "".
Proof.
  unfold pusher_key, FrontendAttributePusher_ctor.
  set (k := if prefix_depth then _ else _).
  destruct (attributes !! k) eqn:E; cbn; intros; [congruence|].
  apply lookup_insert_eq.
Qed.

(** C7 (the code departs from the claim): a scoped push of key "k" with
    the empty value onto a map that does not hold "k" leaves "k" in the
    map, bound to the empty string, until the scope exits. *)
Theorem C7_empty_value_on_absent_key_is_stored :
  (FrontendAttributePusher_ctor "k" "" false ∅).2 !! "k" = Some ""
  /\ (FrontendAttributePusher_ctor "k" "" true ∅).2 !! "0.k" = Some "".
Proof. split; reflexivity. Qed.

Lemma FrontendAttributePusher_dtor_after_empty_push
    key (attributes : gmap string string) :
  attributes !! key = None ->
  let '(p, inside) := FrontendAttributePusher_ctor key "" false attributes in
  FrontendAttributePusher_dtor p inside = attributes.
Proof.
  intros Hk. unfold FrontendAttributePusher_ctor. rewrite Hk.
  unfold FrontendAttributePusher_dtor; cbn.
  rewrite lookup_insert_eq; cbn.
  rewrite delete_insert_eq. by apply delete_id.
Qed.

(** C9: [PythonAddFrontendAttribute] stores the pair only when the key is
    absent; a key that is present keeps its value and the map is the same
    afterwards. *)
Theorem C9_PythonAddFrontendAttribute_keeps_existing
    key value (attributes : gmap string string) :
  (attributes !! key = None ->
     PythonAddFrontendAttribute key value attributes
     = <[key := value]> attributes)
  /\ (forall old, attributes !! key = Some old ->
        PythonAddFrontendAttribute key value attributes = attributes
        /\ PythonAddFrontendAttribute key value attributes !! key = Some old).
Proof.
  unfold PythonAddFrontendAttribute. split.
  - intros ->. reflexivity.
  - intros old Hold. rewrite Hold. auto.
Qed.

Lemma C9_witness :
  PythonAddFrontendAttribute "k" "new" {[ "k" := "old" ]} !! "k" = Some "old"
  /\ PythonAddFrontendAttribute "k" "new" ∅ !! "k" = Some "new".
Proof.
  split.
  - apply (proj2 (C9_PythonAddFrontendAttribute_keeps_existing
                    "k" "new" {[ "k" := "old" ]}) "old").
    reflexivity.
  - rewrite (proj1 (C9_PythonAddFrontendAttribute_keeps_existing
                      "k" "new" ∅)); reflexivity.
Defined.

(** ** [Node::shape] *)

(** C8: on a node whose declared shape is a tuple, [shape(i)] is the i-th
    element shape; on any other node [shape(0)] is the declared shape and
    [shape(i)] with [i] not zero fails its check. *)
Theorem C8_Node_shape (n : Node) (i : nat) :
  (IsTuple (shape_ n) = true ->
     forall s, tuple_shapes (shape_ n) !! i = Some s ->
               Node_shape n i = Done s)
  /\ (IsTuple (shape_ n) = false ->
        Node_shape n 0 = Done (shape_ n)
        /\ (i <> 0 -> Node_shape n i = Fatal XlaCheckFailed)).
Proof.
  unfold Node_shape. split.
  - intros -> s ->. reflexivity.
  - intros ->. split; [reflexivity|].
    intros Hi. destruct i; [done|reflexivity].
Qed.

(** ** Reasoning about outcomes *)

Lemma bind_Done_inv {A B} (m : Outcome A) (k : A -> Outcome B) (b : B) :
  (m ≫= k) = Done b -> exists a, m = Done a /\ k a = Done b.
Proof. destruct m as [a|e]; cbn; [eauto | discriminate]. Qed.

Lemma Done_bind {A B} (a : A) (k : A -> Outcome B) : (Done a ≫= k) = k a.
Proof. reflexivity. Qed.

Lemma XLA_CHECK_Done (b : bool) (u : unit) : XLA_CHECK b = Done u -> b = true.
Proof. destruct b; [reflexivity | discriminate]. Qed.

Lemma deref_Done (h : Heap) p n : deref h p = Done n <-> h !! p = Some n.
Proof. unfold deref. destruct (h !! p); split; congruence. Qed.

Lemma deref_Some (h : Heap) p n : h !! p = Some n -> deref h p = Done n.
Proof. apply deref_Done. Qed.

Lemma opt_Done_inv {A} (o : option A) (e : Failure) (a : A) :
  match o with Some x => Done x | None => Fatal e end = Done a -> o = Some a.
Proof. destruct o; congruence. Qed.

Ltac inv_outcome :=
  repeat match goal with
    | H : (_ ≫= _) = Done _ |- _ =>
        apply bind_Done_inv in H; destruct H as (? & ? & H)
    | H : XLA_CHECK _ = Done _ |- _ => apply XLA_CHECK_Done in H
    | H : deref _ _ = Done _ |- _ => apply deref_Done in H
    | H : match ?o with Some x => Done x | None => Fatal _ end = Done _ |- _ =>
        apply opt_Done_inv in H
    | H : Done _ = Done _ |- _ => injection H as H
    | H : Fatal _ = Done _ |- _ => discriminate H
    end.

Ltac bind_inv H x Hx :=
  apply bind_Done_inv in H; destruct H as (x & Hx & H).

Lemma foldM_app {S A} (f : S -> A -> Outcome S) l1 l2 s :
  foldM f (l1 ++ l2) s = (foldM f l1 s ≫= foldM f l2).
Proof.
  revert s; induction l1 as [|a l1 IH]; intros s; cbn; [reflexivity|].
  destruct (f s a); cbn; [apply IH | reflexivity].
Qed.

(** An invariant kept by every turn is kept by the loop. *)
Lemma foldM_invariant {S A} (I : S -> Prop) (f : S -> A -> Outcome S) l :
  (forall s a s', I s -> f s a = Done s' -> I s') ->
  forall s s', I s -> foldM f l s = Done s' -> I s'.
Proof.
  intros Hstep. induction l as [|a l IH]; cbn; intros s s' Hs Hrun.
  - congruence.
  - inv_outcome. eauto.
Qed.

(** ** The bookkeeping leaves the static members alone *)

Lemma static_eq_refl h : static_eq h h.
Proof. intros p; reflexivity. Qed.

Lemma static_eq_trans h1 h2 h3 :
  static_eq h1 h2 -> static_eq h2 h3 -> static_eq h1 h3.
Proof. intros H12 H23 p. rewrite H23. apply H12. Qed.

Lemma static_eq_insert (h : Heap) p n n' :
  h !! p = Some n -> node_static n' = node_static n ->
  static_eq h (<[p := n']> h).
Proof.
  intros Hp Hn q. destruct (decide (p = q)) as [<-|Hne].
  - rewrite lookup_insert_eq, Hp. cbn. congruence.
  - rewrite lookup_insert_ne by done. reflexivity.
Qed.

Lemma AddUse_static self use h h' :
  AddUse self use h = Done h' -> static_eq h h'.
Proof.
  unfold AddUse; intros Hrun; inv_outcome. subst h'.
  eapply static_eq_insert; eauto.
Qed.

Lemma RemoveUse_static self use h h' :
  RemoveUse self use h = Done h' -> static_eq h h'.
Proof.
  unfold RemoveUse; intros Hrun; inv_outcome. subst h'.
  eapply static_eq_insert; eauto.
Qed.

Lemma AddOperand_static this node index h h' :
  AddOperand this node index h = Done h' -> static_eq h h'.
Proof.
  unfold AddOperand; intros Hrun; inv_outcome.
  eapply static_eq_trans; [|eapply AddUse_static; eassumption].
  eapply static_eq_insert; eauto.
Qed.

Lemma ReplaceOperand_static this operand_no node index h h' :
  ReplaceOperand this operand_no node index h = Done h' -> static_eq h h'.
Proof.
  unfold ReplaceOperand; intros Hrun; inv_outcome. subst h'.
  eapply static_eq_trans; [eapply RemoveUse_static; eassumption|].
  eapply static_eq_trans; [eapply AddUse_static; eassumption|].
  eapply static_eq_insert; eauto.
Qed.


Lemma static_eq_lookup h h' p n :
  static_eq h h' -> h !! p = Some n ->
  exists n', h' !! p = Some n' /\ node_static n' = node_static n.
Proof.
  intros Hst Hp. specialize (Hst p). rewrite Hp in Hst.
  destruct (h' !! p) as [n'|]; cbn in Hst; [|discriminate].
  exists n'. split; [reflexivity | congruence].
Qed.

Lemma static_eq_lookup_None h h' p :
  static_eq h h' -> h !! p = None -> h' !! p = None.
Proof.
  intros Hst Hp. specialize (Hst p). rewrite Hp in Hst.
  destruct (h' !! p); [discriminate | reflexivity].
Qed.

Lemma node_static_hash n n' :
  node_static n' = node_static n ->
  hash_ n' = hash_ n /\ node_hash_ n' = node_hash_ n /\ shape_ n' = shape_ n
  /\ op_ n' = op_ n /\ num_outputs_ n' = num_outputs_ n.
Proof. unfold node_static. intros [= ? ? ? ? ? ? ?]. auto. Qed.

(** ** The constructors and the full hash *)

Section ConstructorFacts.
Context `{XlaUtil}.

Lemma Value_hash_static h h' v :
  node_static <$> h' !! val_node v = node_static <$> h !! val_node v ->
  Value_hash h' v = Value_hash h v.
Proof.
  unfold Value_hash, deref. intros Hst.
  destruct (h !! val_node v) as [n|], (h' !! val_node v) as [n'|];
    cbn in *; try discriminate; [|reflexivity].
  assert (Hs' : node_static n' = node_static n) by congruence.
  apply node_static_hash in Hs' as (-> & _). reflexivity.
Qed.

Lemma Value_hash_live h v x : Value_hash h v = Done x -> is_Some (h !! val_node v).
Proof. unfold Value_hash; intros Hv; inv_outcome. eauto. Qed.

(** The loop of the constructor folds [HashCombine] over the operand
    hashes from left to right and writes nothing else that is static. *)
Lemma Node_ctor_loop this (h : Heap) operands :
  h !! this = None ->
  forall hk t hs h',
    (forall p, p <> this ->
               node_static <$> hk !! p = node_static <$> h !! p) ->
    hk !! this = Some t ->
    Value_hashes h operands = Done hs ->
    foldM (Node_ctor_step this) operands hk = Done h' ->
    exists t',
      h' !! this = Some t'
      /\ hash_ t' = fold_left HashCombine hs (hash_ t)
      /\ node_fixed t' = node_fixed t
      /\ (forall p, p <> this ->
                    node_static <$> h' !! p = node_static <$> h !! p).
Proof.
  intros Hfresh. induction operands as [|v operands IH];
    intros hk t hs h' Hothers Hthis Hhs Hrun; cbn in Hhs, Hrun.
  - inv_outcome. subst. exists t. cbn. auto.
  - bind_inv Hhs x Hv. bind_inv Hhs xs Hrest. injection Hhs as <-.
    bind_inv Hrun h2 Hstep.
    unfold Node_ctor_step in Hstep.
    bind_inv Hstep h1 Hadd. bind_inv Hstep oh Hvh. bind_inv Hstep t1 Ht1.
    injection Hstep as <-. apply deref_Done in Ht1.
    pose proof (AddOperand_static _ _ _ _ _ Hadd) as Hst.
    assert (Hne : val_node v <> this).
    { intros Heq. apply Value_hash_live in Hv as [n Hn]. congruence. }
    assert (Hx : oh = x).
    { rewrite (Value_hash_static hk) in Hvh by apply Hst.
      rewrite (Value_hash_static h) in Hvh by (apply Hothers; exact Hne).
      congruence. }
    subst oh.
    destruct (static_eq_lookup _ _ _ _ Hst Hthis) as (t1' & Ht1' & Hs1).
    assert (t1' = t1) by congruence. subst t1'.
    unfold node_static in Hs1. injection Hs1 as E1 E2 E3 E4 E5 E6 E7.
    edestruct (IH (<[this := set_hash (HashCombine (hash_ t1) x) t1]> h1)
                 (set_hash (HashCombine (hash_ t1) x) t1))
      as (t' & Ht' & Hhash & Hfix & Hoth); [| | exact Hrest | exact Hrun | ].
    + intros p Hp. rewrite lookup_insert_ne by done.
      rewrite Hst. apply Hothers; exact Hp.
    + apply lookup_insert_eq.
    + exists t'. repeat split; [exact Ht' | | | exact Hoth].
      * rewrite Hhash. cbn. rewrite E5. reflexivity.
      * rewrite Hfix. unfold node_fixed; cbn. congruence.
Qed.

Lemma Node_ctor_hash env tc this o operands shape num_outputs hash_seed
    (h h' : Heap) hs :
  h !! this = None ->
  Value_hashes h operands = Done hs ->
  Node_ctor env tc this o operands shape num_outputs hash_seed h = Done h' ->
  exists t,
    h' !! this = Some t
    /\ hash_ t = fold_left HashCombine hs
                           (HashCombine (OpKind_hash o) hash_seed)
    /\ node_hash_ t = HashCombine (OpKind_hash o) hash_seed
    /\ shape_ t = shape
    /\ op_ t = o
    /\ num_outputs_ t = num_outputs.
Proof.
  intros Hfresh Hhs Hrun. unfold Node_ctor in Hrun.
  edestruct (Node_ctor_loop this h operands Hfresh) as (t & Ht & Hh & Hf & _);
    [ | apply lookup_insert_eq | exact Hhs | exact Hrun | ].
  - intros p Hp. rewrite lookup_insert_ne by done. reflexivity.
  - exists t. unfold node_fixed in Hf; cbn in Hf, Hh.
    injection Hf as -> -> -> -> _ _. repeat split; assumption || reflexivity.
Qed.

(** A constructed node is in the heap whether or not its operands were
    hashed in the heap it started from. *)
Lemma Node_ctor_this env tc this o operands shape num_outputs hash_seed
    (h h' : Heap) :
  Node_ctor env tc this o operands shape num_outputs hash_seed h = Done h' ->
  exists t, h' !! this = Some t
            /\ node_hash_ t = HashCombine (OpKind_hash o) hash_seed
            /\ shape_ t = shape.
Proof.
  unfold Node_ctor. intros Hrun.
  eapply (foldM_invariant
            (fun s : Heap => exists t, s !! this = Some t
               /\ node_hash_ t = HashCombine (OpKind_hash o) hash_seed
               /\ shape_ t = shape)); [| | exact Hrun].
  - intros s v s' (t & Ht & Hn & Hs) Hstep.
    unfold Node_ctor_step in Hstep.
    bind_inv Hstep h1 Hadd. bind_inv Hstep oh Hvh. bind_inv Hstep t1 Ht1.
    injection Hstep as <-. apply deref_Done in Ht1.
    eexists. split; [apply lookup_insert_eq|].
    pose proof (AddOperand_static _ _ _ _ _ Hadd) as Hst.
    destruct (static_eq_lookup _ _ _ _ Hst Ht) as (t1' & Ht1' & Hs1).
    assert (t1' = t1) by congruence. subst t1'.
    apply node_static_hash in Hs1 as (_ & E1 & E2 & _). cbn. split; congruence.
  - eexists. split; [apply lookup_insert_eq|]. cbn. auto.
Qed.

End ConstructorFacts.

Section SampleShape.
#[local] Existing Instance sample_util.

Lemma C8_witness :
  Node_shape sample_tuple_node 1 = Done (mkShape F32 [2%Z] [])
  /\ Node_shape sample_scalar_node 0 = Done sample_scalar
  /\ Node_shape sample_scalar_node 1 = Fatal XlaCheckFailed.
Proof.
  split.
  - apply (proj1 (C8_Node_shape sample_tuple_node 1)); reflexivity.
  - destruct (proj2 (C8_Node_shape sample_scalar_node 1) eq_refl) as [H0 H1].
    split; [exact H0 | apply H1; discriminate].
Defined.

End SampleShape.


(** ** The lazy constructor *)

(** C10: the lazy constructor fixes [node_hash_] and [hash_] while the
    declared shape is the empty placeholder, and storing the shape that
    [GetOpShape] delivers changes neither; the full hash is the same for
    every shape function and every state of the cache. *)
Theorem C10_lazy_hash_ignores_shape `{XlaUtil}
    env tc this o operands num_outputs hash_seed (h h0 : Heap) :
  Node_ctor env tc this o operands Shape_default num_outputs hash_seed h
  = Done h0 ->
  exists t0,
    h0 !! this = Some t0
    /\ shape_ t0 = Shape_default
    /\ node_hash_ t0 = HashCombine (OpKind_hash o) hash_seed
    /\ forall shape_fn c,
         exists t c' called,
           Node_ctor_lazy env tc this o operands shape_fn num_outputs
                          hash_seed (h, c)
           = Done (<[this := t]> h0, c', called)
           /\ (shape_ t, c', called) = GetOpShape t0 shape_fn c
           /\ hash_ t = hash_ t0
           /\ node_hash_ t = node_hash_ t0.
Proof.
  intros Hctor.
  destruct (Node_ctor_this _ _ _ _ _ _ _ _ _ _ Hctor) as (t0 & Ht0 & Hn & Hs).
  exists t0. repeat split; try assumption.
  intros shape_fn c. unfold Node_ctor_lazy. cbn [fst snd].
  rewrite Hctor. cbn. rewrite (deref_Some _ _ _ Ht0). cbn.
  destruct (GetOpShape t0 shape_fn c) as [[shape c'] called].
  exists (set_shape shape t0), c', called. repeat split.
Qed.

Section SampleLazy.
#[local] Existing Instance sample_util.

Lemma C10_witness :
  exists t0,
    heap_of ∅ (Node_ctor sample_env sample_tc 3 sample_op
                 [sample_left; sample_right] Shape_default 1 5%Z
                 sample_leaves) !! 3 = Some t0
    /\ shape_ t0 = Shape_default
    /\ node_hash_ t0 = HashCombine (OpKind_hash sample_op) 5%Z
    /\ forall shape_fn c,
         exists t c' called,
           Node_ctor_lazy sample_env sample_tc 3 sample_op
                          [sample_left; sample_right] shape_fn 1 5%Z
                          (sample_leaves, c)
           = Done (<[3 := t]>
                     (heap_of ∅ (Node_ctor sample_env sample_tc 3 sample_op
                                   [sample_left; sample_right] Shape_default
                                   1 5%Z sample_leaves)),
                   c', called)
           /\ (shape_ t, c', called) = GetOpShape t0 shape_fn c
           /\ hash_ t = hash_ t0
           /\ node_hash_ t = node_hash_ t0.
Proof.
  apply (C10_lazy_hash_ignores_shape sample_env sample_tc 3 sample_op
           [sample_left; sample_right] 1 5%Z sample_leaves).
  vm_compute. reflexivity.
Defined.

End SampleLazy.

(** ** The shape cache *)

Lemma Cache_extract_hit key s pre post :
  key ∉ Cache_keys pre ->
  Cache_extract key (pre ++ (key, s) :: post) = Some (s, pre ++ post).
Proof.
  unfold Cache_keys. induction pre as [|[k v] pre IH]; cbn; intros Hnot.
  - rewrite Z.eqb_refl. reflexivity.
  - apply not_elem_of_cons in Hnot as [Hne Hnot].
    destruct (Z.eqb_spec k key) as [->|_]; [done|].
    rewrite IH by exact Hnot. reflexivity.
Qed.

Lemma Cache_extract_Some key l s rest :
  Cache_extract key l = Some (s, rest) ->
  exists pre post,
    l = pre ++ (key, s) :: post /\ rest = pre ++ post
    /\ key ∉ Cache_keys pre.
Proof.
  unfold Cache_keys. revert rest.
  induction l as [|[k v] l IH]; cbn; intros rest Hex; [discriminate|].
  destruct (Z.eqb_spec k key) as [->|Hne].
  - injection Hex as <- <-. exists [], l. repeat split. apply not_elem_of_nil.
  - destruct (Cache_extract key l) as [[found r]|] eqn:E; [|discriminate].
    injection Hex as -> <-.
    destruct (IH r eq_refl) as (pre & post & -> & -> & Hnot).
    exists ((k, v) :: pre), post. repeat split.
    cbn. apply not_elem_of_cons. split; [congruence | exact Hnot].
Qed.

Lemma Cache_extract_None_app key l1 l2 :
  Cache_extract key (l1 ++ l2)
  = match Cache_extract key l1 with
    | Some (s, rest) => Some (s, rest ++ l2)
    | None =>
        match Cache_extract key l2 with
        | Some (s, rest) => Some (s, l1 ++ rest)
        | None => None
        end
    end.
Proof.
  induction l1 as [|[k v] l1 IH]; cbn.
  - destruct (Cache_extract key l2) as [[? ?]|]; reflexivity.
  - destruct (Z.eqb k key); [reflexivity|]. rewrite IH.
    destruct (Cache_extract key l1) as [[? ?]|]; [reflexivity|].
    destruct (Cache_extract key l2) as [[? ?]|]; reflexivity.
Qed.

Lemma GetOpShape_max_size n fn c :
  max_size_ (snd (fst (GetOpShape n fn c))) = max_size_ c.
Proof.
  unfold GetOpShape, Cache_Get, Cache_Add.
  destruct (Cache_extract (hash_ n) (element_list_ c)) as [[s rest]|] eqn:E;
    cbn; [reflexivity|]. rewrite E. reflexivity.
Qed.

Lemma GetOpShape_hit key s k n fn c :
  hash_ n = key -> cached_within key s k c ->
  exists c', GetOpShape n fn c = (s, c', false) /\ cached_within key s 0 c'.
Proof.
  intros Hk (pre & post & Hl & Hnot & _).
  unfold GetOpShape, Cache_Get. rewrite Hk, Hl.
  rewrite Cache_extract_hit by exact Hnot.
  eexists. split; [reflexivity|].
  exists [], (pre ++ post). cbn. repeat split; [apply not_elem_of_nil | lia].
Qed.

Lemma removelast_keep {A} (l : list A) x y post :
  removelast (l ++ x :: y :: post) = l ++ x :: removelast (y :: post).
Proof.
  induction l as [|a l IH]; cbn [app].
  - reflexivity.
  - change (removelast (a :: l ++ x :: y :: post))
      with (match l ++ x :: y :: post with
            | [] => []
            | _ :: _ => a :: removelast (l ++ x :: y :: post)
            end).
    rewrite IH. destruct l; reflexivity.
Qed.

(** The first request leaves its entry at the front, whether it found it
    or computed it, as long as the cache can hold one entry. *)
Lemma GetOpShape_first n fn c :
  (0 < max_size_ c)%N ->
  exists s c' called,
    GetOpShape n fn c = (s, c', called) /\ cached_within (hash_ n) s 0 c'.
Proof.
  intros Hmax. unfold GetOpShape, Cache_Get.
  destruct (Cache_extract (hash_ n) (element_list_ c)) as [[s rest]|] eqn:E.
  - exists s. eexists. exists false. split; [reflexivity|].
    exists [], rest. cbn. repeat split; [apply not_elem_of_nil | lia].
  - unfold Cache_Add. rewrite E.
    exists (fn tt). eexists. exists true. split; [reflexivity|].
    cbn [element_list_].
    destruct (element_list_ c) as [|y l].
    + exists [], []. cbn [length].
      replace (max_size_ c <? N.of_nat 1)%N with false
        by (symmetry; apply N.ltb_ge; lia).
      split; [reflexivity | split; [apply not_elem_of_nil | cbn; lia]].
    + exists [].
      destruct (max_size_ c <? _)%N.
      * exists (removelast (y :: l)).
        split; [| split; [apply not_elem_of_nil | cbn; lia]].
        apply (removelast_keep [] (hash_ n, fn tt) y l).
      * exists (y :: l).
        split; [reflexivity | split; [apply not_elem_of_nil | cbn; lia]].
Qed.

Lemma cached_within_weaken key s k k' c :
  k <= k' -> cached_within key s k c -> cached_within key s k' c.
Proof.
  intros Hle (pre & post & Hl & Hnot & Hlen).
  exists pre, post. repeat split; [exact Hl | exact Hnot | lia].
Qed.

(** Any other request pushes the entry back by at most one place, and
    cannot evict it while it is that far from the capacity. *)
Lemma GetOpShape_other key s k n fn c :
  cached_within key s k c ->
  (N.of_nat (S k) < max_size_ c)%N ->
  exists s' c' called,
    GetOpShape n fn c = (s', c', called) /\ cached_within key s (S k) c'.
Proof.
  intros Hin Hcap.
  destruct (decide (hash_ n = key)) as [Heq|Hne].
  { destruct (GetOpShape_hit key s k n fn c Heq Hin) as (c' & Hget & Hc').
    exists s, c', false. split; [exact Hget|].
    eapply cached_within_weaken; [|exact Hc']. lia. }
  destruct Hin as (pre & post & Hl & Hnot & Hlen).
  unfold GetOpShape, Cache_Get, Cache_Add. rewrite Hl.
  rewrite Cache_extract_None_app.
  destruct (Cache_extract (hash_ n) pre) as [[s' pre']|] eqn:Epre.
  - apply Cache_extract_Some in Epre as (p1 & p2 & -> & -> & Hn1).
    exists s'. eexists. exists false. split; [reflexivity|].
    exists ((hash_ n, s') :: p1 ++ p2), post. cbn [element_list_].
    split; [reflexivity|]. split.
    + unfold Cache_keys in *. cbn. rewrite fmap_app in *. cbn in Hnot.
      rewrite not_elem_of_cons. split; [congruence|].
      rewrite elem_of_app in *. rewrite elem_of_cons in Hnot. tauto.
    + rewrite length_app in Hlen. cbn in *. rewrite length_app. lia.
  - cbn [Cache_extract].
    destruct (Z.eqb_spec key (hash_ n)) as [Hk|_]; [congruence|].
    destruct (Cache_extract (hash_ n) post) as [[s' post']|] eqn:Epost.
    + exists s'. eexists. exists false. split; [reflexivity|].
      exists ((hash_ n, s') :: pre), post'. cbn [element_list_].
      split; [reflexivity|]. split.
      * unfold Cache_keys in *. cbn. rewrite not_elem_of_cons.
        split; [congruence | exact Hnot].
      * cbn. lia.
    + cbn [element_list_ max_size_]. rewrite Hl.
      rewrite Cache_extract_None_app, Epre. cbn [Cache_extract].
      destruct (Z.eqb_spec key (hash_ n)) as [Hk|_]; [congruence|].
      rewrite Epost.
      exists (fn tt). eexists. exists true. split; [reflexivity|].
      cbn [element_list_].
      assert (Hkeys : key ∉ Cache_keys ((hash_ n, fn tt) :: pre)).
      { unfold Cache_keys in *. cbn. rewrite not_elem_of_cons.
        split; [congruence | exact Hnot]. }
      destruct post as [|y post'].
      * replace (max_size_ c <? _)%N with false.
        { exists ((hash_ n, fn tt) :: pre), [].
          split; [reflexivity | split; [exact Hkeys | cbn; lia]]. }
        symmetry. apply N.ltb_ge. cbn [length]. rewrite length_app. cbn.
        lia.
      * destruct (max_size_ c <? _)%N.
        { exists ((hash_ n, fn tt) :: pre), (removelast (y :: post')).
          split; [| split; [exact Hkeys | cbn; lia]].
          apply (removelast_keep ((hash_ n, fn tt) :: pre) (key, s) y post'). }
        { exists ((hash_ n, fn tt) :: pre), (y :: post').
          split; [reflexivity | split; [exact Hkeys | cbn; lia]]. }
Qed.

Lemma GetOpShape_seq_keeps key s requests :
  forall k c,
    cached_within key s k c ->
    (N.of_nat (k + length requests) < max_size_ c)%N ->
    cached_within key s (k + length requests) (GetOpShape_seq requests c).1.
Proof.
  induction requests as [|[n fn] requests IH]; intros k c Hin Hcap; cbn.
  - rewrite Nat.add_0_r. exact Hin.
  - cbn [length] in Hcap.
    destruct (GetOpShape_other key s k n fn c Hin) as (s' & c' & called & Hget & Hc');
      [lia|].
    pose proof (GetOpShape_max_size n fn c) as Hmax.
    rewrite Hget in Hmax |- *. cbn in Hmax.
    specialize (IH (S k) c' Hc').
    destruct (GetOpShape_seq requests c') as [c'' calls]. cbn in IH |- *.
    replace (k + S (length requests)) with (S k + length requests) by lia.
    apply IH. rewrite Hmax. lia.
Qed.

(** C5 (as amended): when fewer requests than the capacity of the cache
    come between two requests with the same full hash, the later request
    does not call its shape function and returns the shape that the
    earlier request returned. *)
Theorem C5_second_request_hits
    (n1 n2 : Node) (fn1 fn2 : unit -> Shape)
    (between : list (Node * (unit -> Shape))) (c : ShapeCache) :
  hash_ n1 = hash_ n2 ->
  (N.of_nat (length between) < max_size_ c)%N ->
  let '(s1, c1, called1) := GetOpShape n1 fn1 c in
  let '(c2, calls) := GetOpShape_seq between c1 in
  let '(s2, c3, called2) := GetOpShape n2 fn2 c2 in
  s2 = s1 /\ called2 = false.
Proof.
  intros Hhash Hcap.
  destruct (GetOpShape_first n1 fn1 c) as (s1 & c1 & called1 & Hget1 & Hc1);
    [lia|].
  pose proof (GetOpShape_max_size n1 fn1 c) as Hmax.
  rewrite Hget1 in Hmax |- *. cbn in Hmax.
  pose proof (GetOpShape_seq_keeps (hash_ n1) s1 between 0 c1 Hc1) as Hkeep.
  destruct (GetOpShape_seq between c1) as [c2 calls]. cbn in Hkeep.
  destruct (GetOpShape_hit (hash_ n1) s1 (length between) n2 fn2 c2)
    as (c3 & Hget2 & _); [congruence | apply Hkeep; rewrite Hmax; lia |].
  rewrite Hget2. auto.
Qed.

Lemma C5_witness :
  let '(s1, c1, called1) :=
    GetOpShape (sample_hashed 0) (fun _ => sample_scalar)
               (GetShapeCache sample_env) in
  let '(c2, calls) := GetOpShape_seq (sample_requests 3) c1 in
  let '(s2, c3, called2) :=
    GetOpShape (sample_hashed 0) (fun _ => sample_pair) c2 in
  s2 = s1 /\ called2 = false.
Proof.
  apply (C5_second_request_hits
           (sample_hashed 0) (sample_hashed 0)
           (fun _ => sample_scalar) (fun _ => sample_pair)
           (sample_requests 3) (GetShapeCache sample_env)).
  - reflexivity.
  - vm_compute. reflexivity.
Defined.

(** *** Eviction

    A fresh cache of capacity [cap] that serves hash 0 and then the hashes
    1 .. [cap] has dropped the entry of hash 0 by the end. *)

Lemma Cache_extract_absent key l :
  key ∉ Cache_keys l -> Cache_extract key l = None.
Proof.
  unfold Cache_keys. induction l as [|[k v] l IH]; cbn; intros Hnot;
    [reflexivity|].
  apply not_elem_of_cons in Hnot as [Hne Hnot].
  destruct (Z.eqb_spec k key) as [->|_]; [done|].
  rewrite IH by exact Hnot. reflexivity.
Qed.

Lemma GetOpShape_miss n fn c :
  hash_ n ∉ Cache_keys (element_list_ c) ->
  GetOpShape n fn c
  = (fn tt,
     mkShapeCache (max_size_ c)
       (if N.ltb (max_size_ c)
                 (N.of_nat (length ((hash_ n, fn tt) :: element_list_ c)))
        then removelast ((hash_ n, fn tt) :: element_list_ c)
        else (hash_ n, fn tt) :: element_list_ c),
     true).
Proof.
  intros Hnot. unfold GetOpShape, Cache_Get, Cache_Add.
  rewrite (Cache_extract_absent _ _ Hnot). cbn.
  rewrite (Cache_extract_absent _ _ Hnot). reflexivity.
Qed.

Lemma GetOpShape_seq_app l1 l2 c :
  GetOpShape_seq (l1 ++ l2) c
  = let '(c1, k1) := GetOpShape_seq l1 c in
    let '(c2, k2) := GetOpShape_seq l2 c1 in
    (c2, k1 + k2).
Proof.
  revert c. induction l1 as [|[n fn] l1 IH]; intros c; cbn.
  - destruct (GetOpShape_seq l2 c). reflexivity.
  - destruct (GetOpShape n fn c) as [[s c'] called]. rewrite IH.
    destruct (GetOpShape_seq l1 c') as [c1 k1].
    destruct (GetOpShape_seq l2 c1) as [c2 k2]. f_equal. lia.
Qed.

Lemma elem_of_rev_seq i j : i ∈ rev (seq 1 j) -> 1 <= i <= j.
Proof.
  rewrite list_elem_of_In, <- in_rev, in_seq. lia.
Qed.

Section Eviction.
#[local] Existing Instance sample_util.
Variable cap : nat.
Variable first : Shape.

(** The entries of the hashes [j], ..., 1, most recent first. *)
Let entries (j : nat) : list (hash_t * Shape) :=
  (fun i => (Z.of_nat i, sample_scalar)) <$> rev (seq 1 j).

Lemma sample_requests_S j :
  sample_requests (S j)
  = sample_requests j
    ++ [(sample_hashed (Z.of_nat (S j)), fun _ : unit => sample_scalar)].
Proof. unfold sample_requests. rewrite seq_S, map_app. reflexivity. Qed.

Lemma entries_keys j x :
  x ∈ Cache_keys (entries j ++ [(0%Z, first)]) ->
  (0 <= x <= Z.of_nat j)%Z.
Proof.
  unfold Cache_keys, entries. rewrite fmap_app, elem_of_app, <- list_fmap_compose.
  rewrite list_elem_of_fmap. cbn.
  intros [(i & -> & Hi)|Hx].
  - apply elem_of_rev_seq in Hi. lia.
  - apply list_elem_of_singleton in Hx. lia.
Qed.

Lemma fill_below_capacity j :
  j < cap ->
  GetOpShape_seq (sample_requests j)
                 (mkShapeCache (N.of_nat cap) [(0%Z, first)])
  = (mkShapeCache (N.of_nat cap) (entries j ++ [(0%Z, first)]), j).
Proof.
  induction j as [|j IH]; intros Hj; [reflexivity|].
  rewrite sample_requests_S, GetOpShape_seq_app, IH by lia.
  cbn [GetOpShape_seq]. rewrite GetOpShape_miss.
  - cbn [max_size_ element_list_ length].
    rewrite length_app. unfold entries at 1.
    rewrite length_fmap, length_rev, length_seq. cbn [length].
    replace (N.of_nat cap <? N.of_nat (S (j + 1)))%N with false
      by (symmetry; apply N.ltb_ge; lia).
    unfold entries. rewrite seq_S, rev_app_distr. cbn.
    f_equal. lia.
  - cbn [element_list_ hash_ sample_hashed set_hash]. intros Hin.
    apply entries_keys in Hin. lia.
Qed.

Lemma fill_to_capacity :
  1 <= cap ->
  GetOpShape_seq (sample_requests cap)
                 (mkShapeCache (N.of_nat cap) [(0%Z, first)])
  = (mkShapeCache (N.of_nat cap) (entries cap), cap).
Proof.
  intros Hcap. destruct cap as [|j] eqn:Ecap; [lia|].
  rewrite sample_requests_S, GetOpShape_seq_app.
  rewrite <- Ecap at 1. rewrite fill_below_capacity by lia.
  cbn [GetOpShape_seq]. rewrite GetOpShape_miss.
  - cbn [max_size_ element_list_ length].
    rewrite length_app. unfold entries at 1.
    rewrite length_fmap, length_rev, length_seq. cbn [length].
    replace (N.of_nat cap <? N.of_nat (S (j + 1)))%N with true
      by (symmetry; apply N.ltb_lt; lia).
    rewrite app_comm_cons, removelast_last.
    unfold entries. rewrite seq_S, rev_app_distr. cbn.
    rewrite Ecap. f_equal. lia.
  - cbn [element_list_ hash_ sample_hashed set_hash]. intros Hin.
    apply entries_keys in Hin. lia.
Qed.

Lemma evicted_after_capacity (fn2 : unit -> Shape) :
  1 <= cap ->
  let '(s1, c1, called1) :=
    GetOpShape (sample_hashed 0) (fun _ => first)
               (mkShapeCache (N.of_nat cap) []) in
  let '(c2, calls) := GetOpShape_seq (sample_requests cap) c1 in
  let '(s2, c3, called2) := GetOpShape (sample_hashed 0) fn2 c2 in
  called1 = true /\ called2 = true /\ s1 = first /\ s2 = fn2 tt
  /\ max_size_ c2 = N.of_nat cap.
Proof.
  intros Hcap. rewrite GetOpShape_miss by apply not_elem_of_nil.
  cbn [max_size_ element_list_ length hash_ sample_hashed set_hash].
  replace (N.of_nat cap <? N.of_nat 1)%N with false
    by (symmetry; apply N.ltb_ge; lia).
  rewrite fill_to_capacity by exact Hcap.
  rewrite GetOpShape_miss; [auto|].
  cbn [element_list_ hash_ sample_hashed set_hash].
  unfold Cache_keys, entries. rewrite <- list_fmap_compose, list_elem_of_fmap.
  cbn. intros (i & Hi0 & Hi). apply elem_of_rev_seq in Hi. lia.
Qed.

End Eviction.

(** C5 (the claim as stated fails): with the cache at its default
    capacity of 4096, a request for hash 0, then requests for the hashes
    1 .. 4096, then a second request for hash 0: the entry was evicted in
    between, and the second request calls its shape function again and
    returns what that call computes. *)
Lemma C5_evicted_entry_is_recomputed :
  let '(s1, c1, called1) :=
    GetOpShape (sample_hashed 0) (fun _ => sample_scalar)
               (GetShapeCache sample_env) in
  let '(c2, calls) := GetOpShape_seq (sample_requests 4096) c1 in
  let '(s2, c3, called2) :=
    GetOpShape (sample_hashed 0) (fun _ => sample_pair) c2 in
  called1 = true /\ called2 = true /\ s1 = sample_scalar /\ s2 = sample_pair
  /\ max_size_ c2 = 4096%N.
Proof.
  change (GetShapeCache sample_env) with (mkShapeCache (N.of_nat 4096) []).
  change 4096%N with (N.of_nat 4096).
  apply (evicted_after_capacity 4096 sample_scalar (fun _ => sample_pair)).
  lia.
Qed.

(** ** The order of keys *)

Ltac key_cases :=
  unfold key_lt in *;
  repeat match goal with
    | |- context [N.eqb ?a ?b] => destruct (N.eqb_spec a b)
    | |- context [Nat.eqb ?a ?b] => destruct (Nat.eqb_spec a b)
    | H : context [N.eqb ?a ?b] |- _ => destruct (N.eqb_spec a b)
    | H : context [Nat.eqb ?a ?b] |- _ => destruct (Nat.eqb_spec a b)
    end;
  cbn [negb] in *;
  rewrite ?N.ltb_lt, ?Nat.ltb_lt, ?N.ltb_ge, ?Nat.ltb_ge in *.

Lemma key_lt_irrefl (a : UseKey) : key_lt a a = false.
Proof. destruct a as [[o i] x]. key_cases; try congruence. lia. Qed.

Lemma key_lt_trans (a b c : UseKey) :
  key_lt a b = true -> key_lt b c = true -> key_lt a c = true.
Proof.
  destruct a as [[oa ia] xa], b as [[ob ib] xb], c as [[oc ic] xc].
  intros Hab Hbc. key_cases; subst; try congruence; lia.
Qed.

Lemma key_lt_asym (a b : UseKey) : key_lt a b = true -> key_lt b a = false.
Proof.
  intros Hab. destruct (key_lt b a) eqn:Hba; [|reflexivity].
  pose proof (key_lt_trans _ _ _ Hab Hba) as Haa.
  rewrite key_lt_irrefl in Haa. discriminate.
Qed.

Lemma key_lt_total (a b : UseKey) :
  key_lt a b = false -> key_lt b a = false -> a = b.
Proof.
  destruct a as [[oa ia] xa], b as [[ob ib] xb].
  intros Hab Hba. key_cases; subst; try congruence; try lia.
  f_equal; lia.
Qed.

Section KeyedLists.
Variable k : Use -> UseKey.

Lemma key_insert_elem u l x :
  x ∈ key_insert k u l -> x = u \/ x ∈ l.
Proof.
  induction l as [|y l IH]; cbn.
  - rewrite list_elem_of_singleton. auto.
  - destruct (key_lt (k u) (k y)); [|destruct (key_lt (k y) (k u))];
      rewrite !elem_of_cons; tauto.
Qed.

Lemma key_insert_keeps u l x : x ∈ l -> x ∈ key_insert k u l.
Proof.
  induction l as [|y l IH]; cbn; [rewrite elem_of_nil; tauto|].
  destruct (key_lt (k u) (k y)); [|destruct (key_lt (k y) (k u))];
    rewrite !elem_of_cons; tauto.
Qed.

Lemma key_insert_sorted u l :
  key_sorted k l -> key_sorted k (key_insert k u l).
Proof.
  unfold key_sorted. induction l as [|y l IH]; cbn; intros Hs.
  - repeat constructor.
  - apply StronglySorted_cons in Hs as [Hall Hs].
    destruct (key_lt (k u) (k y)) eqn:Huy.
    + apply StronglySorted_cons. split.
      * constructor; [exact Huy|].
        eapply Forall_impl; [exact Hall|]. cbn. intros z Hz.
        eapply key_lt_trans; eassumption.
      * apply StronglySorted_cons. auto.
    + destruct (key_lt (k y) (k u)) eqn:Hyu.
      * apply StronglySorted_cons. split; [|auto].
        apply Forall_forall. intros z Hz.
        apply key_insert_elem in Hz as [->|Hz]; [exact Hyu|].
        rewrite Forall_forall in Hall. auto.
      * apply StronglySorted_cons. auto.
Qed.

Lemma key_erase_elem u l x : x ∈ key_erase k u l -> x ∈ l.
Proof.
  induction l as [|y l IH]; cbn; [intros Hx; exact Hx|].
  destruct (key_lt (k u) (k y)); [|destruct (key_lt (k y) (k u))];
    rewrite !elem_of_cons; tauto.
Qed.

Lemma key_erase_sorted u l :
  key_sorted k l -> key_sorted k (key_erase k u l).
Proof.
  unfold key_sorted. induction l as [|y l IH]; cbn; intros Hs; [exact Hs|].
  pose proof Hs as Hs0.
  apply StronglySorted_cons in Hs as [Hall Hs].
  destruct (key_lt (k u) (k y)); [exact Hs0|].
  destruct (key_lt (k y) (k u)); [|exact Hs].
  apply StronglySorted_cons. split; [|auto].
  apply Forall_forall. intros z Hz. apply key_erase_elem in Hz.
  rewrite Forall_forall in Hall. auto.
Qed.

(** After the erasure no element with the key of [u] is left. *)
Lemma key_erase_gone u l x :
  key_sorted k l -> x ∈ key_erase k u l -> k x <> k u.
Proof.
  unfold key_sorted. induction l as [|y l IH]; cbn; intros Hs Hx.
  - apply elem_of_nil in Hx. contradiction.
  - apply StronglySorted_cons in Hs as [Hall Hs].
    rewrite Forall_forall in Hall.
    destruct (key_lt (k u) (k y)) eqn:Huy.
    + apply elem_of_cons in Hx as [->|Hx].
      * intros Heq. rewrite Heq, key_lt_irrefl in Huy. discriminate.
      * intros Heq. specialize (Hall x Hx).
        pose proof (key_lt_trans _ _ _ Huy Hall) as Hux.
        rewrite Heq, key_lt_irrefl in Hux. discriminate.
    + destruct (key_lt (k y) (k u)) eqn:Hyu.
      * apply elem_of_cons in Hx as [->|Hx]; [|auto].
        intros Heq. rewrite Heq, key_lt_irrefl in Hyu. discriminate.
      * pose proof (key_lt_total _ _ Huy Hyu) as Heq.
        specialize (Hall x Hx). intros Hxu.
        rewrite Hxu, Heq, key_lt_irrefl in Hall. discriminate.
Qed.

(** Elements with another key stay. *)
Lemma key_erase_keeps u l x :
  x ∈ l -> k x <> k u -> x ∈ key_erase k u l.
Proof.
  induction l as [|y l IH]; cbn; intros Hx Hne; [exact Hx|].
  destruct (key_lt (k u) (k y)) eqn:Huy; [exact Hx|].
  destruct (key_lt (k y) (k u)) eqn:Hyu.
  - apply elem_of_cons in Hx as [->|Hx]; [left | right; auto].
  - apply elem_of_cons in Hx as [->|Hx]; [|exact Hx].
    exfalso. apply Hne. symmetry. apply key_lt_total; assumption.
Qed.

(** An insertion files the element unless one with its key is there. *)
Lemma key_insert_new u l :
  (forall y, y ∈ l -> k y <> k u) -> u ∈ key_insert k u l.
Proof.
  induction l as [|y l IH]; cbn; intros Hfree; [left|].
  destruct (key_lt (k u) (k y)) eqn:Huy; [left|].
  destruct (key_lt (k y) (k u)) eqn:Hyu.
  - right. apply IH. intros z Hz. apply Hfree. right; exact Hz.
  - exfalso. apply (Hfree y); [left|]. symmetry.
    apply key_lt_total; assumption.
Qed.

Lemma key_insert_present u l y :
  key_sorted k l -> y ∈ l -> k y = k u -> key_insert k u l = l.
Proof.
  unfold key_sorted. induction l as [|z l IH]; cbn; intros Hs Hy Hk.
  - apply elem_of_nil in Hy. contradiction.
  - apply StronglySorted_cons in Hs as [Hall Hs].
    rewrite Forall_forall in Hall.
    apply elem_of_cons in Hy as [<-|Hy].
    + rewrite Hk, key_lt_irrefl. reflexivity.
    + pose proof (Hall y Hy) as Hzy. rewrite Hk in Hzy.
      rewrite (key_lt_asym _ _ Hzy), Hzy. f_equal. auto.
Qed.

End KeyedLists.

(** ** The use set on live pointers *)

Lemma Use_lt_live (h : Heap) a b :
  use_live h a -> use_live h b ->
  Use_lt h a b = Done (key_lt (use_key h a) (use_key h b)).
Proof.
  intros [na Ha] [nb Hb]. unfold Use_lt, use_key, deref.
  rewrite Ha, Hb. cbn. unfold key_lt, OpKind_ne, OpKind_lt. reflexivity.
Qed.

Lemma set_insert_live (h : Heap) u l :
  use_live h u -> Forall (use_live h) l ->
  set_insert h u l = Done (key_insert (use_key h) u l).
Proof.
  intros Hu. induction l as [|x l IH]; intros Hl; cbn; [reflexivity|].
  apply Forall_cons in Hl as [Hx Hl].
  rewrite (Use_lt_live h u x Hu Hx). cbn.
  destruct (key_lt (use_key h u) (use_key h x)); [reflexivity|].
  rewrite (Use_lt_live h x u Hx Hu). cbn.
  destruct (key_lt (use_key h x) (use_key h u)); [|reflexivity].
  rewrite (IH Hl). reflexivity.
Qed.

Lemma set_erase_live (h : Heap) u l :
  use_live h u -> Forall (use_live h) l ->
  set_erase h u l = Done (key_erase (use_key h) u l).
Proof.
  intros Hu. induction l as [|x l IH]; intros Hl; cbn; [reflexivity|].
  apply Forall_cons in Hl as [Hx Hl].
  rewrite (Use_lt_live h u x Hu Hx). cbn.
  destruct (key_lt (use_key h u) (use_key h x)); [reflexivity|].
  rewrite (Use_lt_live h x u Hx Hu). cbn.
  destruct (key_lt (use_key h x) (use_key h u)); [|reflexivity].
  rewrite (IH Hl). reflexivity.
Qed.

Lemma use_sound_live h p u : use_sound h p u -> use_live h u.
Proof. intros (c & Hc & _). exists c. exact Hc. Qed.

Lemma node_wf_uses_live h p n : node_wf h p n -> Forall (use_live h) (uses_ n).
Proof.
  intros Hwf. eapply Forall_impl; [apply (wf_sound _ _ _ Hwf)|].
  intros u. apply use_sound_live.
Qed.

Lemma AddUse_live (h : Heap) self n u :
  h !! self = Some n -> use_live h u -> Forall (use_live h) (uses_ n) ->
  AddUse self u h
  = Done (<[self := set_uses (key_insert (use_key h) u (uses_ n)) n]> h).
Proof.
  intros Hn Hu Hl. unfold AddUse.
  rewrite (deref_Some _ _ _ Hn). cbn.
  rewrite (set_insert_live h u _ Hu Hl). reflexivity.
Qed.

Lemma RemoveUse_live (h : Heap) self n u :
  h !! self = Some n -> use_live h u -> Forall (use_live h) (uses_ n) ->
  RemoveUse self u h
  = Done (<[self := set_uses (key_erase (use_key h) u (uses_ n)) n]> h).
Proof.
  intros Hn Hu Hl. unfold RemoveUse.
  rewrite (deref_Some _ _ _ Hn). cbn.
  rewrite (set_erase_live h u _ Hu Hl). reflexivity.
Qed.

(** ** Carrying the invariant from one heap to the next *)

Lemma heap_step_refl changed h : heap_step changed h h.
Proof. intros q m Hq. exists m. auto. Qed.

Lemma heap_step_trans changed h1 h2 h3 :
  heap_step changed h1 h2 -> heap_step changed h2 h3 ->
  heap_step changed h1 h3.
Proof.
  intros H12 H23 q m Hq.
  destruct (H12 q m Hq) as (m2 & Hq2 & Ho2 & Hn2 & Hl2 & Hs2).
  destruct (H23 q m2 Hq2) as (m3 & Hq3 & Ho3 & Hn3 & Hl3 & Hs3).
  exists m3. repeat split; [exact Hq3 | congruence | congruence | lia |].
  intros i o Hc Hi. auto.
Qed.

Lemma heap_step_weaken (c1 c2 : NodePtr -> nat -> Prop) h h' :
  (forall q i, c1 q i -> c2 q i) -> heap_step c1 h h' -> heap_step c2 h h'.
Proof.
  intros Hc Hs q m Hq. destruct (Hs q m Hq) as (m' & ? & ? & ? & ? & Hk).
  exists m'. repeat split; try assumption.
  intros i o Hn. apply Hk. intros Hc1. apply Hn, Hc, Hc1.
Qed.

Lemma heap_step_insert changed (h : Heap) p n n' :
  h !! p = Some n ->
  op_ n' = op_ n -> num_outputs_ n' = num_outputs_ n ->
  length (operands_as_outputs_ n) <= length (operands_as_outputs_ n') ->
  (forall i o, ~ changed p i ->
               operands_as_outputs_ n !! i = Some o ->
               operands_as_outputs_ n' !! i = Some o) ->
  heap_step changed h (<[p := n']> h).
Proof.
  intros Hp Ho Hn Hl Hs q m Hq. destruct (decide (p = q)) as [<-|Hne].
  - exists n'. rewrite lookup_insert_eq.
    assert (m = n) by congruence. subst m. auto.
  - exists m. rewrite lookup_insert_ne by done. auto.
Qed.

Lemma heap_step_fresh changed (h : Heap) p n :
  h !! p = None -> heap_step changed h (<[p := n]> h).
Proof.
  intros Hp q m Hq. exists m.
  rewrite lookup_insert_ne by congruence. auto.
Qed.

Lemma use_key_step changed h h' u :
  heap_step changed h h' -> use_live h u -> use_key h' u = use_key h u.
Proof.
  intros Hs [m Hm]. destruct (Hs _ _ Hm) as (m' & Hm' & Ho & _).
  unfold use_key. rewrite Hm, Hm', Ho. reflexivity.
Qed.

Lemma key_sorted_ext (k k' : Use -> UseKey) l :
  (forall u, u ∈ l -> k' u = k u) -> key_sorted k l -> key_sorted k' l.
Proof.
  unfold key_sorted. induction l as [|x l IH]; intros Hk Hs; [constructor|].
  apply StronglySorted_cons in Hs as [Hall Hs].
  apply StronglySorted_cons. split.
  - rewrite Forall_forall in *. intros y Hy.
    rewrite (Hk x), (Hk y); [auto | right; exact Hy | left].
  - apply IH; [|exact Hs]. intros u Hu. apply Hk. right; exact Hu.
Qed.

Lemma use_sound_step changed h h' p u :
  heap_step changed h h' ->
  ~ changed (use_node u) (use_operand_index u) ->
  use_sound h p u -> use_sound h' p u.
Proof.
  intros Hs Hn (c & Hc & Hout).
  destruct (Hs _ _ Hc) as (c' & Hc' & _ & _ & _ & Hk).
  exists c'. split; [exact Hc' | apply Hk; assumption].
Qed.

Lemma operand_ok_step changed h h' o :
  heap_step changed h h' -> operand_ok h o -> operand_ok h' o.
Proof.
  intros Hs (n & Hn & Hlt).
  destruct (Hs _ _ Hn) as (n' & Hn' & _ & Hnum & _).
  exists n'. split; [exact Hn' | lia].
Qed.

Lemma node_wf_step changed h h' p n :
  heap_step changed h h' ->
  (forall u, u ∈ uses_ n -> ~ changed (use_node u) (use_operand_index u)) ->
  node_wf h p n -> node_wf h' p n.
Proof.
  intros Hs Hfree [Hsorted Hsound Hagree Hops]. split.
  - eapply key_sorted_ext; [|exact Hsorted].
    intros u Hu. eapply use_key_step; [exact Hs|].
    rewrite Forall_forall in Hsound. eapply use_sound_live, Hsound, Hu.
  - rewrite Forall_forall in *. intros u Hu.
    eapply use_sound_step; [exact Hs | apply Hfree, Hu | apply Hsound, Hu].
  - exact Hagree.
  - eapply Forall_impl; [exact Hops|]. intros o.
    eapply operand_ok_step; exact Hs.
Qed.

(** Rewriting one node keeps the invariant when the node itself is in
    order afterwards and no operand slot changed. *)
Lemma heap_wf_update (h : Heap) p n n' :
  heap_wf h -> h !! p = Some n ->
  heap_step no_slot h (<[p := n']> h) ->
  node_wf (<[p := n']> h) p n' ->
  heap_wf (<[p := n']> h).
Proof.
  intros Hwf Hp Hs Hn' q m Hq. destruct (decide (p = q)) as [<-|Hne].
  - rewrite lookup_insert_eq in Hq. injection Hq as <-. exact Hn'.
  - rewrite lookup_insert_ne in Hq by done.
    eapply node_wf_step; [exact Hs | | apply Hwf, Hq].
    intros u _ Hc. exact Hc.
Qed.

Lemma heap_wf_empty : heap_wf ∅.
Proof. intros p n Hp. rewrite lookup_empty in Hp. discriminate. Qed.

(** ** The destructor *)

Lemma key_erase_ext (k k' : Use -> UseKey) u l :
  (forall x, k' x = k x) -> key_erase k' u l = key_erase k u l.
Proof.
  intros Hk. induction l as [|x l IH]; cbn; [reflexivity|].
  rewrite !Hk, IH. reflexivity.
Qed.

Lemma dtor_inv_use_key h this i hk u :
  dtor_inv h this i hk -> use_key hk u = use_key h u.
Proof.
  intros [Hsome Hnone]. unfold use_key.
  destruct (h !! use_node u) as [m|] eqn:Hm.
  - destruct (Hsome _ _ Hm) as (m' & -> & -> & _). reflexivity.
  - rewrite (Hnone _ Hm). reflexivity.
Qed.

Lemma dtor_inv_start h this :
  heap_wf h -> dtor_inv h this 0 h.
Proof.
  intros Hwf. split; [|auto].
  intros p m Hp. exists m. repeat split; try done.
  - apply (wf_sorted _ _ _ (Hwf _ _ Hp)).
  - intros; lia.
Qed.

Lemma use_eta u : mkUse (use_node u) (use_operand_index u) (use_index u) = u.
Proof. destruct u; reflexivity. Qed.

(** One turn of the destructor loop succeeds and erases the use that the
    node holds on the operand of slot [i]. *)
Lemma Node_dtor_step_inv h this t i hk :
  heap_wf h -> h !! this = Some t ->
  i < length (operands_as_outputs_ t) ->
  dtor_inv h this i hk ->
  exists hk', Node_dtor_step this hk i = Done hk'
              /\ dtor_inv h this (S i) hk'.
Proof.
  intros Hwf Ht Hi Hinv.
  pose proof Hinv as [Hsome Hnone].
  destruct (Hsome _ _ Ht) as (t' & Ht' & _ & _ & Hops' & Houts' & _).
  pose proof (Hwf _ _ Ht) as [_ _ Hagree Hoperands].
  destruct (lookup_lt_is_Some_2 _ _ Hi) as [o Ho].
  assert (Hp : operands_ t !! i = Some (out_node o)).
  { rewrite Hagree, list_lookup_fmap, Ho. reflexivity. }
  rewrite Forall_lookup in Hoperands.
  destruct (Hoperands _ _ Ho) as (pn & Hpn & _).
  destruct (Hsome _ _ Hpn)
    as (pn' & Hpn' & Hop & Hnum & Hpo & Hpa & Hsub & Hsort & Hlow).
  pose proof (wf_sound _ _ _ (Hwf _ _ Hpn)) as Hsound.
  rewrite Forall_forall in Hsound.
  set (use := mkUse this i (out_index o)).
  assert (Hlive : Forall (use_live hk) (uses_ pn')).
  { apply Forall_forall. intros u Hu.
    destruct (Hsound u (Hsub u Hu)) as (c & Hc & _).
    destruct (Hsome _ _ Hc) as (c' & Hc' & _). exists c'. exact Hc'. }
  assert (Hrun : Node_dtor_step this hk i
                 = Done (<[out_node o :=
                             set_uses (key_erase (use_key h) use (uses_ pn'))
                                      pn']> hk)).
  { unfold Node_dtor_step. rewrite (deref_Some _ _ _ Ht'). cbn.
    rewrite Houts', Ho, Hops', Hp. cbn. fold use.
    rewrite (RemoveUse_live hk (out_node o) pn' use Hpn');
      [| exists t'; exact Ht' | exact Hlive].
    rewrite (key_erase_ext (use_key h) (use_key hk));
      [reflexivity | intros x; eapply dtor_inv_use_key; exact Hinv]. }
  eexists. split; [exact Hrun|]. split.
  - intros q m Hq. destruct (decide (out_node o = q)) as [<-|Hne].
    + rewrite lookup_insert_eq. eexists. split; [reflexivity|].
      assert (m = pn) by congruence. subst m. cbn.
      repeat split; try assumption.
      * intros u Hu. apply Hsub. eapply key_erase_elem, Hu.
      * apply key_erase_sorted, Hsort.
      * intros u Hu Hn.
        pose proof (Hlow u (key_erase_elem _ _ _ _ Hu) Hn) as Hle.
        destruct (decide (use_operand_index u = i)) as [Heq|]; [|lia].
        exfalso.
        destruct (Hsound u (Hsub u (key_erase_elem _ _ _ _ Hu)))
          as (c & Hc & Hout).
        rewrite Hn in Hc. assert (c = t) by congruence. subst c.
        rewrite Heq, Ho in Hout.
        assert (Hidx : out_index o = use_index u)
          by (injection Hout as Hout; rewrite Hout; reflexivity).
        apply (key_erase_gone _ _ _ _ Hsort Hu).
        f_equal. rewrite <- (use_eta u). unfold use.
        rewrite Hn, Heq, Hidx. reflexivity.
    + rewrite lookup_insert_ne by done.
      destruct (Hsome _ _ Hq)
        as (m' & Hm' & ? & ? & ? & ? & Hsubq & ? & Hlowq).
      exists m'. repeat split; try assumption.
      intros u Hu Hn. pose proof (Hlowq u Hu Hn) as Hle.
      destruct (decide (use_operand_index u = i)) as [Heq|]; [|lia].
      exfalso.
      pose proof (wf_sound _ _ _ (Hwf _ _ Hq)) as Hsq.
      rewrite Forall_forall in Hsq.
      destruct (Hsq u (Hsubq u Hu)) as (c & Hc & Hout).
      rewrite Hn in Hc. assert (c = t) by congruence. subst c.
      rewrite Heq, Ho in Hout. injection Hout as ->. cbn in Hne. congruence.
  - intros q Hq. rewrite lookup_insert_ne; [auto|]. congruence.
Qed.

Lemma Node_dtor_loop h this t :
  heap_wf h -> h !! this = Some t ->
  forall n, n <= length (operands_as_outputs_ t) ->
    exists hk, foldM (Node_dtor_step this) (seq 0 n) h = Done hk
               /\ dtor_inv h this n hk.
Proof.
  intros Hwf Ht. induction n as [|n IH]; intros Hn.
  - exists h. split; [reflexivity | apply dtor_inv_start, Hwf].
  - destruct IH as (hk & Hrun & Hinv); [lia|].
    destruct (Node_dtor_step_inv h this t n hk Hwf Ht) as (hk' & Hstep & Hinv');
      [lia | exact Hinv |].
    exists hk'. split; [|exact Hinv'].
    rewrite seq_S, foldM_app, Hrun. cbn. rewrite Hstep. reflexivity.
Qed.

(** When the loop has run over every slot, no use by the node is left. *)
Lemma dtor_inv_no_use (h : Heap) this t hk :
  heap_wf h -> h !! this = Some t ->
  dtor_inv h this (length (operands_as_outputs_ t)) hk ->
  forall p n u, hk !! p = Some n -> u ∈ uses_ n -> use_node u <> this.
Proof.
  intros Hwf Ht [Hsome Hnone] p n u Hp Hu Hn.
  destruct (h !! p) as [m|] eqn:Hm;
    [|rewrite (Hnone _ Hm) in Hp; discriminate].
  destruct (Hsome _ _ Hm) as (m' & Hm' & _ & _ & _ & _ & Hsub & _ & Hlow).
  assert (m' = n) by congruence. subst m'.
  pose proof (Hlow u Hu Hn) as Hle.
  pose proof (wf_sound _ _ _ (Hwf _ _ Hm)) as Hsound.
  rewrite Forall_forall in Hsound.
  destruct (Hsound u (Hsub u Hu)) as (c & Hc & Hout).
  rewrite Hn in Hc. assert (c = t) by congruence. subst c.
  apply lookup_lt_Some in Hout. lia.
Qed.

(** The destructor keeps the invariant when no other node still has the
    destroyed node as an operand, which is when the last owning handle
    goes. *)
Lemma Node_dtor_wf (h : Heap) this t :
  heap_wf h -> h !! this = Some t ->
  (forall q m, h !! q = Some m -> q <> this -> this ∉ operands_ m) ->
  exists h', Node_dtor this h = Done h' /\ heap_wf h'.
Proof.
  intros Hwf Ht Hunowned.
  destruct (Node_dtor_loop h this t Hwf Ht (length (operands_as_outputs_ t)))
    as (hk & Hrun & Hinv); [lia|].
  exists (delete this hk). split.
  { unfold Node_dtor. rewrite (deref_Some _ _ _ Ht). cbn.
    rewrite Hrun. reflexivity. }
  pose proof (dtor_inv_no_use h this t hk Hwf Ht Hinv) as Hnouse.
  destruct Hinv as [Hsome Hnone].
  intros q m' Hq.
  destruct (decide (this = q)) as [<-|Hne];
    [rewrite lookup_delete_eq in Hq; discriminate|].
  rewrite lookup_delete_ne in Hq by done.
  destruct (h !! q) as [m|] eqn:Hm;
    [|rewrite (Hnone _ Hm) in Hq; discriminate].
  destruct (Hsome _ _ Hm)
    as (m0 & Hm0 & _ & _ & Hops & Houts & Hsub & Hsort & _).
  assert (m0 = m') by congruence. subst m0.
  pose proof (Hwf _ _ Hm) as [_ Hsound Hagree Hoperands].
  rewrite Forall_forall in Hsound.
  assert (Hkeep : forall p c, p <> this -> h !! p = Some c ->
            exists c', delete this hk !! p = Some c'
                       /\ op_ c' = op_ c
                       /\ num_outputs_ c' = num_outputs_ c
                       /\ operands_as_outputs_ c' = operands_as_outputs_ c).
  { intros p c Hp Hc.
    destruct (Hsome _ _ Hc) as (c' & Hc' & ? & ? & ? & ? & _).
    exists c'. rewrite lookup_delete_ne by done. auto. }
  split.
  - eapply key_sorted_ext; [|exact Hsort].
    intros u Hu. pose proof (Hnouse q m' u Hq Hu) as Hnu.
    destruct (Hsound u (Hsub u Hu)) as (c & Hc & _).
    destruct (Hkeep _ _ Hnu Hc) as (c' & Hc' & Hop & _).
    unfold use_key. rewrite Hc, Hc', Hop. reflexivity.
  - apply Forall_forall. intros u Hu.
    pose proof (Hnouse q m' u Hq Hu) as Hnu.
    destruct (Hsound u (Hsub u Hu)) as (c & Hc & Hout).
    destruct (Hkeep _ _ Hnu Hc) as (c' & Hc' & _ & _ & Houts').
    exists c'. split; [exact Hc' | rewrite Houts'; exact Hout].
  - rewrite Hops, Houts. exact Hagree.
  - rewrite Houts. apply Forall_forall. intros o Ho.
    rewrite Forall_forall in Hoperands.
    destruct (Hoperands o Ho) as (pn & Hpn & Hlt).
    assert (Hno : out_node o <> this).
    { intros E. apply (Hunowned q m Hm); [congruence|].
      rewrite Hagree, <- E. apply list_elem_of_fmap. eauto. }
    destruct (Hkeep _ _ Hno Hpn) as (pn' & Hpn' & _ & Hnum & _).
    exists pn'. split; [exact Hpn' | lia].
Qed.

(** ** The destruction of a node and of the operands it owned last *)

Lemma Node_dtor_step_static this (h h' : Heap) i :
  Node_dtor_step this h i = Done h' -> static_eq h h'.
Proof.
  unfold Node_dtor_step; intros Hrun.
  bind_inv Hrun t Ht. bind_inv Hrun o Ho. bind_inv Hrun p Hp.
  eapply RemoveUse_static; exact Hrun.
Qed.

Lemma RemoveUse_size self use (h h' : Heap) :
  RemoveUse self use h = Done h' -> size h' = size h.
Proof.
  unfold RemoveUse; intros Hrun.
  bind_inv Hrun n Hn. bind_inv Hrun us Hus. injection Hrun as <-.
  apply deref_Done in Hn. apply map_size_insert_Some. eauto.
Qed.

Lemma Node_dtor_body_eq this (h : Heap) :
  Node_dtor this h = (hb ← Node_dtor_body this h; Done (delete this hb)).
Proof.
  unfold Node_dtor, Node_dtor_body. destruct (deref h this); reflexivity.
Qed.

Lemma survives_refl h : survives h h.
Proof. intros q m Hq. exists m. auto. Qed.

Lemma survives_trans h1 h2 h3 :
  survives h1 h2 -> survives h2 h3 -> survives h1 h3.
Proof.
  intros H12 H23 q m3 Hq.
  destruct (H23 _ _ Hq) as (m2 & Hm2 & Hs2 & Ho2 & Hoo2 & Hu2).
  destruct (H12 _ _ Hm2) as (m1 & Hm1 & Hs1 & Ho1 & Hoo1 & Hu1).
  exists m1. split; [exact Hm1|]. repeat split; try congruence. auto.
Qed.

(** The body of the destructor and the release of the storage, on a node
    that no node holds: the invariant is kept, the node is gone, and the
    other nodes are still there with their static members and operands
    and with some of their uses. *)
Lemma Node_dtor_survives (h : Heap) this t :
  heap_wf h -> h !! this = Some t ->
  (forall q m, h !! q = Some m -> q <> this -> this ∉ operands_ m) ->
  exists h',
    Node_dtor this h = Done h'
    /\ heap_wf h'
    /\ h' !! this = None
    /\ survives h h'
    /\ (forall q, q <> this -> is_Some (h !! q) -> is_Some (h' !! q))
    /\ S (size h') = size h.
Proof.
  intros Hwf Ht Hunowned.
  destruct (Node_dtor_wf h this t Hwf Ht Hunowned) as (h' & Hrun & Hwf').
  destruct (Node_dtor_loop h this t Hwf Ht (length (operands_as_outputs_ t)))
    as (hk & Hloop & Hinv); [lia|].
  assert (Hh' : h' = delete this hk).
  { unfold Node_dtor in Hrun.
    rewrite (deref_Some _ _ _ Ht), Done_bind, Hloop, Done_bind in Hrun.
    congruence. }
  assert (Hst : static_eq h hk /\ size hk = size h).
  { refine (foldM_invariant
              (fun s : Heap => static_eq h s /\ size s = size h)
              _ _ _ h hk (conj (static_eq_refl h) eq_refl) Hloop).
    intros s i s' [Hs Hz] Hstep. split.
    - apply (static_eq_trans h s s' Hs).
      eapply Node_dtor_step_static; exact Hstep.
    - rewrite <- Hz. unfold Node_dtor_step in Hstep.
      bind_inv Hstep t0 Ht0. bind_inv Hstep o Ho. bind_inv Hstep p Hp.
      eapply RemoveUse_size; exact Hstep. }
  destruct Hst as [Hst Hsize].
  destruct Hinv as [Hsome Hnone].
  exists h'. split; [exact Hrun|]. split; [exact Hwf'|]. subst h'.
  split; [apply lookup_delete_eq|]. split; [|split].
  - intros q m' Hq.
    destruct (decide (this = q)) as [<-|Hne];
      [rewrite lookup_delete_eq in Hq; discriminate|].
    rewrite lookup_delete_ne in Hq by exact Hne.
    destruct (h !! q) as [m|] eqn:Hm;
      [|rewrite (Hnone _ Hm) in Hq; discriminate].
    destruct (Hsome _ _ Hm) as (m0 & Hm0 & _ & _ & Hops & Houts & Hsub & _).
    assert (m0 = m') by congruence. subst m0.
    destruct (static_eq_lookup _ _ _ _ Hst Hm) as (m0 & Hm0' & Hs).
    assert (m0 = m') by congruence. subst m0.
    exists m. auto 10.
  - intros q Hq [m Hm].
    destruct (Hsome _ _ Hm) as (m' & Hm' & _).
    exists m'. rewrite lookup_delete_ne by congruence. exact Hm'.
  - destruct (Hsome _ _ Ht) as (t' & Ht' & _).
    rewrite map_size_delete_Some by eauto. rewrite Hsize.
    pose proof (map_size_ne_0_lookup_2 h this (ex_intro _ t Ht)). lia.
Qed.

Lemma held_false handles (h : Heap) p :
  held handles h p = false -> (p ∉ handles) /\ unheld h p.
Proof.
  unfold held. intros Hh. apply orb_false_iff in Hh as [Hin Hex].
  apply bool_decide_eq_false in Hin, Hex. split; [exact Hin|].
  intros q m Hq Hp. apply Hex. exists q, m. auto.
Qed.



Lemma release_handles_ok
    (destroy : list NodePtr -> NodePtr -> Heap -> option (Outcome Heap))
    (bound : nat) :
  (forall roots this (h : Heap) t,
     size h <= bound -> heap_wf h -> h !! this = Some t -> unheld h this ->
     exists h',
       destroy roots this h = Some (Done h')
       /\ heap_wf h' /\ h' !! this = None /\ survives h h'
       /\ size h' < size h
       /\ forall q, q ∈ roots -> q <> this ->
                    is_Some (h !! q) -> is_Some (h' !! q)) ->
  forall handles roots (h : Heap),
    size h <= bound -> heap_wf h ->
    (forall p, p ∈ handles -> is_Some (h !! p)) ->
    exists h',
      release_handles destroy roots handles h = Some (Done h')
      /\ heap_wf h' /\ survives h h' /\ size h' <= size h
      /\ forall q, q ∈ roots -> is_Some (h !! q) -> is_Some (h' !! q).
Proof.
  intros Hdestroy.
  induction handles as [|p rest IH]; intros roots h Hsize Hwf Halive.
  - exists h. split; [reflexivity|]. split; [exact Hwf|].
    split; [apply survives_refl|]. split; [lia | auto].
  - cbn [release_handles].
    destruct (held (rest ++ roots) h p) eqn:Hheld.
    + apply IH; [exact Hsize | exact Hwf |].
      intros q Hq. apply Halive. right. exact Hq.
    + apply held_false in Hheld as [Hnotin Hunheld].
      destruct (Halive p (list_elem_of_here _ _)) as [tp Htp].
      destruct (Hdestroy (rest ++ roots) p h tp Hsize Hwf Htp Hunheld)
        as (h1 & Hrun & Hwf1 & Hgone & Hsurv & Hless & Hkeep).
      rewrite Hrun.
      destruct (IH roots h1) as (h' & Hrun' & Hwf' & Hsurv' & Hle & Hkeep');
        [lia | exact Hwf1 | |].
      * intros q Hq. apply Hkeep.
        -- apply elem_of_app. left. exact Hq.
        -- intros ->. apply Hnotin. apply elem_of_app. left. exact Hq.
        -- apply Halive. right. exact Hq.
      * exists h'. split; [exact Hrun'|]. split; [exact Hwf'|].
        split; [eapply survives_trans; eassumption|]. split; [lia|].
        intros q Hq Hq'. apply Hkeep'; [exact Hq|]. apply Hkeep.
        -- apply elem_of_app. right. exact Hq.
        -- intros ->. apply Hnotin. apply elem_of_app. right. exact Hq.
        -- exact Hq'.
Qed.

(** The destruction of a node that no node holds succeeds with as much
    fuel as the heap has nodes and keeps the invariant; the nodes that
    remain were there before, and those held from outside remain. *)
Lemma Node_destroy_ok (fuel : nat) :
  forall roots this (h : Heap) t,
    size h <= fuel -> heap_wf h -> h !! this = Some t -> unheld h this ->
    exists h',
      Node_destroy fuel roots this h = Some (Done h')
      /\ heap_wf h' /\ h' !! this = None /\ survives h h'
      /\ size h' < size h
      /\ forall q, q ∈ roots -> q <> this ->
                   is_Some (h !! q) -> is_Some (h' !! q).
Proof.
  induction fuel as [|fuel IH]; intros roots this h t Hsize Hwf Ht Hunheld.
  - pose proof (map_size_ne_0_lookup_2 h this (ex_intro _ t Ht)). lia.
  - cbn [Node_destroy]. rewrite (deref_Some _ _ _ Ht).
    destruct (Node_dtor_survives h this t Hwf Ht)
      as (h1 & Hrun & Hwf1 & Hgone & Hsurv & Hkeep & Hless).
    { intros q m Hq _. exact (Hunheld q m Hq). }
    rewrite Hrun.
    destruct (release_handles_ok (Node_destroy fuel) fuel IH
                (operands_ t) roots h1)
      as (h' & Hrun' & Hwf' & Hsurv' & Hle & Hkeep'); [lia | exact Hwf1 | |].
    + intros p Hp. apply Hkeep.
      * intros ->. exact (Hunheld this t Ht Hp).
      * pose proof (Hwf _ _ Ht) as [_ _ Hagree Hoperands].
        rewrite Hagree in Hp. apply list_elem_of_fmap in Hp as (o & -> & Ho).
        rewrite Forall_forall in Hoperands.
        destruct (Hoperands o Ho) as (pn & Hpn & _). eauto.
    + exists h'. split; [exact Hrun'|]. split; [exact Hwf'|].
      split; [|split; [eapply survives_trans; eassumption|split; [lia|]]].
      * destruct (h' !! this) as [m'|] eqn:Hm'; [|reflexivity].
        destruct (Hsurv' _ _ Hm') as (m & Hm & _). congruence.
      * intros q Hq Hne Hq'. apply Hkeep'; [exact Hq|].
        apply Hkeep; assumption.
Qed.

(** After the body of the destructor every operand is still there and
    none of them, and no other node, has a use by the destroyed node. *)
Lemma Node_dtor_body_no_use (h : Heap) this t :
  heap_wf h -> h !! this = Some t ->
  exists hb,
    Node_dtor_body this h = Done hb
    /\ (forall p, p ∈ operands_ t -> is_Some (hb !! p))
    /\ (forall p n u,
          hb !! p = Some n -> u ∈ uses_ n -> use_node u <> this).
Proof.
  intros Hwf Ht.
  destruct (Node_dtor_loop h this t Hwf Ht (length (operands_as_outputs_ t)))
    as (hk & Hrun & Hinv); [lia|].
  exists hk. split; [|split].
  - unfold Node_dtor_body. rewrite (deref_Some _ _ _ Ht), Done_bind.
    exact Hrun.
  - intros p Hp.
    pose proof (Hwf _ _ Ht) as [_ _ Hagree Hoperands].
    rewrite Hagree in Hp. apply list_elem_of_fmap in Hp as (o & -> & Ho).
    rewrite Forall_forall in Hoperands.
    destruct (Hoperands o Ho) as (pn & Hpn & _).
    destruct Hinv as [Hsome _].
    destruct (Hsome _ _ Hpn) as (pn' & Hpn' & _). eauto.
  - exact (dtor_inv_no_use h this t hk Hwf Ht Hinv).
Qed.

(** C3: on a graph that satisfies the invariant the operand bookkeeping
    maintains, the body of the destructor of a node succeeds, and after
    it every operand of the node is still there and no operand, nor any
    other node, holds a use whose consumer is the node.  When the node is
    destroyed because no node holds it any more, the whole destruction,
    with the release of its operand handles and the destruction of the
    operands that this leaves without a handle, succeeds as well; the
    node is gone, and no node that remains holds a use whose consumer is
    the node. *)
Theorem C3_dtor_leaves_no_back_reference (h : Heap) this t roots :
  heap_wf h ->
  h !! this = Some t ->
  (exists hb,
     Node_dtor_body this h = Done hb
     /\ (forall p, p ∈ operands_ t -> is_Some (hb !! p))
     /\ (forall p n u,
           hb !! p = Some n -> u ∈ uses_ n -> use_node u <> this))
  /\ (unheld h this ->
      exists h',
        Node_destroy (size h) roots this h = Some (Done h')
        /\ h' !! this = None
        /\ (forall p n u,
              h' !! p = Some n -> u ∈ uses_ n -> use_node u <> this)).
Proof.
  intros Hwf Ht. split; [apply Node_dtor_body_no_use; assumption|].
  intros Hunheld.
  destruct (Node_destroy_ok (size h) roots this h t (le_n _) Hwf Ht Hunheld)
    as (h' & Hrun & Hwf' & Hgone & _).
  exists h'. split; [exact Hrun|]. split; [exact Hgone|].
  intros p n u Hp Hu Heq.
  pose proof (wf_sound _ _ _ (Hwf' _ _ Hp)) as Hsound.
  rewrite Forall_forall in Hsound.
  destruct (Hsound u Hu) as (c & Hc & _). congruence.
Qed.

(** ** The bookkeeping maintains the invariant *)

Lemma node_wf_set_uses h p n us :
  node_wf h p n -> key_sorted (use_key h) us -> Forall (use_sound h p) us ->
  node_wf h p (set_uses us n).
Proof. intros [? ? Ha Ho] Hs Hd. split; cbn; assumption. Qed.

Lemma node_wf_same_lists h p n n' :
  uses_ n' = uses_ n -> operands_ n' = operands_ n ->
  operands_as_outputs_ n' = operands_as_outputs_ n ->
  node_wf h p n -> node_wf h p n'.
Proof. intros Hu Ho Ha [? ? ? ?]. split; rewrite ?Hu, ?Ho, ?Ha; assumption. Qed.

Lemma heap_wf_fresh (h : Heap) p n :
  heap_wf h -> h !! p = None ->
  uses_ n = [] -> operands_ n = [] -> operands_as_outputs_ n = [] ->
  heap_wf (<[p := n]> h).
Proof.
  intros Hwf Hp Hu Ho Ha q m Hq. destruct (decide (p = q)) as [<-|Hne].
  - rewrite lookup_insert_eq in Hq. injection Hq as <-.
    split; unfold key_sorted; rewrite ?Hu, ?Ho, ?Ha; constructor.
  - rewrite lookup_insert_ne in Hq by done.
    eapply node_wf_step;
      [apply (heap_step_fresh no_slot); exact Hp | | apply Hwf, Hq].
    intros u _ Hc. exact Hc.
Qed.

Lemma AddUse_wf (h : Heap) self n u :
  heap_wf h -> h !! self = Some n -> use_sound h self u ->
  AddUse self u h
  = Done (<[self := set_uses (key_insert (use_key h) u (uses_ n)) n]> h)
  /\ heap_wf (<[self := set_uses (key_insert (use_key h) u (uses_ n)) n]> h)
  /\ heap_step no_slot h
       (<[self := set_uses (key_insert (use_key h) u (uses_ n)) n]> h).
Proof.
  intros Hwf Hn Hu.
  set (h' := <[self := set_uses (key_insert (use_key h) u (uses_ n)) n]> h).
  assert (Hs : heap_step no_slot h h')
    by (apply heap_step_insert with n; cbn; auto).
  pose proof (node_wf_uses_live _ _ _ (Hwf _ _ Hn)) as Hlive.
  rewrite Forall_forall in Hlive.
  split; [|split; [|exact Hs]].
  - apply AddUse_live;
      [exact Hn | eapply use_sound_live, Hu | apply Forall_forall, Hlive].
  - apply heap_wf_update with n; [exact Hwf | exact Hn | exact Hs |].
    pose proof (Hwf _ _ Hn) as Hnw.
    apply (node_wf_step no_slot h h') in Hnw;
      [| exact Hs | intros ? _ Hc; exact Hc].
    apply node_wf_set_uses; [exact Hnw | |].
    + eapply key_sorted_ext;
        [| apply key_insert_sorted, (wf_sorted _ _ _ (Hwf _ _ Hn))].
      intros x Hx. eapply use_key_step; [exact Hs|].
      apply key_insert_elem in Hx as [->|Hx];
        [eapply use_sound_live, Hu | apply Hlive, Hx].
    + apply Forall_forall. intros x Hx.
      apply key_insert_elem in Hx as [->|Hx].
      * eapply use_sound_step; [exact Hs | intros Hc; exact Hc | exact Hu].
      * pose proof (wf_sound _ _ _ Hnw) as Hsd.
        rewrite Forall_forall in Hsd. apply Hsd, Hx.
Qed.

Lemma RemoveUse_wf (h : Heap) self n u :
  heap_wf h -> h !! self = Some n -> use_live h u ->
  RemoveUse self u h
  = Done (<[self := set_uses (key_erase (use_key h) u (uses_ n)) n]> h)
  /\ heap_wf (<[self := set_uses (key_erase (use_key h) u (uses_ n)) n]> h)
  /\ heap_step no_slot h
       (<[self := set_uses (key_erase (use_key h) u (uses_ n)) n]> h).
Proof.
  intros Hwf Hn Hu.
  set (h' := <[self := set_uses (key_erase (use_key h) u (uses_ n)) n]> h).
  assert (Hs : heap_step no_slot h h')
    by (apply heap_step_insert with n; cbn; auto).
  pose proof (node_wf_uses_live _ _ _ (Hwf _ _ Hn)) as Hlive.
  rewrite Forall_forall in Hlive.
  split; [|split; [|exact Hs]].
  - apply RemoveUse_live; [exact Hn | exact Hu | apply Forall_forall, Hlive].
  - apply heap_wf_update with n; [exact Hwf | exact Hn | exact Hs |].
    pose proof (Hwf _ _ Hn) as Hnw.
    apply (node_wf_step no_slot h h') in Hnw;
      [| exact Hs | intros ? _ Hc; exact Hc].
    apply node_wf_set_uses; [exact Hnw | |].
    + eapply key_sorted_ext;
        [| apply key_erase_sorted, (wf_sorted _ _ _ (Hwf _ _ Hn))].
      intros x Hx. eapply use_key_step; [exact Hs|].
      apply Hlive. eapply key_erase_elem, Hx.
    + apply Forall_forall. intros x Hx.
      pose proof (wf_sound _ _ _ Hnw) as Hsd.
      rewrite Forall_forall in Hsd. eapply Hsd, key_erase_elem, Hx.
Qed.

Lemma AddOperand_wf (h : Heap) this t node n index :
  heap_wf h -> h !! this = Some t -> h !! node = Some n ->
  index < num_outputs_ n ->
  exists h', AddOperand this node index h = Done h'
             /\ heap_wf h' /\ heap_step no_slot h h'.
Proof.
  intros Hwf Ht Hn Hi.
  set (t1 := set_operands (operands_ t ++ [node])
               (operands_as_outputs_ t ++ [mkOutput node index]) t).
  set (h1 := <[this := t1]> h).
  assert (Hs1 : heap_step no_slot h h1).
  { apply heap_step_insert with t; cbn; auto.
    - rewrite length_app. lia.
    - intros i o _ Hio. apply lookup_app_l_Some. exact Hio. }
  assert (Hwf1 : heap_wf h1).
  { apply heap_wf_update with t; [exact Hwf | exact Ht | exact Hs1 |].
    pose proof (Hwf _ _ Ht) as Htw.
    apply (node_wf_step no_slot h h1) in Htw;
      [| exact Hs1 | intros ? _ Hc; exact Hc].
    destruct Htw as [Hso Hsd Hag Hop]. split; cbn; [exact Hso | exact Hsd | |].
    - rewrite Hag, fmap_app. reflexivity.
    - apply Forall_app. split; [exact Hop|]. constructor; [|constructor].
      destruct (Hs1 _ _ Hn) as (n' & Hn' & _ & Hnum & _).
      exists n'. cbn. split; [exact Hn' | lia]. }
  destruct (Hs1 _ _ Hn) as (n1 & Hn1 & _).
  assert (Hlen : length (operands_ t1) - 1 = length (operands_as_outputs_ t)).
  { cbn. rewrite (wf_agree _ _ _ (Hwf _ _ Ht)), length_app, length_fmap.
    cbn. lia. }
  assert (Hsound : use_sound h1 node
                     (mkUse this (length (operands_ t1) - 1) index)).
  { exists t1. cbn [use_node use_operand_index use_index].
    split; [apply lookup_insert_eq|]. rewrite Hlen.
    apply list_lookup_middle. reflexivity. }
  destruct (AddUse_wf h1 node n1 _ Hwf1 Hn1 Hsound) as (Hrun & Hwf2 & Hs2).
  eexists. split; [|split; [exact Hwf2 | eapply heap_step_trans; eassumption]].
  unfold AddOperand. rewrite (deref_Some _ _ _ Hn), Done_bind.
  rewrite (proj2 (Nat.ltb_lt _ _) Hi). unfold XLA_CHECK.
  rewrite Done_bind, (deref_Some _ _ _ Ht), Done_bind. exact Hrun.
Qed.

Lemma value_ok_step changed h h' v :
  heap_step changed h h' -> value_ok h v -> value_ok h' v.
Proof.
  intros Hs (n & Hn & Hlt).
  destruct (Hs _ _ Hn) as (n' & Hn' & _ & Hnum & _).
  exists n'. split; [exact Hn' | lia].
Qed.

Section ConstructorInvariant.
Context `{XlaUtil}.

Lemma Node_ctor_step_wf (h : Heap) this t v :
  heap_wf h -> h !! this = Some t -> value_ok h v ->
  exists h', Node_ctor_step this h v = Done h'
             /\ heap_wf h' /\ heap_step no_slot h h'.
Proof.
  intros Hwf Ht (n & Hn & Hi).
  destruct (AddOperand_wf h this t (val_node v) n (val_index v) Hwf Ht Hn Hi)
    as (h1 & Hadd & Hwf1 & Hs1).
  destruct (Hs1 _ _ Hn) as (n1 & Hn1 & _).
  destruct (Hs1 _ _ Ht) as (t1 & Ht1 & _).
  set (t2 := set_hash (HashCombine (hash_ t1)
                         (HashCombine (hash_ n1) (Z.of_nat (val_index v))))
                      t1).
  assert (Hs2 : heap_step no_slot h1 (<[this := t2]> h1))
    by (apply heap_step_insert with t1; cbn; auto).
  exists (<[this := t2]> h1). split; [|split].
  - unfold Node_ctor_step. rewrite Hadd, Done_bind.
    unfold Value_hash. rewrite (deref_Some _ _ _ Hn1), !Done_bind.
    rewrite (deref_Some _ _ _ Ht1), Done_bind. reflexivity.
  - apply heap_wf_update with t1; [exact Hwf1 | exact Ht1 | exact Hs2 |].
    apply (node_wf_same_lists _ _ t1); try reflexivity.
    eapply node_wf_step; [exact Hs2 | intros ? _ Hc; exact Hc |].
    apply Hwf1, Ht1.
  - eapply heap_step_trans; eassumption.
Qed.

Lemma Node_ctor_loop_wf this operands :
  forall hk : Heap,
    heap_wf hk -> is_Some (hk !! this) -> Forall (value_ok hk) operands ->
    exists h', foldM (Node_ctor_step this) operands hk = Done h'
               /\ heap_wf h' /\ heap_step no_slot hk h'.
Proof.
  induction operands as [|v operands IH]; intros hk Hwf [t Ht] Hops.
  - exists hk. split; [reflexivity|]. split; [exact Hwf|].
    apply heap_step_refl.
  - apply Forall_cons in Hops as [Hv Hops].
    destruct (Node_ctor_step_wf hk this t v Hwf Ht Hv) as (h1 & Hrun & Hwf1 & Hs1).
    destruct (IH h1 Hwf1) as (h' & Hrun' & Hwf' & Hs').
    + destruct (Hs1 _ _ Ht) as (t1 & Ht1 & _). eauto.
    + eapply Forall_impl; [exact Hops|]. intros x.
      eapply value_ok_step; exact Hs1.
    + exists h'. split; [|split; [exact Hwf'|]].
      * cbn. rewrite Hrun, Done_bind. exact Hrun'.
      * eapply heap_step_trans; eassumption.
Qed.

(** The constructor succeeds on operands that are alive and have the
    requested output, and the graph it leaves satisfies the invariant. *)
Lemma Node_ctor_wf env tc this o operands shape num_outputs hash_seed
    (h : Heap) :
  heap_wf h -> h !! this = None -> Forall (value_ok h) operands ->
  exists h',
    Node_ctor env tc this o operands shape num_outputs hash_seed h = Done h'
    /\ heap_wf h' /\ heap_step no_slot h h'.
Proof.
  intros Hwf Hfresh Hops. unfold Node_ctor.
  set (init := Node_init env tc o shape num_outputs _).
  assert (Hs0 : heap_step no_slot h (<[this := init]> h))
    by (apply heap_step_fresh; exact Hfresh).
  destruct (Node_ctor_loop_wf this operands (<[this := init]> h))
    as (h' & Hrun & Hwf' & Hs').
  - apply heap_wf_fresh; [exact Hwf | exact Hfresh | reflexivity ..].
  - rewrite lookup_insert_eq. eauto.
  - eapply Forall_impl; [exact Hops|]. intros x.
    eapply value_ok_step; exact Hs0.
  - exists h'. split; [exact Hrun|]. split; [exact Hwf'|].
    eapply heap_step_trans; eassumption.
Qed.

Lemma Node_ctor_leaf_wf env tc this o shape num_outputs hash_seed (h : Heap) :
  heap_wf h -> h !! this = None ->
  heap_wf (Node_ctor_leaf env tc this o shape num_outputs hash_seed h).
Proof.
  intros Hwf Hfresh. unfold Node_ctor_leaf.
  apply heap_wf_fresh; [exact Hwf | exact Hfresh | reflexivity ..].
Qed.

End ConstructorInvariant.

(** ** The sample graphs *)

Section SampleGraphFacts.
#[local] Existing Instance sample_util.

Lemma sample_leaves_wf : heap_wf sample_leaves.
Proof.
  unfold sample_leaves.
  apply Node_ctor_leaf_wf; [apply Node_ctor_leaf_wf|];
    [apply heap_wf_empty | reflexivity | reflexivity].
Qed.

Lemma sample_consumers_wf (first : Value) :
  value_ok sample_leaves first ->
  heap_wf (heap_of ∅ (sample_binary 3 [first] sample_leaves
                      ≫= sample_binary 4 [sample_left])).
Proof.
  intros Hfirst. unfold sample_binary.
  destruct (Node_ctor_wf sample_env sample_tc 3 sample_op [first]
              sample_scalar 1 5%Z sample_leaves)
    as (h3 & Hrun3 & Hwf3 & Hs3);
    [apply sample_leaves_wf | reflexivity | repeat constructor; exact Hfirst |].
  rewrite Hrun3, Done_bind.
  destruct (Node_ctor_wf sample_env sample_tc 4 sample_op [sample_left]
              sample_scalar 1 5%Z h3)
    as (h4 & Hrun4 & Hwf4 & Hs4); [exact Hwf3 | | |].
  - apply bind_Done_inv in Hrun3 as (h3' & Hstep & Hdone).
    injection Hdone as <-.
    unfold Node_ctor_step in Hstep.
    bind_inv Hstep h1 Hadd. bind_inv Hstep oh Hvh. bind_inv Hstep t1 Ht1.
    injection Hstep as <-.
    rewrite lookup_insert_ne by lia.
    apply (static_eq_lookup_None _ _ 4 (AddOperand_static _ _ _ _ _ Hadd)).
    rewrite lookup_insert_ne by lia. reflexivity.
  - repeat constructor. eapply value_ok_step; [exact Hs3|].
    eexists. split; [reflexivity | cbn; lia].
  - rewrite Hrun4. exact Hwf4.
Qed.

Lemma sample_two_consumers_wf : heap_wf sample_two_consumers.
Proof.
  apply sample_consumers_wf. eexists. split; [reflexivity | cbn; lia].
Qed.

Lemma sample_split_consumers_wf : heap_wf sample_split_consumers.
Proof.
  apply sample_consumers_wf. eexists. split; [reflexivity | cbn; lia].
Qed.

(** The consumer at address 3 is the one whose use the leaf at address 1
    has recorded; it is destroyed while the consumer at address 4 still
    holds that leaf. *)
Lemma C3_witness :
  let h := sample_two_consumers in
  uses_ <$> h !! 1 = Some [mkUse 3 0 0]
  /\ (exists hb,
        Node_dtor_body 3 h = Done hb
        /\ (forall p,
              p ∈ operands_ (node_at sample_scalar_node h 3) ->
              is_Some (hb !! p))
        /\ (forall p n u,
              hb !! p = Some n -> u ∈ uses_ n -> use_node u <> 3))
  /\ (exists h',
        Node_destroy (size h) [] 3 h = Some (Done h')
        /\ h' !! 3 = None
        /\ (forall p n u,
              h' !! p = Some n -> u ∈ uses_ n -> use_node u <> 3)).
Proof.
  intros h. split; [vm_compute; reflexivity|].
  destruct (C3_dtor_leaves_no_back_reference
              h 3 (node_at sample_scalar_node h 3) []
              sample_two_consumers_wf) as [Hbody Hfull].
  - vm_compute. reflexivity.
  - split; [exact Hbody|]. apply Hfull. unfold unheld.
    apply (proj1 (map_Forall_lookup
                    (fun (_ : nat) (m : Node) => 3 ∉ operands_ m) h)).
    apply (bool_decide_unpack _). vm_compute. exact I.
Defined.

(** C2 (the code departs from the claim): the consumers at the addresses
    3 and 4 are of the same kind and both take output 0 of node 1 as
    operand 0, so the use set of node 1 holds one use for the two of them.
    [ReplaceAllUsesWith] on node 1 with node 2 redirects the consumer at
    address 3 only: the consumer at address 4 still refers to node 1,
    while the use set of node 1 is empty. *)
Theorem C2_consumer_of_same_kind_is_not_redirected :
  (num_outputs_ <$> sample_two_consumers !! 2,
   operands_as_outputs_ <$> sample_two_consumers !! 3,
   operands_as_outputs_ <$> sample_two_consumers !! 4,
   uses_ <$> sample_two_consumers !! 1)
  = (Some 1, Some [mkOutput 1 0], Some [mkOutput 1 0], Some [mkUse 3 0 0])
  /\ (ReplaceAllUsesWith 1 2 0 sample_two_consumers
      ≫= fun h' => Done (operands_as_outputs_ <$> h' !! 3,
                         operands_as_outputs_ <$> h' !! 4,
                         operands_ <$> h' !! 4,
                         uses_ <$> h' !! 1,
                         uses_ <$> h' !! 2))
     = Done (Some [mkOutput 2 0], Some [mkOutput 1 0], Some [1],
             Some [], Some [mkUse 3 0 0]).
Proof. split; vm_compute; reflexivity. Qed.

(** C4 (the code departs from the claim): the consumer at address 3 takes
    output 0 of node 2 as operand 0, and the consumer at address 4, of the
    same kind, takes output 0 of node 1.  [ReplaceOperand] on the consumer
    at address 4, slot 0, with output 0 of node 2 meets both preconditions
    and overwrites the stored operand, but the use set of node 2 holds no
    use by the consumer at address 4 afterwards; the hashes and the shape
    of the consumer are as before. *)
Theorem C4_use_on_new_operand_is_not_recorded :
  (num_outputs_ <$> sample_split_consumers !! 2,
   operands_as_outputs_ <$> sample_split_consumers !! 4,
   uses_ <$> sample_split_consumers !! 2)
  = (Some 1, Some [mkOutput 1 0], Some [mkUse 3 0 0])
  /\ (ReplaceOperand 4 0 2 0 sample_split_consumers
      ≫= fun h' => Done (operands_as_outputs_ <$> h' !! 4,
                         operands_ <$> h' !! 4,
                         uses_ <$> h' !! 1,
                         uses_ <$> h' !! 2,
                         node_static <$> h' !! 4))
     = Done (Some [mkOutput 2 0], Some [2], Some [], Some [mkUse 3 0 0],
             node_static <$> sample_split_consumers !! 4).
Proof. split; vm_compute; reflexivity. Qed.

End SampleGraphFacts.

(** ** Operand order and the width of the hash

    Whatever [HashCombine] is, as long as its values fit a fixed number of
    bits, some two orders of the same operands get the same full hash. *)

Lemma all_bits_length n : length (all_bits n) = 2 ^ n.
Proof.
  induction n as [|n IH]; [reflexivity|].
  cbn [all_bits]. rewrite length_app, !length_fmap, IH. cbn. lia.
Qed.

Lemma all_bits_elem n bs : bs ∈ all_bits n -> length bs = n.
Proof.
  revert bs. induction n as [|n IH]; intros bs; cbn [all_bits].
  - rewrite list_elem_of_singleton. intros ->. reflexivity.
  - rewrite elem_of_app, !list_elem_of_fmap.
    intros [(r & -> & Hr)|(r & -> & Hr)]; cbn; f_equal; auto.
Qed.

Lemma all_bits_NoDup n : NoDup (all_bits n).
Proof.
  induction n as [|n IH]; cbn [all_bits].
  - apply NoDup_singleton.
  - apply NoDup_app. split; [|split].
    + apply NoDup_fmap_2; [intros ? ? [= ->]; reflexivity | exact IH].
    + intros bs. rewrite !list_elem_of_fmap.
      intros (r & -> & _) (r' & Heq & _). discriminate.
    + apply NoDup_fmap_2; [intros ? ? [= ->]; reflexivity | exact IH].
Qed.

Lemma interleave_inj {A} (a b : A) bs bs' :
  a <> b -> length bs = length bs' ->
  interleave a b bs = interleave a b bs' -> bs = bs'.
Proof.
  intros Hab. revert bs'.
  induction bs as [|c bs IH]; intros [|c' bs'] Hlen Heq;
    try discriminate; [reflexivity|].
  injection Hlen as Hlen. unfold interleave in *. cbn in Heq.
  destruct c, c'; cbn in Heq; simplify_eq; try done; f_equal; auto.
Qed.

Lemma interleave_perm {A} (a b : A) bs bs' :
  length bs = length bs' -> interleave a b bs ≡ₚ interleave a b bs'.
Proof.
  revert bs'. induction bs as [|c bs IH]; intros [|c' bs'] Hlen;
    try discriminate; [reflexivity|].
  injection Hlen as Hlen. unfold interleave in *. cbn.
  specialize (IH bs' Hlen).
  destruct c, c'; cbn; rewrite IH; try reflexivity; apply perm_swap.
Qed.

Lemma pigeonhole_Z {A} `{EqDecision A} (f : A -> Z) (l : list A) (M : Z) :
  NoDup l ->
  (forall a, a ∈ l -> (0 <= f a < M)%Z) ->
  (0 <= M < Z.of_nat (length l))%Z ->
  exists a b, a ∈ l /\ b ∈ l /\ a <> b /\ f a = f b.
Proof.
  intros Hnd Hrange Hlen.
  destruct (decide (Forall (fun a => Forall (fun b => f a = f b -> a = b) l) l))
    as [Hinj|Hcol].
  - exfalso.
    assert (Hnd' : NoDup (f <$> l)).
    { apply NoDup_fmap_2_strong; [|exact Hnd].
      intros a b Ha Hb Hab. rewrite Forall_forall in Hinj.
      specialize (Hinj a Ha). rewrite Forall_forall in Hinj. auto. }
    assert (Hsub : (f <$> l) ⊆+ seqZ 0 M).
    { apply NoDup_submseteq; [exact Hnd'|].
      intros z. rewrite list_elem_of_fmap, elem_of_seqZ.
      intros (a & -> & Ha). specialize (Hrange a Ha). lia. }
    apply submseteq_length in Hsub.
    rewrite length_fmap, length_seqZ in Hsub. lia.
  - apply not_Forall_Exists in Hcol; [|intros; apply _].
    apply Exists_exists in Hcol as (a & Ha & Hcol). cbn in Hcol.
    apply not_Forall_Exists in Hcol; [|intros; apply _].
    apply Exists_exists in Hcol as (b & Hb & Hcol). cbn in Hcol.
    exists a, b. repeat split; [exact Ha | exact Hb | |].
    + intros ->. apply Hcol. reflexivity.
    + destruct (decide (f a = f b)) as [E|E]; [exact E|].
      exfalso. apply Hcol. intros E'. contradiction.
Qed.

Section HashWidth.
Context `{XlaUtil}.
Variable bits : nat.
Hypothesis HashCombine_range :
  forall a b, (0 <= HashCombine a b < 2 ^ Z.of_nat bits)%Z.

Lemma fold_HashCombine_range l x (n0 : hash_t) :
  (0 <= fold_left HashCombine (l ++ [x]) n0 < 2 ^ Z.of_nat bits)%Z.
Proof. rewrite fold_left_app. cbn. apply HashCombine_range. Qed.

Lemma interleave_snoc {A} (a b : A) c bs :
  exists l x, interleave a b (c :: bs) = l ++ [x].
Proof.
  unfold interleave. cbn [flat_map].
  destruct (exists_last (l := (if c then [a; b] else [b; a])
                              ++ flat_map (fun c : bool =>
                                             if c then [a; b] else [b; a]) bs))
    as (l & x & ->); [destruct c; discriminate|].
  eauto.
Qed.

(** Two different orders of the same hashes with the same fold. *)
Lemma hash_fold_collision (n0 x y : hash_t) :
  x <> y ->
  exists bs bs',
    length bs = S bits /\ length bs' = S bits
    /\ interleave x y bs <> interleave x y bs'
    /\ interleave x y bs ≡ₚ interleave x y bs'
    /\ fold_left HashCombine (interleave x y bs) n0
       = fold_left HashCombine (interleave x y bs') n0.
Proof.
  intros Hxy.
  destruct (pigeonhole_Z
              (fun bs => fold_left HashCombine (interleave x y bs) n0)
              (all_bits (S bits)) (2 ^ Z.of_nat bits))
    as (bs & bs' & Hbs & Hbs' & Hne & Heq).
  - apply all_bits_NoDup.
  - intros bs Hbs. apply all_bits_elem in Hbs.
    destruct bs as [|c bs]; [discriminate|].
    destruct (interleave_snoc x y c bs) as (l & z & ->).
    apply fold_HashCombine_range.
  - rewrite all_bits_length, Nat2Z.inj_pow.
    change (Z.of_nat 2) with 2%Z.
    rewrite (Nat2Z.inj_succ bits), Z.pow_succ_r by lia.
    assert (0 < 2 ^ Z.of_nat bits)%Z by (apply Z.pow_pos_nonneg; lia). lia.
  - apply all_bits_elem in Hbs, Hbs'.
    exists bs, bs'. repeat split; try assumption.
    + intros Hi. apply Hne. eapply interleave_inj; [exact Hxy | lia | exact Hi].
    + apply interleave_perm. lia.
Qed.

End HashWidth.

Section HashWidthNodes.
Context `{XlaUtil}.
Variable bits : nat.
Hypothesis HashCombine_range :
  forall a b, (0 <= HashCombine a b < 2 ^ Z.of_nat bits)%Z.

Lemma Value_hashes_interleave (h : Heap) v1 v2 x y bs :
  Value_hash h v1 = Done x -> Value_hash h v2 = Done y ->
  Value_hashes h (interleave v1 v2 bs) = Done (interleave x y bs).
Proof.
  intros H1 H2. unfold interleave.
  induction bs as [|c bs IH]; [reflexivity|].
  cbn [flat_map]. destruct c; cbn [app Value_hashes];
    rewrite H1, H2, IH || rewrite H2, H1, IH; reflexivity.
Qed.

(** Two operands with different hashes can be arranged in two orders,
    each a rearrangement of the other with a different sequence of operand
    hashes, from which the constructor builds nodes with one and the same
    full hash. *)
Lemma Node_ctor_order_collision env tc this o shape num_outputs hash_seed
    (h : Heap) v1 v2 x y :
  heap_wf h -> h !! this = None ->
  value_ok h v1 -> value_ok h v2 ->
  Value_hash h v1 = Done x -> Value_hash h v2 = Done y -> x <> y ->
  exists operands operands' hs hs' h1 h2 z,
    operands ≡ₚ operands'
    /\ Value_hashes h operands = Done hs
    /\ Value_hashes h operands' = Done hs'
    /\ hs <> hs'
    /\ Node_ctor env tc this o operands shape num_outputs hash_seed h
       = Done h1
    /\ Node_ctor env tc this o operands' shape num_outputs hash_seed h
       = Done h2
    /\ Node_hash h1 this = Done z
    /\ Node_hash h2 this = Done z.
Proof.
  intros Hwf Hfresh Hok1 Hok2 Hx Hy Hxy.
  destruct (hash_fold_collision bits HashCombine_range
              (HashCombine (OpKind_hash o) hash_seed) x y Hxy)
    as (bs & bs' & Hl & Hl' & Hne & _ & Hfold).
  assert (Hall : forall cs, Forall (value_ok h) (interleave v1 v2 cs)).
  { intros cs. unfold interleave. induction cs as [|c cs IH]; [constructor|].
    cbn [flat_map]. destruct c; repeat (constructor; [assumption|]); exact IH. }
  destruct (Node_ctor_wf env tc this o (interleave v1 v2 bs) shape
              num_outputs hash_seed h Hwf Hfresh (Hall bs))
    as (h1 & Hrun1 & _).
  destruct (Node_ctor_wf env tc this o (interleave v1 v2 bs') shape
              num_outputs hash_seed h Hwf Hfresh (Hall bs'))
    as (h2 & Hrun2 & _).
  pose proof (Value_hashes_interleave h v1 v2 x y bs Hx Hy) as Hs1.
  pose proof (Value_hashes_interleave h v1 v2 x y bs' Hx Hy) as Hs2.
  destruct (Node_ctor_hash _ _ _ _ _ _ _ _ _ _ _ Hfresh Hs1 Hrun1)
    as (t1 & Ht1 & Hh1 & _).
  destruct (Node_ctor_hash _ _ _ _ _ _ _ _ _ _ _ Hfresh Hs2 Hrun2)
    as (t2 & Ht2 & Hh2 & _).
  exists (interleave v1 v2 bs), (interleave v1 v2 bs'),
         (interleave x y bs), (interleave x y bs'), h1, h2, (hash_ t1).
  repeat split; try assumption.
  - apply interleave_perm. lia.
  - unfold Node_hash. rewrite (deref_Some _ _ _ Ht1). reflexivity.
  - unfold Node_hash. rewrite (deref_Some _ _ _ Ht2). cbn.
    rewrite Hh2, <- Hfold, <- Hh1. reflexivity.
Qed.

End HashWidthNodes.


Section SampleHash.
#[local] Existing Instance sample_util.


End SampleHash.


(** ** Operand replacement *)

Lemma key_insert_ext (k k' : Use -> UseKey) u l :
  (forall x, k' x = k x) -> key_insert k' u l = key_insert k u l.
Proof.
  intros Hk. induction l as [|x l IH]; cbn; [reflexivity|].
  rewrite !Hk, IH. reflexivity.
Qed.

Lemma use_key_insert_op (h : Heap) p n n' u :
  h !! p = Some n -> op_ n' = op_ n ->
  use_key (<[p := n']> h) u = use_key h u.
Proof.
  intros Hp Ho. unfold use_key.
  destruct (decide (p = use_node u)) as [<-|Hne].
  - rewrite lookup_insert_eq, Hp, Ho. reflexivity.
  - rewrite lookup_insert_ne by done. reflexivity.
Qed.

(** Once the use that a consumer holds for a slot is erased from the
    operand of that slot, no use anywhere names that consumer and slot. *)
Lemma RemoveUse_clears_slot (h : Heap) this t no o pn :
  heap_wf h -> h !! this = Some t ->
  operands_as_outputs_ t !! no = Some o -> h !! out_node o = Some pn ->
  forall q m u,
    (<[out_node o :=
         set_uses (key_erase (use_key h) (mkUse this no (out_index o))
                             (uses_ pn)) pn]> h) !! q = Some m ->
    u ∈ uses_ m ->
    ~ (use_node u = this /\ use_operand_index u = no).
Proof.
  intros Hwf Ht Ho Hpn q m u Hq Hu [Hn Hslot].
  destruct (decide (out_node o = q)) as [<-|Hne].
  - rewrite lookup_insert_eq in Hq. injection Hq as <-. cbn in Hu.
    pose proof (Hwf _ _ Hpn) as [Hsort Hsound _ _].
    rewrite Forall_forall in Hsound.
    destruct (Hsound u (key_erase_elem _ _ _ _ Hu)) as (c & Hc & Hout).
    rewrite Hn in Hc. assert (c = t) by congruence. subst c.
    rewrite Hslot, Ho in Hout.
    assert (Hidx : out_index o = use_index u)
      by (injection Hout as Hout; rewrite Hout; reflexivity).
    apply (key_erase_gone _ _ _ _ Hsort Hu).
    f_equal. rewrite <- (use_eta u). rewrite Hn, Hslot, Hidx. reflexivity.
  - rewrite lookup_insert_ne in Hq by done.
    pose proof (wf_sound _ _ _ (Hwf _ _ Hq)) as Hsound.
    rewrite Forall_forall in Hsound.
    destruct (Hsound u Hu) as (c & Hc & Hout).
    rewrite Hn in Hc. assert (c = t) by congruence. subst c.
    rewrite Hslot, Ho in Hout. injection Hout as ->. cbn in Hne. congruence.
Qed.

(** Overwriting an operand slot that no use names keeps the invariant. *)
Lemma heap_wf_set_slot (h : Heap) this t no node n index :
  heap_wf h -> h !! this = Some t ->
  no < length (operands_as_outputs_ t) ->
  h !! node = Some n -> index < num_outputs_ n ->
  (forall q m u, h !! q = Some m -> u ∈ uses_ m ->
                 ~ (use_node u = this /\ use_operand_index u = no)) ->
  heap_wf (<[this := set_operands
                       (<[no := node]> (operands_ t))
                       (<[no := mkOutput node index]>
                          (operands_as_outputs_ t)) t]> h)
  /\ heap_step (one_slot this no) h
       (<[this := set_operands
                    (<[no := node]> (operands_ t))
                    (<[no := mkOutput node index]>
                       (operands_as_outputs_ t)) t]> h).
Proof.
  intros Hwf Ht Hno Hn Hi Hclear.
  set (t' := set_operands _ _ t). set (h' := <[this := t']> h).
  assert (Hs : heap_step (one_slot this no) h h').
  { apply heap_step_insert with t; cbn; auto.
    - rewrite length_insert. lia.
    - intros i o Hc Hio. rewrite list_lookup_insert_ne; [exact Hio|].
      intros ->. apply Hc. split; reflexivity. }
  split; [|exact Hs].
  intros q m Hq.
  assert (Hfree : forall m0, h !! q = Some m0 -> forall u, u ∈ uses_ m0 ->
            ~ one_slot this no (use_node u) (use_operand_index u)).
  { intros m0 Hm0 u Hu Hc. exact (Hclear q m0 u Hm0 Hu Hc). }
  destruct (decide (this = q)) as [<-|Hne].
  - unfold h' in Hq. rewrite lookup_insert_eq in Hq. injection Hq as <-.
    pose proof (node_wf_step _ h h' this t Hs (Hfree t Ht) (Hwf _ _ Ht))
      as [Hso Hsd Hag Hop].
    split; cbn; [exact Hso | exact Hsd | |].
    + rewrite Hag, list_fmap_insert. reflexivity.
    + apply Forall_insert; [exact Hop|].
      destruct (Hs _ _ Hn) as (n' & Hn' & _ & Hnum & _).
      exists n'. cbn. split; [exact Hn' | lia].
  - unfold h' in Hq. rewrite lookup_insert_ne in Hq by done.
    exact (node_wf_step _ h h' q m Hs (Hfree m Hq) (Hwf _ _ Hq)).
Qed.

Lemma ReplaceOperand_result (h : Heap) this t operand_no node n index :
  heap_wf h -> h !! this = Some t ->
  operand_no < length (operands_as_outputs_ t) ->
  h !! node = Some n -> index < num_outputs_ n ->
  exists o pn t1 n1b,
    operands_as_outputs_ t !! operand_no = Some o
    /\ h !! out_node o = Some pn
    /\ replaced_erase h this operand_no o pn !! this = Some t1
    /\ operands_as_outputs_ t1 = operands_as_outputs_ t
    /\ replaced_slot (replaced_erase h this operand_no o pn)
                     this operand_no node index t1 !! node = Some n1b
    /\ ReplaceOperand this operand_no node index h
       = Done (replaced_insert h
                 (replaced_slot (replaced_erase h this operand_no o pn)
                                this operand_no node index t1)
                 this operand_no node index n1b)
    /\ heap_wf (replaced_insert h
                  (replaced_slot (replaced_erase h this operand_no o pn)
                                 this operand_no node index t1)
                  this operand_no node index n1b)
    /\ heap_step (one_slot this operand_no) h
         (replaced_insert h
            (replaced_slot (replaced_erase h this operand_no o pn)
                           this operand_no node index t1)
            this operand_no node index n1b).
Proof.
  intros Hwf Ht Hno Hn Hi.
  pose proof (Hwf _ _ Ht) as [_ _ Hagree Hoperands].
  destruct (lookup_lt_is_Some_2 _ _ Hno) as [o Ho].
  assert (Hold : operands_ t !! operand_no = Some (out_node o)).
  { rewrite Hagree, list_lookup_fmap, Ho. reflexivity. }
  rewrite Forall_lookup in Hoperands.
  destruct (Hoperands _ _ Ho) as (pn & Hpn & _).
  set (use_old := mkUse this operand_no (out_index o)).
  set (use_new := mkUse this operand_no index).
  (* the use on the old operand goes *)
  destruct (RemoveUse_wf h (out_node o) pn use_old Hwf Hpn)
    as (Hrun1 & Hwf1 & Hs1); [exists t; exact Ht|].
  pose proof (RemoveUse_clears_slot h this t operand_no o pn Hwf Ht Ho Hpn)
    as Hclear.
  fold use_old in Hclear.
  change (<[out_node o :=
              set_uses (key_erase (use_key h) use_old (uses_ pn)) pn]> h)
    with (replaced_erase h this operand_no o pn) in *.
  set (h1 := replaced_erase h this operand_no o pn) in *.
  assert (Ht1 : exists t1, h1 !! this = Some t1
                  /\ op_ t1 = op_ t
                  /\ operands_ t1 = operands_ t
                  /\ operands_as_outputs_ t1 = operands_as_outputs_ t).
  { unfold h1, replaced_erase. destruct (decide (out_node o = this)) as [E|E].
    - rewrite E, lookup_insert_eq. eexists. split; [reflexivity|].
      rewrite E in Hpn. assert (pn = t) by congruence. subst pn. cbn. auto.
    - rewrite lookup_insert_ne by done. eauto. }
  destruct Ht1 as (t1 & Ht1 & Hop1 & Hops1 & Houts1).
  destruct (Hs1 _ _ Hn) as (n1 & Hn1 & _ & Hnum1 & _).
  assert (Hkey1 : forall x, use_key h1 x = use_key h x).
  { intros x. unfold h1, replaced_erase.
    eapply use_key_insert_op; [exact Hpn|reflexivity]. }
  (* the actual second step *)
  assert (Hrun2 : AddUse node use_new h1
            = Done (<[node := set_uses (key_insert (use_key h) use_new
                                                   (uses_ n1)) n1]> h1)).
  { rewrite <- (key_insert_ext (use_key h) (use_key h1) use_new _ Hkey1).
    apply AddUse_live; [exact Hn1 | exists t1; exact Ht1 |].
    eapply node_wf_uses_live, Hwf1, Hn1. }
  (* the same heap, reached by writing the slot before recording the use *)
  destruct (heap_wf_set_slot h1 this t1 operand_no node n1 index Hwf1 Ht1)
    as (Hwf1b & Hs1b); [rewrite Houts1; exact Hno | exact Hn1 | lia
                        | exact Hclear |].
  change (<[this := set_operands (<[operand_no := node]> (operands_ t1))
                      (<[operand_no := mkOutput node index]>
                         (operands_as_outputs_ t1)) t1]> h1)
    with (replaced_slot h1 this operand_no node index t1) in *.
  set (h1b := replaced_slot h1 this operand_no node index t1) in *.
  assert (Ht1b : exists t1b, h1b !! this = Some t1b
                   /\ uses_ t1b = uses_ t1
                   /\ operands_as_outputs_ t1b !! operand_no
                      = Some (mkOutput node index)).
  { eexists. split; [apply lookup_insert_eq|]. cbn. split; [reflexivity|].
    apply list_lookup_insert_eq. rewrite Houts1. exact Hno. }
  destruct Ht1b as (t1b & Ht1b & Huses1b & Hslot1b).
  assert (Hkey : forall x, use_key h1b x = use_key h x).
  { intros x. rewrite <- Hkey1. unfold h1b, replaced_slot.
    eapply use_key_insert_op; [exact Ht1|reflexivity]. }
  assert (Hsound : use_sound h1b node use_new).
  { exists t1b. split; [exact Ht1b | exact Hslot1b]. }
  assert (Hn1b : exists n1b, h1b !! node = Some n1b).
  { destruct (Hs1b _ _ Hn1) as (n1b & Hn1b & _). eauto. }
  destruct Hn1b as (n1b & Hn1b).
  destruct (AddUse_wf h1b node n1b use_new Hwf1b Hn1b Hsound)
    as (_ & Hwf3 & Hs3).
  rewrite (key_insert_ext (use_key h) (use_key h1b) use_new _ Hkey)
    in Hwf3, Hs3.
  change (<[node := set_uses (key_insert (use_key h) use_new (uses_ n1b))
                             n1b]> h1b)
    with (replaced_insert h h1b this operand_no node index n1b) in *.
  exists o, pn, t1, n1b.
  split; [exact Ho|]. split; [exact Hpn|]. split; [exact Ht1|].
  split; [exact Houts1|]. split; [exact Hn1b|].
  split; [|split; [exact Hwf3|]].
  - unfold ReplaceOperand.
    rewrite (deref_Some _ _ _ Hn), Done_bind.
    rewrite (proj2 (Nat.ltb_lt _ _) Hi). unfold XLA_CHECK.
    rewrite Done_bind, (deref_Some _ _ _ Ht), Done_bind.
    rewrite Ho, Done_bind, Hold, Done_bind.
    fold use_old use_new. rewrite Hrun1, Done_bind.
    rewrite Hrun2, Done_bind.
    unfold replaced_insert. fold use_new.
    destruct (decide (node = this)) as [E|E].
    + subst node. assert (n1 = t1) by congruence. subst n1.
      assert (n1b = t1b) by congruence. subst n1b.
      unfold deref. rewrite lookup_insert_eq, Done_bind.
      unfold h1b, replaced_slot in Ht1b |- *.
      rewrite lookup_insert_eq in Ht1b. injection Ht1b as <-.
      rewrite !insert_insert_eq. reflexivity.
    + assert (n1b = n1).
      { unfold h1b, replaced_slot in Hn1b.
        rewrite lookup_insert_ne in Hn1b by done. congruence. }
      subst n1b.
      unfold deref. rewrite lookup_insert_ne by done.
      rewrite Ht1, Done_bind.
      unfold h1b, replaced_slot.
      rewrite (insert_insert_ne _ node this) by done. reflexivity.
  - eapply heap_step_trans;
      [eapply heap_step_weaken; [|exact Hs1]; intros ? ? []|].
    eapply heap_step_trans; [exact Hs1b|].
    eapply heap_step_weaken; [|exact Hs3]. intros ? ? [].
Qed.

(** On a graph that satisfies the invariant, [ReplaceOperand] within its
    preconditions succeeds and keeps the invariant. *)
Lemma ReplaceOperand_wf (h : Heap) this t operand_no node n index :
  heap_wf h -> h !! this = Some t ->
  operand_no < length (operands_as_outputs_ t) ->
  h !! node = Some n -> index < num_outputs_ n ->
  exists h',
    ReplaceOperand this operand_no node index h = Done h'
    /\ heap_wf h'
    /\ heap_step (one_slot this operand_no) h h'.
Proof.
  intros Hwf Ht Hno Hn Hi.
  destruct (ReplaceOperand_result h this t operand_no node n index
              Hwf Ht Hno Hn Hi)
    as (o & pn & t1 & n1b & _ & _ & _ & _ & _ & Hrun & Hwf' & Hs').
  eauto.
Qed.








Section LazyConstructorInvariant.
Context `{XlaUtil}.

(** The lazy constructor succeeds where the delegated one does and keeps
    the invariant: storing the shape touches no list. *)
Lemma Node_ctor_lazy_wf env tc this o operands shape_fn num_outputs
    hash_seed (h : Heap) (c : ShapeCache) :
  heap_wf h -> h !! this = None -> Forall (value_ok h) operands ->
  exists h' c' called,
    Node_ctor_lazy env tc this o operands shape_fn num_outputs hash_seed
                   (h, c) = Done (h', c', called)
    /\ heap_wf h'.
Proof.
  intros Hwf Hfresh Hops.
  destruct (Node_ctor_wf env tc this o operands Shape_default num_outputs
              hash_seed h Hwf Hfresh Hops)
    as (h0 & Hrun & Hwf0 & _).
  destruct (Node_ctor_this _ _ _ _ _ _ _ _ _ _ Hrun) as (t0 & Ht0 & _).
  unfold Node_ctor_lazy. cbn [fst snd]. rewrite Hrun, Done_bind.
  rewrite (deref_Some _ _ _ Ht0), Done_bind.
  destruct (GetOpShape t0 shape_fn c) as [[shape c'] called].
  eexists. exists c', called. split; [reflexivity|].
  assert (Hs : heap_step no_slot h0 (<[this := set_shape shape t0]> h0))
    by (apply heap_step_insert with t0; cbn; auto).
  apply heap_wf_update with t0; [exact Hwf0 | exact Ht0 | exact Hs |].
  apply (node_wf_same_lists _ _ t0); try reflexivity.
  eapply node_wf_step; [exact Hs | intros ? _ Hc; exact Hc | apply Hwf0, Ht0].
Qed.

End LazyConstructorInvariant.

(** The sample combiner is one of the combiners of fixed width, here 64
    bits, so the collision of orders applies to it. *)
Section SampleWidth.
#[local] Existing Instance sample_util.

Lemma sample_HashCombine_range (a b : hash_t) :
  (0 <= HashCombine a b < 2 ^ Z.of_nat 64)%Z.
Proof.
  change (0 <= (a * 31 + b) mod 2 ^ 64 < 2 ^ 64)%Z.
  apply Z.mod_pos_bound. reflexivity.
Qed.

Lemma sample_order_collision :
  exists operands operands' hs hs' h1 h2 z,
    operands ≡ₚ operands'
    /\ Value_hashes sample_leaves operands = Done hs
    /\ Value_hashes sample_leaves operands' = Done hs'
    /\ hs <> hs'
    /\ sample_binary 3 operands sample_leaves = Done h1
    /\ sample_binary 3 operands' sample_leaves = Done h2
    /\ Node_hash h1 3 = Done z
    /\ Node_hash h2 3 = Done z.
Proof.
  apply (Node_ctor_order_collision 64 sample_HashCombine_range
           sample_env sample_tc 3 sample_op sample_scalar 1 5%Z
           sample_leaves sample_left sample_right
           31713%Z (2 ^ 63 + 31713)%Z).
  - apply sample_leaves_wf.
  - reflexivity.
  - eexists. split; [reflexivity | cbn; lia].
  - eexists. split; [reflexivity | cbn; lia].
  - vm_compute. reflexivity.
  - vm_compute. reflexivity.
  - discriminate.
Qed.

End SampleWidth.

(** * Further properties of the translation unit *)

(** ** Scoped frontend attributes (lines 314-353) *)

Lemma string_empty_false s : s <> "" -> string_empty s = false.
Proof. destruct s; [congruence | reflexivity]. Qed.

Lemma FrontendAttributePusher_pop_after_found prefix_depth k found value
    (attributes : gmap string string) :
  attributes !! k = Some found -> found <> "" ->
  FrontendAttributePusher_dtor
    {| prefix_depth_ := prefix_depth; key_ := k; previous_value_ := found |}
    (if negb (string_empty value) then <[k := value]> attributes
     else delete k attributes)
  = attributes.
Proof.
  intros Hk Hne.
  assert (Hf : string_empty found = false) by (apply string_empty_false, Hne).
  unfold FrontendAttributePusher_dtor; cbn [key_ previous_value_].
  destruct (string_empty value); cbn [negb].
  - rewrite lookup_delete_eq, Hf. cbn [negb].
    rewrite insert_delete_eq. apply insert_id, Hk.
  - rewrite lookup_insert_eq, Hf.
    rewrite insert_insert_eq. apply insert_id, Hk.
Qed.

Lemma FrontendAttributePusher_pop_after_absent prefix_depth k value
    (attributes : gmap string string) :
  attributes !! k = None ->
  FrontendAttributePusher_dtor
    {| prefix_depth_ := prefix_depth; key_ := k; previous_value_ := "" |}
    (<[k := value]> attributes)
  = attributes.
Proof.
  intros Hk.
  unfold FrontendAttributePusher_dtor; cbn [key_ previous_value_].
  rewrite lookup_insert_eq. cbn [string_empty].
  rewrite delete_insert_eq. apply delete_id, Hk.
Qed.

(** X1: A scoped push followed by the pop of the same pusher gives back the
    attribute map as it was before the push, for either way of forming the
    key and for an empty or a non-empty value, provided the key was not
    bound to the empty string before. *)
Theorem FrontendAttributePusher_scope_restores_map key value prefix_depth
    (attributes : gmap string string) :
  attributes !! pusher_key key prefix_depth attributes <> Some "" ->
  FrontendAttributePusher_dtor
    (FrontendAttributePusher_ctor key value prefix_depth attributes).1
    (FrontendAttributePusher_ctor key value prefix_depth attributes).2
  = attributes.
Proof.
  unfold pusher_key, FrontendAttributePusher_ctor.
  set (k := if prefix_depth then _ else _).
  destruct (attributes !! k) as [found|] eqn:Hk; cbn [fst snd key_]; intros Hne.
  - apply FrontendAttributePusher_pop_after_found; congruence.
  - apply FrontendAttributePusher_pop_after_absent, Hk.
Qed.

Lemma FrontendAttributePusher_scope_restores_map_witness :
  FrontendAttributePusher_dtor
    (FrontendAttributePusher_ctor "a" "y" true {[ "0.b" := "x" ]}).1
    (FrontendAttributePusher_ctor "a" "y" true {[ "0.b" := "x" ]}).2
  = {[ "0.b" := "x" ]}.
Proof.
  apply (FrontendAttributePusher_scope_restores_map "a" "y" true
           {[ "0.b" := "x" ]}).
  vm_compute. discriminate.
Defined.

(** X2: Whatever is done to the attribute map inside the scope of a pusher,
    its pop puts the key of the pusher back to the non-empty value it had
    before the push, removes the key when it had none or had the empty
    string, and leaves every other key as the scope left it. *)
Theorem FrontendAttributePusher_dtor_restores_key key value prefix_depth
    (attributes inside : gmap string string) :
  let pusher :=
    (FrontendAttributePusher_ctor key value prefix_depth attributes).1 in
  FrontendAttributePusher_dtor pusher inside !! key_ pusher
  = match attributes !! key_ pusher with
    | Some "" => None
    | previous => previous
    end
  /\ forall other, other <> key_ pusher ->
       FrontendAttributePusher_dtor pusher inside !! other = inside !! other.
Proof.
  unfold FrontendAttributePusher_ctor.
  set (k := if prefix_depth then _ else _).
  destruct (attributes !! k) as [found|] eqn:Hk; cbn [fst key_];
    unfold FrontendAttributePusher_dtor; cbn [key_ previous_value_];
    rewrite Hk.
  - destruct found as [|a found]; cbn [string_empty negb];
      destruct (inside !! k) eqn:Hin; split;
      try (intros other Hother);
      rewrite ?lookup_delete_eq, ?lookup_insert_eq,
              ?lookup_delete_ne, ?lookup_insert_ne by congruence;
      auto.
  - cbn [string_empty negb]. destruct (inside !! k) eqn:Hin; split;
      try (intros other Hother);
      rewrite ?lookup_delete_eq, ?lookup_delete_ne by congruence; auto.
Qed.

(** X3: Two nested pushes of one key taken verbatim, the outer one with a
    value that is not empty: inside the outer scope the key carries the
    outer value; inside the inner scope it carries the inner value, or is
    absent when the inner value is empty; the inner pop gives back the map
    of the outer scope; the outer pop gives back the original map, except
    that a key that was bound to the empty string before the outer push is
    removed. *)
Theorem FrontendAttributePusher_nested_scopes key outer_value inner_value
    (attributes : gmap string string) :
  outer_value <> "" ->
  let outer := FrontendAttributePusher_ctor key outer_value false attributes in
  let inner := FrontendAttributePusher_ctor key inner_value false outer.2 in
  outer.2 !! key = Some outer_value
  /\ inner.2 !! key
     = (if string_empty inner_value then None else Some inner_value)
  /\ FrontendAttributePusher_dtor inner.1 inner.2 = outer.2
  /\ FrontendAttributePusher_dtor outer.1
       (FrontendAttributePusher_dtor inner.1 inner.2)
     = match attributes !! key with
       | Some "" => delete key attributes
       | _ => attributes
       end.
Proof.
  intros Hv outer inner.
  assert (Hout : outer.2 !! key = Some outer_value).
  { subst outer. unfold FrontendAttributePusher_ctor.
    destruct (attributes !! key); cbn [snd].
    - rewrite (string_empty_false _ Hv). cbn [negb]. apply lookup_insert_eq.
    - apply lookup_insert_eq. }
  assert (Hback : FrontendAttributePusher_dtor inner.1 inner.2 = outer.2).
  { subst inner. generalize Hout. generalize (outer.2). intros m Hm.
    unfold FrontendAttributePusher_ctor. rewrite Hm. cbn [fst snd].
    apply FrontendAttributePusher_pop_after_found; [exact Hm | exact Hv]. }
  split; [exact Hout|]. split.
  - subst inner. generalize Hout. generalize (outer.2). intros m Hm.
    unfold FrontendAttributePusher_ctor. rewrite Hm. cbn [snd].
    destruct (string_empty inner_value); cbn [negb].
    + apply lookup_delete_eq.
    + apply lookup_insert_eq.
  - split; [exact Hback|]. rewrite Hback. subst outer.
    unfold FrontendAttributePusher_ctor.
    destruct (attributes !! key) as [found|] eqn:Hf; cbn [fst snd].
    + destruct found as [|c found].
      * rewrite (string_empty_false _ Hv). cbn [negb].
        unfold FrontendAttributePusher_dtor; cbn [key_ previous_value_].
        rewrite lookup_insert_eq. cbn [string_empty].
        apply delete_insert_eq.
      * apply FrontendAttributePusher_pop_after_found; [exact Hf | discriminate].
    + apply FrontendAttributePusher_pop_after_absent, Hf.
Qed.

Lemma FrontendAttributePusher_nested_scopes_witness :
  let attributes : gmap string string := {[ "k" := "" ]} in
  let outer := FrontendAttributePusher_ctor "k" "a" false attributes in
  let inner := FrontendAttributePusher_ctor "k" "" false outer.2 in
  outer.2 !! "k" = Some "a"
  /\ inner.2 !! "k" = (if string_empty "" then None else Some "")
  /\ FrontendAttributePusher_dtor inner.1 inner.2 = outer.2
  /\ FrontendAttributePusher_dtor outer.1
       (FrontendAttributePusher_dtor inner.1 inner.2)
     = match attributes !! "k" with
       | Some "" => delete "k" attributes
       | _ => attributes
       end.
Proof.
  intros attributes.
  apply (FrontendAttributePusher_nested_scopes "k" "a" "" attributes).
  discriminate.
Defined.

(** *** Keys prefixed with the size of the map *)

Lemma string_length_app (a b : string) :
  String.length (a +:+ b) = String.length a + String.length b.
Proof.
  induction a as [|x a IH]; [reflexivity|].
  change (S (String.length (a +:+ b)) = S (String.length a + String.length b)).
  rewrite IH. reflexivity.
Qed.

Lemma string_app_inv_tail (a b c : string) : a +:+ c = b +:+ c -> a = b.
Proof.
  revert b. induction a as [|x a IH]; intros [|y b] Heq.
  - reflexivity.
  - apply (f_equal String.length) in Heq.
    rewrite (string_length_app (String y b)) in Heq.
    change (String.length ("" +:+ c)) with (String.length c) in Heq.
    cbn [String.length] in Heq. lia.
  - apply (f_equal String.length) in Heq.
    rewrite (string_length_app (String x a)) in Heq.
    change (String.length ("" +:+ c)) with (String.length c) in Heq.
    cbn [String.length] in Heq. lia.
  - change (String x (a +:+ c) = String y (b +:+ c)) in Heq.
    injection Heq as -> Heq. f_equal. apply IH, Heq.
Qed.

Lemma N_to_uint_nonnil (n : N) : N.to_uint n <> Decimal.Nil.
Proof.
  destruct n as [|p]; [discriminate|].
  apply DecimalPos.Unsigned.to_uint_nonnil.
Qed.

Lemma StrCat_size_t_inj (a b : N) : StrCat_size_t a = StrCat_size_t b -> a = b.
Proof.
  unfold StrCat_size_t. intros Heq.
  apply DecimalN.Unsigned.to_uint_inj.
  pose proof (NilZero.usu _ (N_to_uint_nonnil a)) as Ha.
  pose proof (NilZero.usu _ (N_to_uint_nonnil b)) as Hb.
  rewrite Heq in Ha. congruence.
Qed.

Lemma prefixed_key_inj (a b : N) (key : string) :
  StrCat_size_t a +:+ "." +:+ key = StrCat_size_t b +:+ "." +:+ key -> a = b.
Proof.
  intros Heq. apply string_app_inv_tail in Heq.
  apply StrCat_size_t_inj, Heq.
Qed.

(** X4: Two nested pushes of one key with the size prefix: when neither
    prefixed key is bound beforehand, the outer push files its value under
    the key prefixed with the size of the map and the inner push under the
    key prefixed with that size plus one, so that both values are in the
    map inside the inner scope, whatever the values are; the two pops,
    inner first, give back the original map. *)
Theorem FrontendAttributePusher_prefixed_nesting key outer_value inner_value
    (attributes : gmap string string) :
  let outer_key :=
    StrCat_size_t (N.of_nat (size attributes)) +:+ "." +:+ key in
  let inner_key :=
    StrCat_size_t (N.of_nat (S (size attributes))) +:+ "." +:+ key in
  attributes !! outer_key = None ->
  attributes !! inner_key = None ->
  let outer := FrontendAttributePusher_ctor key outer_value true attributes in
  let inner := FrontendAttributePusher_ctor key inner_value true outer.2 in
  key_ outer.1 = outer_key /\ key_ inner.1 = inner_key
  /\ outer_key <> inner_key
  /\ inner.2 !! outer_key = Some outer_value
  /\ inner.2 !! inner_key = Some inner_value
  /\ FrontendAttributePusher_dtor outer.1
       (FrontendAttributePusher_dtor inner.1 inner.2) = attributes.
Proof.
  intros outer_key inner_key Hk1 Hk2 outer inner.
  assert (Hne : outer_key <> inner_key).
  { intros Heq. apply prefixed_key_inj in Heq. lia. }
  assert (Houter : outer
            = ({| prefix_depth_ := true; key_ := outer_key;
                  previous_value_ := "" |},
               <[outer_key := outer_value]> attributes)).
  { subst outer. unfold FrontendAttributePusher_ctor.
    fold outer_key. rewrite Hk1. reflexivity. }
  assert (Hsize : size outer.2 = S (size attributes)).
  { rewrite Houter. cbn [snd]. apply map_size_insert_None, Hk1. }
  assert (Hk2' : outer.2 !! inner_key = None).
  { rewrite Houter. cbn [snd]. rewrite lookup_insert_ne by exact Hne.
    exact Hk2. }
  assert (Hinner : inner
            = ({| prefix_depth_ := true; key_ := inner_key;
                  previous_value_ := "" |},
               <[inner_key := inner_value]> outer.2)).
  { subst inner. unfold FrontendAttributePusher_ctor.
    rewrite Hsize. fold inner_key. rewrite Hk2'. reflexivity. }
  rewrite Hinner. cbn [fst snd key_].
  rewrite (FrontendAttributePusher_pop_after_absent _ _ _ _ Hk2').
  rewrite Houter. cbn [fst snd key_].
  split; [reflexivity|]. split; [reflexivity|]. split; [exact Hne|].
  split; [rewrite lookup_insert_ne by congruence; apply lookup_insert_eq|].
  split; [apply lookup_insert_eq|].
  apply FrontendAttributePusher_pop_after_absent, Hk1.
Qed.

Lemma FrontendAttributePusher_prefixed_nesting_witness :
  let attributes : gmap string string := ∅ in
  let outer_key := StrCat_size_t (N.of_nat (size attributes)) +:+ "." +:+ "k" in
  let inner_key :=
    StrCat_size_t (N.of_nat (S (size attributes))) +:+ "." +:+ "k" in
  let outer := FrontendAttributePusher_ctor "k" "a" true attributes in
  let inner := FrontendAttributePusher_ctor "k" "b" true outer.2 in
  key_ outer.1 = outer_key /\ key_ inner.1 = inner_key
  /\ outer_key <> inner_key
  /\ inner.2 !! outer_key = Some "a"
  /\ inner.2 !! inner_key = Some "b"
  /\ FrontendAttributePusher_dtor outer.1
       (FrontendAttributePusher_dtor inner.1 inner.2) = attributes.
Proof.
  intros attributes outer_key inner_key.
  apply (FrontendAttributePusher_prefixed_nesting "k" "a" "b" attributes).
  - reflexivity.
  - reflexivity.
Defined.

(** ** The attribute calls of the Python binding (lines 362-369) *)

(** X5: Removing a key and then adding it binds the key to the new value
    whatever it was bound to before, and changes no other key; adding a key
    and then removing it leaves the key absent, so that the map is the one
    before the two calls when the key was absent, and the old binding is
    gone when it was present. *)
Theorem PythonFrontendAttribute_add_remove key value
    (attributes : gmap string string) :
  PythonAddFrontendAttribute key value
    (PythonRemoveFrontendAttribute key attributes)
  = <[key := value]> attributes
  /\ PythonRemoveFrontendAttribute key
       (PythonAddFrontendAttribute key value attributes)
     = delete key attributes
  /\ (attributes !! key = None <->
      PythonRemoveFrontendAttribute key
        (PythonAddFrontendAttribute key value attributes) = attributes).
Proof.
  unfold PythonAddFrontendAttribute, PythonRemoveFrontendAttribute.
  rewrite lookup_delete_eq, insert_delete_eq.
  split; [reflexivity|].
  assert (Hdel : delete key
                   match attributes !! key with
                   | Some _ => attributes
                   | None => <[key := value]> attributes
                   end = delete key attributes).
  { destruct (attributes !! key); [reflexivity | apply delete_insert_eq]. }
  rewrite Hdel. split; [reflexivity|]. split.
  - apply delete_id.
  - intros Heq. rewrite <- Heq. apply lookup_delete_eq.
Qed.

(** ** Scope stack (lines 35-68, 304-312) *)

Lemma string_app_assoc (a b c : string) : (a +:+ b) +:+ c = a +:+ (b +:+ c).
Proof.
  induction a as [|x a IH]; [reflexivity|].
  change (String x ((a +:+ b) +:+ c) = String x (a +:+ (b +:+ c))).
  f_equal. exact IH.
Qed.

Lemma string_app_nonempty (a b : string) : b <> "" -> a +:+ b <> "".
Proof. destruct a; cbn; [auto | discriminate]. Qed.

Lemma string_empty_true s : string_empty s = true -> s = "".
Proof. destruct s; [reflexivity | discriminate]. Qed.

Lemma concat_slash_head (a x : string) (l : list string) :
  String.concat "/" ((a +:+ "/" +:+ x) :: l)
  = a +:+ "/" +:+ String.concat "/" (x :: l).
Proof.
  destruct l as [|y l]; [reflexivity|].
  cbn [String.concat]. rewrite !string_app_assoc. reflexivity.
Qed.

Lemma GetCurrentScope_fold (l : list ScapeEntry) (acc : string) :
  acc <> "" ->
  fold_left
    (fun scope scope_entry =>
       if string_empty scope
       then scope +:+ scape_name scope_entry
       else scope +:+ "/" +:+ scape_name scope_entry) l acc
  = String.concat "/" (acc :: (scape_name <$> l)).
Proof.
  revert acc. induction l as [|e l IH]; intros acc Hacc; [reflexivity|].
  cbn [fold_left]. rewrite (string_empty_false _ Hacc).
  rewrite IH.
  - rewrite fmap_cons. apply concat_slash_head.
  - intros Habs. destruct acc; [congruence | discriminate].
Qed.

(** The name that [PushScope] gives an entry is never empty. *)
Lemma PushScope_name_nonempty name (id : N) :
  name +:+ "." +:+ StrCat_size_t id <> "".
Proof. apply string_app_nonempty. discriminate. Qed.

(** X6: When no entry of the stack has an empty name, the current scope is
    the names of the entries from the outermost to the innermost, joined
    by "/"; [PushScope] keeps the stack in that state, and the scope after
    a push of [name] is the join extended by [name], a dot and the
    counter. *)
Theorem GetCurrentScope_is_join ctx name :
  scope_names_nonempty ctx ->
  GetCurrentScope ctx = String.concat "/" (scape_name <$> scopes ctx)
  /\ scope_names_nonempty (PushScope name ctx)
  /\ GetCurrentScope (PushScope name ctx)
     = String.concat "/"
         ((scape_name <$> scopes ctx)
          ++ [name +:+ "." +:+ StrCat_size_t (next_id ctx)]).
Proof.
  intros Hne.
  assert (Hjoin : forall c, scope_names_nonempty c ->
            GetCurrentScope c = String.concat "/" (scape_name <$> scopes c)).
  { intros c Hc. unfold GetCurrentScope, scope_names_nonempty in *.
    destruct (scopes c) as [|e l]; [reflexivity|].
    cbn [fold_left string_empty]. change ("" +:+ scape_name e) with (scape_name e).
    apply GetCurrentScope_fold. exact (Forall_inv Hc). }
  assert (Hpush : scope_names_nonempty (PushScope name ctx)).
  { unfold scope_names_nonempty, PushScope; cbn [scopes].
    apply Forall_app. split; [exact Hne|].
    constructor; [|constructor]. cbn [scape_name].
    apply PushScope_name_nonempty. }
  split; [apply Hjoin, Hne|]. split; [exact Hpush|].
  rewrite (Hjoin _ Hpush). unfold PushScope; cbn [scopes].
  rewrite fmap_app. reflexivity.
Qed.

Lemma GetCurrentScope_is_join_witness :
  GetCurrentScope (PushScope "a" g_scope_context_init)
  = String.concat "/"
      (scape_name <$> scopes (PushScope "a" g_scope_context_init))
  /\ scope_names_nonempty
       (PushScope "b" (PushScope "a" g_scope_context_init))
  /\ GetCurrentScope (PushScope "b" (PushScope "a" g_scope_context_init))
     = String.concat "/"
         ((scape_name <$> scopes (PushScope "a" g_scope_context_init))
          ++ ["b" +:+ "." +:+ StrCat_size_t
                (next_id (PushScope "a" g_scope_context_init))]).
Proof.
  apply (GetCurrentScope_is_join (PushScope "a" g_scope_context_init) "b").
  repeat constructor. discriminate.
Defined.

Lemma run_inner_eq (bs : list ScopeBlock) (c : ScopeContext) :
  (fix run_inner (bs : list ScopeBlock) (c : ScopeContext)
     : Outcome ScopeContext :=
     match bs with
     | [] => Done c
     | b' :: rest => c' ← run_block b' c; run_inner rest c'
     end) bs c
  = run_blocks bs c.
Proof.
  revert c. induction bs as [|b bs IH]; intros c; [reflexivity|].
  unfold run_blocks; cbn [foldM].
  destruct (run_block b c) as [c'|why]; [|reflexivity].
  cbn. apply IH.
Qed.

Lemma run_block_unfold name inner ctx :
  run_block (Block name inner) ctx
  = (ctx' ← run_blocks inner (PushScope name ctx); PopScope ctx').
Proof. cbn [run_block]. rewrite run_inner_eq. reflexivity. Qed.

Lemma run_blocks_cons b bs ctx :
  run_blocks (b :: bs) ctx = (c ← run_block b ctx; run_blocks bs c).
Proof. reflexivity. Qed.


Lemma run_blocks_restores (bs : list ScopeBlock) :
  Forall (fun b => forall ctx,
            (next_id ctx < size_t_modulus)%N ->
            run_block b ctx
            = Done {| scopes := scopes ctx;
                      next_id := ((next_id ctx + 1) mod size_t_modulus)%N |})
         bs ->
  forall ctx,
    (next_id ctx < size_t_modulus)%N ->
    run_blocks bs ctx
    = Done {| scopes := scopes ctx;
              next_id := ((next_id ctx + N.of_nat (length bs))
                          mod size_t_modulus)%N |}.
Proof.
  assert (HM : size_t_modulus <> 0%N) by discriminate.
  induction 1 as [|b bs Hb _ IH]; intros ctx Hlt.
  - cbn [run_blocks foldM length N.of_nat]. rewrite N.add_0_r.
    rewrite N.mod_small by exact Hlt. destruct ctx; reflexivity.
  - rewrite run_blocks_cons, (Hb ctx Hlt), Done_bind.
    rewrite IH by (cbn [next_id]; apply N.mod_lt, HM).
    cbn [scopes next_id]. rewrite N.Div0.add_mod_idemp_l.
    do 2 f_equal. cbn [length]. f_equal. lia.
Qed.

Lemma run_block_restores :
  forall b ctx,
    (next_id ctx < size_t_modulus)%N ->
    run_block b ctx
    = Done {| scopes := scopes ctx;
              next_id := ((next_id ctx + 1) mod size_t_modulus)%N |}.
Proof.
  fix IH 1. intros [name inner] ctx Hlt.
  assert (Hinner : Forall (fun b => forall ctx,
            (next_id ctx < size_t_modulus)%N ->
            run_block b ctx
            = Done {| scopes := scopes ctx;
                      next_id := ((next_id ctx + 1) mod size_t_modulus)%N |})
           inner).
  { clear ctx Hlt. induction inner as [|b l IHl]; constructor.
    - apply IH.
    - exact IHl. }
  clear IH. rewrite run_block_unfold.
  rewrite (run_blocks_restores inner Hinner) by reflexivity.
  rewrite Done_bind. unfold PopScope, PushScope; cbn [scopes next_id].
  rewrite last_snoc, removelast_last. reflexivity.
Qed.

(** X7: A sequence of blocks that each open a scope through a [ScopePusher],
    with further such blocks nested inside to any depth, ends with the
    scope stack it started with; the counter has advanced by the number of
    blocks of the sequence itself, so that their names at that level are
    numbered consecutively. *)
Theorem ScopePusher_blocks_restore_stack (bs : list ScopeBlock) ctx :
  (next_id ctx < size_t_modulus)%N ->
  run_blocks bs ctx
  = Done {| scopes := scopes ctx;
            next_id := ((next_id ctx + N.of_nat (length bs))
                        mod size_t_modulus)%N |}.
Proof.
  intros Hlt. apply run_blocks_restores; [|exact Hlt].
  apply Forall_forall. intros b _. apply run_block_restores.
Qed.

Lemma ScopePusher_blocks_restore_stack_witness :
  run_blocks [Block "a" [Block "b" []; Block "b" [Block "c" []]];
              Block "d" []]
             g_scope_context_init
  = Done {| scopes := scopes g_scope_context_init;
            next_id := ((next_id g_scope_context_init + N.of_nat 2)
                        mod size_t_modulus)%N |}.
Proof.
  apply (ScopePusher_blocks_restore_stack
           [Block "a" [Block "b" []; Block "b" [Block "c" []]];
            Block "d" []]
           g_scope_context_init).
  reflexivity.
Defined.

(** ** The order of uses (lines 100-108) *)

(** X8: On uses whose consumers are alive, [Use::operator<] is a strict weak
    order: no use is below itself, the order is asymmetric and transitive,
    and two uses are below neither one another exactly when their
    consumers have the same kind and the uses the same operand slot and
    output index, whichever nodes the consumers are. *)
Theorem Use_lt_strict_weak_order (h : Heap) a b c na nb :
  h !! use_node a = Some na -> h !! use_node b = Some nb ->
  use_live h c ->
  Use_lt h a a = Done false
  /\ (Use_lt h a b = Done true -> Use_lt h b a = Done false)
  /\ (Use_lt h a b = Done true -> Use_lt h b c = Done true ->
      Use_lt h a c = Done true)
  /\ (Use_lt h a b = Done false /\ Use_lt h b a = Done false
      <-> op_ na = op_ nb
          /\ use_operand_index a = use_operand_index b
          /\ use_index a = use_index b).
Proof.
  intros Ha Hb Hc.
  assert (Hla : use_live h a) by (eexists; exact Ha).
  assert (Hlb : use_live h b) by (eexists; exact Hb).
  rewrite !Use_lt_live by assumption.
  split; [rewrite key_lt_irrefl; reflexivity|].
  split; [intros [= Hab]; rewrite (key_lt_asym _ _ Hab); reflexivity|].
  split.
  { intros [= Hab] [= Hbc]. rewrite (key_lt_trans _ _ _ Hab Hbc). reflexivity. }
  split.
  - intros [[= Hab] [= Hba]]. pose proof (key_lt_total _ _ Hab Hba) as Hk.
    unfold use_key in Hk. rewrite Ha, Hb in Hk.
    injection Hk as Hop Hslot Hidx.
    split; [|split; assumption].
    destruct (op_ na), (op_ nb); cbn in Hop; congruence.
  - intros (Hop & Hslot & Hidx).
    assert (Hk : use_key h a = use_key h b).
    { unfold use_key. rewrite Ha, Hb, Hop, Hslot, Hidx. reflexivity. }
    rewrite Hk, key_lt_irrefl. split; reflexivity.
Qed.

(** ** Short frame information (lines 77-90) *)

Lemma find_last_of_slash (s : string) :
  match find_last_of s slash with
  | None => string_has slash s = false
  | Some pos =>
      exists dir base,
        s = dir +:+ "/" +:+ base
        /\ string_has slash base = false
        /\ substr s (S pos) = Done base
  end.
Proof.
  induction s as [|a s IH]; [reflexivity|].
  cbn [find_last_of]. destruct (find_last_of s slash) as [pos|].
  - destruct IH as (dir & base & Hs & Hbase & Hsub).
    exists (String a dir), base. split; [|split].
    + rewrite Hs. reflexivity.
    + exact Hbase.
    + exact Hsub.
  - destruct (Ascii.eqb a slash) eqn:Ha.
    + apply Ascii.eqb_eq in Ha. subst a.
      exists "", s. split; [reflexivity|]. split; [exact IH|].
      destruct s; reflexivity.
    + cbn [string_has]. rewrite Ha, IH. reflexivity.
Qed.

(** X9: [EmitShortFrameInfo] never fails; it writes nothing for an empty frame
    list, and otherwise appends the function of the first frame, the part
    of its file name after the last '/' (the whole name when it has none;
    that part holds no '/') and its line. *)
Theorem EmitShortFrameInfo_basename stream frames :
  match frames with
  | [] => EmitShortFrameInfo stream frames = Done stream
  | frame :: _ =>
      exists dir base,
        file frame = dir +:+ base
        /\ string_has slash base = false
        /\ (dir = "" \/ exists parent, dir = parent +:+ "/")
        /\ EmitShortFrameInfo stream frames
           = Done (stream +:+ ", location=" +:+ function frame +:+ "@"
                   +:+ base +:+ ":" +:+ ostream_int (line frame))
  end.
Proof.
  destruct frames as [|frame rest]; [reflexivity|].
  unfold EmitShortFrameInfo.
  pose proof (find_last_of_slash (file frame)) as Hfind.
  destruct (find_last_of (file frame) slash) as [pos|].
  - destruct Hfind as (dir & base & Hs & Hbase & Hsub).
    exists (dir +:+ "/"), base. split; [|split; [exact Hbase|split]].
    + rewrite Hs, string_app_assoc. reflexivity.
    + right. exists dir. reflexivity.
    + rewrite Hsub, Done_bind. reflexivity.
  - exists "", (file frame). split; [reflexivity|].
    split; [exact Hfind|]. split; [left; reflexivity|].
    destruct (file frame); reflexivity.
Qed.

(** ** What the operand bookkeeping leaves alone *)

Lemma operands_eq_refl h : operands_eq h h.
Proof. intros p; reflexivity. Qed.

Lemma operands_eq_trans h1 h2 h3 :
  operands_eq h1 h2 -> operands_eq h2 h3 -> operands_eq h1 h3.
Proof. intros H12 H23 p. rewrite H23. apply H12. Qed.

Lemma operands_eq_insert (h : Heap) p n n' :
  h !! p = Some n -> node_operands n' = node_operands n ->
  operands_eq h (<[p := n']> h).
Proof.
  intros Hp Hn q. destruct (decide (p = q)) as [<-|Hne].
  - rewrite lookup_insert_eq, Hp. cbn. congruence.
  - rewrite lookup_insert_ne by done. reflexivity.
Qed.

Lemma operands_eq_lookup h h' p n :
  operands_eq h h' -> h !! p = Some n ->
  exists n', h' !! p = Some n'
             /\ operands_ n' = operands_ n
             /\ operands_as_outputs_ n' = operands_as_outputs_ n.
Proof.
  intros Hop Hp. specialize (Hop p). rewrite Hp in Hop.
  destruct (h' !! p) as [n'|]; cbn in Hop; [|discriminate].
  exists n'. split; [reflexivity|].
  unfold node_operands in Hop. split; congruence.
Qed.

Lemma AddUse_operands self use h h' :
  AddUse self use h = Done h' -> operands_eq h h'.
Proof.
  unfold AddUse; intros Hrun.
  bind_inv Hrun n Hn. bind_inv Hrun us Hus. injection Hrun as <-.
  apply deref_Done in Hn.
  eapply operands_eq_insert; [exact Hn | reflexivity].
Qed.

Lemma RemoveUse_operands self use h h' :
  RemoveUse self use h = Done h' -> operands_eq h h'.
Proof.
  unfold RemoveUse; intros Hrun.
  bind_inv Hrun n Hn. bind_inv Hrun us Hus. injection Hrun as <-.
  apply deref_Done in Hn.
  eapply operands_eq_insert; [exact Hn | reflexivity].
Qed.

(** The call writes the slot of the consumer and no other operand. *)
Lemma ReplaceOperand_operands this operand_no node index (h h' : Heap) t :
  ReplaceOperand this operand_no node index h = Done h' ->
  h !! this = Some t ->
  (exists t',
     h' !! this = Some t'
     /\ operands_ t' = <[operand_no := node]> (operands_ t)
     /\ operands_as_outputs_ t'
        = <[operand_no := mkOutput node index]> (operands_as_outputs_ t))
  /\ forall q, q <> this ->
       node_operands <$> h' !! q = node_operands <$> h !! q.
Proof.
  unfold ReplaceOperand; intros Hrun Ht.
  bind_inv Hrun n Hn. bind_inv Hrun chk Hchk. bind_inv Hrun t0 Ht0.
  bind_inv Hrun output Hout. bind_inv Hrun old Hold.
  bind_inv Hrun h1 Hrem. bind_inv Hrun h2 Hadd. bind_inv Hrun t2 Ht2.
  injection Hrun as <-. apply deref_Done in Ht2.
  pose proof (operands_eq_trans _ _ _ (RemoveUse_operands _ _ _ _ Hrem)
                (AddUse_operands _ _ _ _ Hadd)) as Heq.
  split.
  - destruct (operands_eq_lookup _ _ _ _ Heq Ht) as (t2' & Ht2' & Hops & Houts).
    assert (t2' = t2) by congruence. subst t2'.
    eexists. split; [apply lookup_insert_eq|]. cbn. rewrite Hops, Houts. auto.
  - intros q Hq. rewrite lookup_insert_ne by congruence. apply Heq.
Qed.

(** ** [Node::ReplaceOperand] (lines 224-231) *)

(** X10: On a graph that satisfies the invariant, replacing an operand slot
    that exists of a consumer that a caller holds by an output that exists
    succeeds, together with the release of the handle on the old operand,
    and keeps the invariant.  The consumer has the new operand in that
    slot and its other slots as before, and the new operand is alive.
    Every node that remains was there before, with its kind, output count,
    shape, hashes and metadata and, apart from the consumer, its operands;
    every node that a caller holds remains.  When a caller or an operand
    slot still holds the old operand after the assignment, the graph is the
    one that the bookkeeping of the call leaves and no node is destroyed;
    otherwise the old operand is destroyed. *)
Theorem ReplaceOperand_postcondition (h : Heap) this t operand_no node n
    index roots :
  heap_wf h -> h !! this = Some t ->
  operand_no < length (operands_as_outputs_ t) ->
  h !! node = Some n -> index < num_outputs_ n ->
  this ∈ roots ->
  exists old h1 h' t',
    operands_ t !! operand_no = Some old
    /\ ReplaceOperand this operand_no node index h = Done h1
    /\ ReplaceOperand_owned roots this operand_no node index h
       = Some (Done h')
    /\ heap_wf h'
    /\ h' !! this = Some t'
    /\ operands_ t' = <[operand_no := node]> (operands_ t)
    /\ operands_as_outputs_ t'
       = <[operand_no := mkOutput node index]> (operands_as_outputs_ t)
    /\ is_Some (h' !! node)
    /\ (forall q m',
          h' !! q = Some m' ->
          exists m,
            h !! q = Some m
            /\ node_static m' = node_static m
            /\ (q <> this ->
                operands_ m' = operands_ m
                /\ operands_as_outputs_ m' = operands_as_outputs_ m))
    /\ (forall q, q ∈ roots -> is_Some (h !! q) -> is_Some (h' !! q))
    /\ (held roots h1 old = true ->
        h' = h1 /\ forall q, is_Some (h !! q) -> is_Some (h' !! q))
    /\ (held roots h1 old = false -> h' !! old = None).
Proof.
  intros Hwf Ht Hno Hn Hidx Hroot.
  destruct (ReplaceOperand_wf h this t operand_no node n index
              Hwf Ht Hno Hn Hidx) as (h1 & Hrun & Hwf1 & Hstep).
  destruct (ReplaceOperand_operands _ _ _ _ _ _ _ Hrun Ht)
    as ((t1 & Ht1 & Hops & Houts) & Hothers).
  pose proof (ReplaceOperand_static _ _ _ _ _ _ Hrun) as Hstatic.
  pose proof (Hwf _ _ Ht) as [_ _ Hagree Hoperands].
  destruct (lookup_lt_is_Some_2 _ _ Hno) as [o Ho].
  assert (Hold : operands_ t !! operand_no = Some (out_node o)).
  { rewrite Hagree, list_lookup_fmap, Ho. reflexivity. }
  assert (Hold_alive : is_Some (h1 !! out_node o)).
  { rewrite Forall_lookup in Hoperands.
    destruct (Hoperands _ _ Ho) as (pn & Hpn & _).
    destruct (Hstep _ _ Hpn) as (pn' & Hpn' & _). eauto. }
  (* what the bookkeeping leaves, read against the heap before the call *)
  assert (Hframe1 : forall q m1,
            h1 !! q = Some m1 ->
            exists m,
              h !! q = Some m
              /\ node_static m1 = node_static m
              /\ (q <> this ->
                  operands_ m1 = operands_ m
                  /\ operands_as_outputs_ m1 = operands_as_outputs_ m)).
  { intros q m1 Hq. pose proof (Hstatic q) as Hsq. rewrite Hq in Hsq.
    destruct (h !! q) as [m|] eqn:Hm; cbn in Hsq; [|discriminate].
    exists m. split; [reflexivity|]. split; [congruence|].
    intros Hne. specialize (Hothers q Hne). rewrite Hq, Hm in Hothers.
    cbn in Hothers. unfold node_operands in Hothers. split; congruence. }
  assert (Hall1 : forall q, is_Some (h !! q) -> is_Some (h1 !! q)).
  { intros q [m Hm]. destruct (Hstep _ _ Hm) as (m' & Hm' & _). eauto. }
  assert (Hnode : forall (hx : Heap) tx,
            heap_wf hx -> hx !! this = Some tx ->
            operands_as_outputs_ tx
            = <[operand_no := mkOutput node index]> (operands_as_outputs_ t) ->
            is_Some (hx !! node)).
  { intros hx tx Hwfx Htx Hox.
    pose proof (wf_operands _ _ _ (Hwfx _ _ Htx)) as Hopx.
    rewrite Forall_lookup in Hopx.
    destruct (Hopx operand_no (mkOutput node index)) as (nx & Hnx & _);
      [rewrite Hox; apply list_lookup_insert_eq, Hno | eauto]. }
  exists (out_node o), h1.
  unfold ReplaceOperand_owned. rewrite Hrun, Ht. cbn [mbind option_bind].
  rewrite Hold. cbn [release_handles app].
  destruct (held roots h1 (out_node o)) eqn:Hheld.
  - exists h1, t1. split; [reflexivity|]. split; [reflexivity|].
    split; [reflexivity|]. split; [exact Hwf1|]. split; [exact Ht1|].
    split; [exact Hops|]. split; [exact Houts|].
    split; [exact (Hnode h1 t1 Hwf1 Ht1 Houts)|].
    split; [exact Hframe1|].
    split; [intros q _ Hq; apply Hall1, Hq|].
    split; [intros _; split; [reflexivity | exact Hall1] | discriminate].
  - destruct (held_false _ _ _ Hheld) as [Hnotin Hunheld].
    destruct Hold_alive as [tp Htp].
    destruct (Node_destroy_ok (size h1) roots (out_node o) h1 tp
                (le_n _) Hwf1 Htp Hunheld)
      as (h' & Hdes & Hwf' & Hgone & Hsurv & _ & Hkeep).
    rewrite Hdes.
    assert (Hne : this <> out_node o).
    { intros E. apply Hnotin. rewrite <- E. exact Hroot. }
    destruct (Hkeep this Hroot Hne (ex_intro _ t1 Ht1)) as [t' Ht'].
    destruct (Hsurv _ _ Ht') as (t1' & Ht1' & Hst' & Hops' & Houts' & _).
    assert (t1' = t1) by congruence. subst t1'.
    exists h', t'. split; [reflexivity|]. split; [reflexivity|].
    split; [reflexivity|]. split; [exact Hwf'|]. split; [exact Ht'|].
    split; [congruence|]. split; [congruence|].
    split; [apply (Hnode h' t' Hwf' Ht'); congruence|].
    split; [|split; [|split; [discriminate | intros _; exact Hgone]]].
    + intros q m' Hq.
      destruct (Hsurv _ _ Hq) as (m1 & Hm1 & Hs1 & Ho1 & Hoo1 & _).
      destruct (Hframe1 _ _ Hm1) as (m & Hm & Hs & Hrest).
      exists m. split; [exact Hm|]. split; [congruence|].
      intros Hq'. destruct (Hrest Hq') as [E1 E2]. split; congruence.
    + intros q Hq Hq'. apply Hkeep; [exact Hq | | apply Hall1, Hq'].
      intros E. apply Hnotin. rewrite <- E. exact Hq.
Qed.

(** X11: With the consumer and the new operand alive in a graph that satisfies
    the invariant, [ReplaceOperand] succeeds exactly when the output index
    is below the output count of the new operand and the slot is one the
    consumer has; an output index out of range fails the check first, and
    a slot out of range alone is the range error of [at]. *)
Theorem ReplaceOperand_succeeds_iff (h : Heap) this t operand_no node n
    index :
  heap_wf h -> h !! this = Some t -> h !! node = Some n ->
  (is_Done (ReplaceOperand this operand_no node index h)
   <-> index < num_outputs_ n
       /\ operand_no < length (operands_as_outputs_ t))
  /\ (num_outputs_ n <= index ->
      ReplaceOperand this operand_no node index h = Fatal XlaCheckFailed)
  /\ (index < num_outputs_ n ->
      length (operands_as_outputs_ t) <= operand_no ->
      ReplaceOperand this operand_no node index h = Fatal StdOutOfRange).
Proof.
  intros Hwf Ht Hn.
  assert (Hbad : num_outputs_ n <= index ->
            ReplaceOperand this operand_no node index h
            = Fatal XlaCheckFailed).
  { intros Hge. unfold ReplaceOperand.
    rewrite (deref_Some _ _ _ Hn), Done_bind.
    rewrite (proj2 (Nat.ltb_ge _ _) Hge). reflexivity. }
  assert (Hslot : index < num_outputs_ n ->
            length (operands_as_outputs_ t) <= operand_no ->
            ReplaceOperand this operand_no node index h
            = Fatal StdOutOfRange).
  { intros Hlt Hge. unfold ReplaceOperand.
    rewrite (deref_Some _ _ _ Hn), Done_bind.
    rewrite (proj2 (Nat.ltb_lt _ _) Hlt). unfold XLA_CHECK.
    rewrite Done_bind, (deref_Some _ _ _ Ht), Done_bind.
    rewrite (lookup_ge_None_2 _ _ Hge). reflexivity. }
  split; [|split; assumption]. split.
  - intros Hdone.
    destruct (Nat.lt_ge_cases index (num_outputs_ n)) as [Hlt|Hge];
      [|rewrite (Hbad Hge) in Hdone; contradiction].
    split; [exact Hlt|].
    destruct (Nat.lt_ge_cases operand_no (length (operands_as_outputs_ t)))
      as [Hlt'|Hge]; [exact Hlt'|].
    rewrite (Hslot Hlt Hge) in Hdone. contradiction.
  - intros [Hlt Hlt'].
    destruct (ReplaceOperand_wf h this t operand_no node n index
                Hwf Ht Hlt' Hn Hlt) as (h' & Hrun & _).
    rewrite Hrun. exact I.
Qed.

(** ** The constructor with operands (lines 152-173, 217-222) *)

Lemma AddOperand_operands this node index (h h' : Heap) t :
  AddOperand this node index h = Done h' ->
  h !! this = Some t ->
  (exists t',
     h' !! this = Some t'
     /\ operands_ t' = operands_ t ++ [node]
     /\ operands_as_outputs_ t'
        = operands_as_outputs_ t ++ [mkOutput node index]
     /\ (node <> this -> uses_ t' = uses_ t))
  /\ forall q, q <> this ->
       node_operands <$> h' !! q = node_operands <$> h !! q.
Proof.
  unfold AddOperand; intros Hrun Ht.
  bind_inv Hrun n Hn. bind_inv Hrun chk Hchk. bind_inv Hrun t0 Ht0.
  apply deref_Done in Ht0. assert (t0 = t) by congruence. subst t0.
  pose proof (AddUse_operands _ _ _ _ Hrun) as Heq.
  set (t1 := set_operands _ _ t) in *.
  split.
  - destruct (operands_eq_lookup _ _ _ _ Heq (lookup_insert_eq h this t1))
      as (t' & Ht' & Hops & Houts).
    exists t'. split; [exact Ht'|]. split; [exact Hops|].
    split; [exact Houts|]. intros Hne.
    unfold AddUse in Hrun.
    bind_inv Hrun n1 Hn1. bind_inv Hrun us Hus. injection Hrun as <-.
    rewrite lookup_insert_ne in Ht' by exact Hne.
    rewrite lookup_insert_eq in Ht'. injection Ht' as <-. reflexivity.
  - intros q Hq. rewrite Heq. rewrite lookup_insert_ne by congruence.
    reflexivity.
Qed.

Lemma node_fixed_set_hash x n n' :
  node_static n' = node_static n -> node_fixed (set_hash x n') = node_fixed n.
Proof.
  unfold node_static, node_fixed. intros [= ? ? ? ? ? ? ?]. cbn. congruence.
Qed.

Section ConstructorOperands.
Context `{XlaUtil}.

Lemma Node_ctor_loop_operands this operands :
  forall (hk : Heap) tk h',
    hk !! this = Some tk ->
    Forall (fun v => val_node v <> this) operands ->
    foldM (Node_ctor_step this) operands hk = Done h' ->
    exists t',
      h' !! this = Some t'
      /\ operands_ t' = operands_ tk ++ (val_node <$> operands)
      /\ operands_as_outputs_ t'
         = operands_as_outputs_ tk ++ (Value_output <$> operands)
      /\ uses_ t' = uses_ tk
      /\ node_fixed t' = node_fixed tk
      /\ forall q, q <> this ->
           node_operands <$> h' !! q = node_operands <$> hk !! q
           /\ node_static <$> h' !! q = node_static <$> hk !! q.
Proof.
  induction operands as [|v operands IH]; intros hk tk h' Htk Hne Hrun.
  - injection Hrun as <-. exists tk. rewrite !app_nil_r. auto 10.
  - cbn [foldM] in Hrun. bind_inv Hrun h2 Hstep.
    apply Forall_cons in Hne as [Hv Hne].
    unfold Node_ctor_step in Hstep.
    bind_inv Hstep h1 Hadd. bind_inv Hstep oh Hvh. bind_inv Hstep t1 Ht1.
    injection Hstep as <-. apply deref_Done in Ht1.
    destruct (AddOperand_operands _ _ _ _ _ _ Hadd Htk)
      as ((t1' & Ht1' & Hops & Houts & Huses) & Hothers).
    assert (t1' = t1) by congruence. subst t1'.
    pose proof (AddOperand_static _ _ _ _ _ Hadd) as Hst.
    destruct (static_eq_lookup _ _ _ _ Hst Htk) as (t1' & Ht1'' & Hs1).
    assert (t1' = t1) by congruence. subst t1'.
    destruct (IH _ (set_hash (HashCombine (hash_ t1) oh) t1) h'
                (lookup_insert_eq _ _ _) Hne Hrun)
      as (t' & Ht' & Hops' & Houts' & Huses' & Hfix' & Hothers').
    exists t'. split; [exact Ht'|].
    split; [rewrite Hops'; cbn; rewrite Hops, <- app_assoc; reflexivity|].
    split; [rewrite Houts'; cbn; rewrite Houts, <- app_assoc; reflexivity|].
    split; [rewrite Huses'; cbn; apply Huses, Hv|].
    split; [rewrite Hfix'; apply node_fixed_set_hash, Hs1|].
    intros q Hq. destruct (Hothers' q Hq) as [Ho Hs].
    rewrite lookup_insert_ne in Ho, Hs by congruence.
    split; [rewrite Ho; apply Hothers, Hq | rewrite Hs; apply Hst].
Qed.

(** X12: Built over a graph that satisfies the invariant, at a free address
    and from operands that are alive and have the outputs referred to, the
    constructor succeeds and the graph with the new node satisfies the
    invariant; the node has the operands in the order given, no use, the
    kind, output count and shape passed in, and as metadata the current
    scope string, the frames that [GetFrameInfo] returns and a copy of the
    attribute map; no other node changes its operands or any member but
    its uses. *)
Theorem Node_ctor_postcondition env tc this o operands shape num_outputs
    hash_seed (h : Heap) :
  heap_wf h -> h !! this = None -> Forall (value_ok h) operands ->
  exists h' t,
    Node_ctor env tc this o operands shape num_outputs hash_seed h = Done h'
    /\ heap_wf h'
    /\ h' !! this = Some t
    /\ operands_ t = val_node <$> operands
    /\ operands_as_outputs_ t = Value_output <$> operands
    /\ uses_ t = []
    /\ op_ t = o /\ num_outputs_ t = num_outputs /\ shape_ t = shape
    /\ node_hash_ t = HashCombine (OpKind_hash o) hash_seed
    /\ is_autograd_ t = is_autograd_thread env
    /\ metadata_ t
       = {| scope := GetCurrentScope (g_scope_context tc);
            frame_info := GetFrameInfo env;
            frontend_attributes := g_frontend_attribute_context tc |}
    /\ forall q m, h !! q = Some m ->
         exists m', h' !! q = Some m'
                    /\ node_static m' = node_static m
                    /\ operands_ m' = operands_ m
                    /\ operands_as_outputs_ m' = operands_as_outputs_ m.
Proof.
  intros Hwf Hfresh Hops.
  destruct (Node_ctor_wf env tc this o operands shape num_outputs hash_seed
              h Hwf Hfresh Hops) as (h' & Hrun & Hwf' & _).
  pose proof Hrun as Hloop. unfold Node_ctor in Hloop.
  set (init := Node_init env tc o shape num_outputs _) in Hloop.
  destruct (Node_ctor_loop_operands this operands (<[this := init]> h)
              init h') as (t & Ht & Hto & Htoo & Htu & Hfix & Hothers).
  - apply lookup_insert_eq.
  - eapply Forall_impl; [exact Hops|]. intros v (n & Hn & _) Heq.
    congruence.
  - exact Hloop.
  - exists h', t. split; [exact Hrun|]. split; [exact Hwf'|].
    split; [exact Ht|]. split; [exact Hto|]. split; [exact Htoo|].
    split; [exact Htu|].
    unfold node_fixed in Hfix. injection Hfix as E1 E2 E3 E4 E5 E6.
    split; [exact E1|]. split; [exact E2|]. split; [exact E3|].
    split; [exact E4|]. split; [exact E5|]. split; [exact E6|].
    intros q m Hm.
    assert (Hq : q <> this) by congruence.
    destruct (Hothers q Hq) as [Ho Hs].
    rewrite lookup_insert_ne, Hm in Ho, Hs by congruence.
    destruct (h' !! q) as [m'|]; cbn in Ho, Hs; [|discriminate].
    exists m'. split; [reflexivity|].
    unfold node_operands in Ho.
    split; [congruence|]. split; congruence.
Qed.

(** X13: The constructor checks each operand as it comes to it: when the
    operands before it are in order and one names an output index that its
    node does not have, the construction stops with a failed check. *)
Theorem Node_ctor_rejects_missing_output env tc this o before v after shape
    num_outputs hash_seed (h : Heap) n :
  heap_wf h -> h !! this = None -> Forall (value_ok h) before ->
  h !! val_node v = Some n -> num_outputs_ n <= val_index v ->
  Node_ctor env tc this o (before ++ v :: after) shape num_outputs
            hash_seed h
  = Fatal XlaCheckFailed.
Proof.
  intros Hwf Hfresh Hops Hn Hge.
  destruct (Node_ctor_wf env tc this o before shape num_outputs hash_seed
              h Hwf Hfresh Hops) as (hk & Hrun & _ & Hstep).
  unfold Node_ctor in *. rewrite foldM_app, Hrun, Done_bind.
  destruct (Hstep _ _ Hn) as (n' & Hn' & _ & Hnum & _).
  cbn [foldM]. unfold Node_ctor_step, AddOperand.
  rewrite (deref_Some _ _ _ Hn'), Done_bind.
  rewrite Hnum, (proj2 (Nat.ltb_ge _ _) Hge). reflexivity.
Qed.

End ConstructorOperands.

(** ** [Node::ReplaceAllUsesWith] (lines 233-240) *)



(** ** The destruction of a node (lines 203-207 and the release of its
    operand handles) *)



(** ** Replacing an operand by itself *)

Lemma key_insert_erase (k : Use -> UseKey) u l :
  key_sorted k l -> u ∈ l -> key_insert k u (key_erase k u l) = l.
Proof.
  unfold key_sorted. induction l as [|x l IH]; intros Hs Hu.
  - apply elem_of_nil in Hu. contradiction.
  - apply StronglySorted_cons in Hs as [Hall Hs].
    rewrite Forall_forall in Hall.
    apply elem_of_cons in Hu as [<-|Hu].
    + cbn [key_erase]. rewrite key_lt_irrefl.
      destruct l as [|y l]; [reflexivity|].
      cbn [key_insert]. rewrite (Hall y) by left. reflexivity.
    + pose proof (Hall u Hu) as Hxu.
      cbn [key_erase]. rewrite (key_lt_asym _ _ Hxu), Hxu.
      cbn [key_insert]. rewrite (key_lt_asym _ _ Hxu), Hxu.
      f_equal. apply IH; assumption.
Qed.

Lemma set_uses_id n : set_uses (uses_ n) n = n.
Proof. destruct n; reflexivity. Qed.

Lemma set_operands_id n : set_operands (operands_ n) (operands_as_outputs_ n) n = n.
Proof. destruct n; reflexivity. Qed.

(** X16: Replacing an operand by the output it already is changes nothing,
    provided that the use of the consumer is among the uses the operand
    has recorded. *)
Theorem ReplaceOperand_same_operand (h : Heap) this t operand_no node n
    index :
  heap_wf h -> h !! this = Some t -> h !! node = Some n -> node <> this ->
  operands_as_outputs_ t !! operand_no = Some (mkOutput node index) ->
  mkUse this operand_no index ∈ uses_ n ->
  ReplaceOperand this operand_no node index h = Done h.
Proof.
  intros Hwf Ht Hn Hne Hslot Huse.
  pose proof (Hwf _ _ Ht) as [_ _ Hagree Hoperands].
  pose proof (Hwf _ _ Hn) as [Hsorted _ _ _].
  assert (Hidx : index < num_outputs_ n).
  { rewrite Forall_forall in Hoperands.
    destruct (Hoperands _ (list_elem_of_lookup_2 _ _ _ Hslot))
      as (n' & Hn' & Hlt). cbn in Hn', Hlt. congruence. }
  assert (Hno : operand_no < length (operands_as_outputs_ t))
    by (eapply lookup_lt_Some; exact Hslot).
  destruct (ReplaceOperand_result h this t operand_no node n index
              Hwf Ht Hno Hn Hidx)
    as (o & pn & t1 & n1b & Ho & Hpn & Ht1 & _ & Hn1b & Hrun & _).
  assert (o = mkOutput node index) by congruence. subst o.
  cbn [out_node out_index] in *.
  assert (pn = n) by congruence. subst pn.
  unfold replaced_erase in Ht1, Hn1b, Hrun. cbn [out_node out_index] in *.
  rewrite lookup_insert_ne in Ht1 by exact Hne.
  assert (t1 = t) by congruence. subst t1.
  unfold replaced_slot in Hn1b, Hrun.
  rewrite lookup_insert_ne, lookup_insert_eq in Hn1b by congruence.
  injection Hn1b as <-.
  rewrite Hrun. f_equal. unfold replaced_insert. cbn [uses_ set_uses].
  rewrite (key_insert_erase _ _ _ Hsorted Huse).
  assert (Hps : operands_ t !! operand_no = Some node).
  { rewrite Hagree, list_lookup_fmap, Hslot. reflexivity. }
  rewrite (list_insert_id _ _ _ Hps), (list_insert_id _ _ _ Hslot).
  rewrite set_operands_id.
  change (set_uses (uses_ n) _) with (set_uses (uses_ n) n).
  rewrite set_uses_id.
  rewrite insert_insert_ne by exact Hne.
  rewrite insert_insert_eq.
  rewrite (insert_id h node n Hn). apply insert_id, Ht.
Qed.

(** ** Undoing a replacement *)

Lemma key_erase_insert (k : Use -> UseKey) u l :
  (forall y, y ∈ l -> k y <> k u) -> key_erase k u (key_insert k u l) = l.
Proof.
  induction l as [|x l IH]; intros Hfree.
  - cbn. rewrite key_lt_irrefl. reflexivity.
  - cbn [key_insert].
    destruct (key_lt (k u) (k x)) eqn:Hux.
    + cbn [key_erase]. rewrite key_lt_irrefl. reflexivity.
    + destruct (key_lt (k x) (k u)) eqn:Hxu.
      * cbn [key_erase]. rewrite Hux, Hxu. f_equal.
        apply IH. intros y Hy. apply Hfree. right. exact Hy.
      * exfalso. apply (Hfree x); [left|].
        apply key_lt_total; assumption.
Qed.

Lemma use_key_static h h' x :
  static_eq h h' -> use_key h' x = use_key h x.
Proof.
  intros Hst. specialize (Hst (use_node x)). unfold use_key.
  destruct (h !! use_node x) as [m|], (h' !! use_node x) as [m'|];
    cbn in Hst; try discriminate; [|reflexivity].
  assert (Hs : node_static m' = node_static m) by congruence.
  apply node_static_hash in Hs as (_ & _ & _ & -> & _). reflexivity.
Qed.

(** The heap that [ReplaceOperand] returns when the consumer, the old
    operand and the new operand are three different nodes. *)
Lemma ReplaceOperand_distinct (h : Heap) this t operand_no old n_old i
    node n index :
  heap_wf h -> h !! this = Some t ->
  operands_as_outputs_ t !! operand_no = Some (mkOutput old i) ->
  h !! old = Some n_old -> h !! node = Some n -> index < num_outputs_ n ->
  old <> this -> node <> this -> old <> node ->
  ReplaceOperand this operand_no node index h
  = Done (<[node := set_uses (key_insert (use_key h)
                                (mkUse this operand_no index) (uses_ n)) n]>
            (<[this := set_operands
                         (<[operand_no := node]> (operands_ t))
                         (<[operand_no := mkOutput node index]>
                            (operands_as_outputs_ t)) t]>
               (<[old := set_uses (key_erase (use_key h)
                                     (mkUse this operand_no i) (uses_ n_old))
                                  n_old]> h)))
  /\ heap_wf (<[node := set_uses (key_insert (use_key h)
                                   (mkUse this operand_no index) (uses_ n)) n]>
               (<[this := set_operands
                            (<[operand_no := node]> (operands_ t))
                            (<[operand_no := mkOutput node index]>
                               (operands_as_outputs_ t)) t]>
                  (<[old := set_uses (key_erase (use_key h)
                                        (mkUse this operand_no i)
                                        (uses_ n_old)) n_old]> h))).
Proof.
  intros Hwf Ht Hslot Hold Hn Hidx Hot Hnt Hon.
  assert (Hno : operand_no < length (operands_as_outputs_ t))
    by (eapply lookup_lt_Some; exact Hslot).
  destruct (ReplaceOperand_result h this t operand_no node n index
              Hwf Ht Hno Hn Hidx)
    as (o & pn & t1 & n1b & Ho & Hpn & Ht1 & _ & Hn1b & Hrun & Hwf' & _).
  assert (o = mkOutput old i) by congruence. subst o.
  cbn [out_node out_index] in *.
  assert (pn = n_old) by congruence. subst pn.
  unfold replaced_erase in Ht1, Hn1b, Hrun, Hwf'.
  cbn [out_node out_index] in *.
  rewrite lookup_insert_ne in Ht1 by exact Hot.
  assert (t1 = t) by congruence. subst t1.
  unfold replaced_slot in Hn1b, Hrun, Hwf'.
  rewrite !lookup_insert_ne in Hn1b by congruence.
  assert (n1b = n) by congruence. subst n1b.
  unfold replaced_insert in Hrun, Hwf'. split; assumption.
Qed.

(** X17: Replacing an operand and then putting the old one back gives back the
    graph, provided that the use of the consumer was among the uses the old
    operand had recorded and that the new operand had no use recorded from
    a consumer of the same kind at that slot and output index; the
    consumer and the two operands are three different nodes. *)
Theorem ReplaceOperand_round_trip (h : Heap) this t operand_no old n_old i
    node n index :
  heap_wf h -> h !! this = Some t ->
  operands_as_outputs_ t !! operand_no = Some (mkOutput old i) ->
  h !! old = Some n_old -> h !! node = Some n -> index < num_outputs_ n ->
  old <> this -> node <> this -> old <> node ->
  mkUse this operand_no i ∈ uses_ n_old ->
  (forall y, y ∈ uses_ n ->
             use_key h y <> use_key h (mkUse this operand_no index)) ->
  (ReplaceOperand this operand_no node index h
   ≫= ReplaceOperand this operand_no old i) = Done h.
Proof.
  intros Hwf Ht Hslot Hold Hn Hidx Hot Hnt Hon Hrec Hfree.
  pose proof (Hwf _ _ Ht) as [_ _ Hagree Hoperands].
  pose proof (Hwf _ _ Hold) as [Hsorted _ _ _].
  assert (Hi : i < num_outputs_ n_old).
  { rewrite Forall_forall in Hoperands.
    destruct (Hoperands _ (list_elem_of_lookup_2 _ _ _ Hslot))
      as (n' & Hn' & Hlt). cbn in Hn', Hlt. congruence. }
  assert (Hno : operand_no < length (operands_as_outputs_ t))
    by (eapply lookup_lt_Some; exact Hslot).
  assert (Hps : operands_ t !! operand_no = Some old).
  { rewrite Hagree, list_lookup_fmap, Hslot. reflexivity. }
  destruct (ReplaceOperand_distinct h this t operand_no old n_old i node n
              index Hwf Ht Hslot Hold Hn Hidx Hot Hnt Hon) as [Hrun1 Hwf1].
  set (n_old1 := set_uses (key_erase (use_key h) (mkUse this operand_no i)
                             (uses_ n_old)) n_old) in *.
  set (t1 := set_operands (<[operand_no := node]> (operands_ t))
               (<[operand_no := mkOutput node index]>
                  (operands_as_outputs_ t)) t) in *.
  set (n1 := set_uses (key_insert (use_key h) (mkUse this operand_no index)
                         (uses_ n)) n) in *.
  set (h1 := <[node := n1]> (<[this := t1]> (<[old := n_old1]> h))) in *.
  assert (Hkey : forall x, use_key h1 x = use_key h x).
  { intros x. apply use_key_static.
    eapply ReplaceOperand_static; exact Hrun1. }
  assert (Ht1 : h1 !! this = Some t1).
  { unfold h1. rewrite lookup_insert_ne by congruence.
    apply lookup_insert_eq. }
  assert (Hold1 : h1 !! old = Some n_old1).
  { unfold h1. rewrite !lookup_insert_ne by congruence.
    apply lookup_insert_eq. }
  assert (Hn1 : h1 !! node = Some n1) by apply lookup_insert_eq.
  assert (Hslot1 : operands_as_outputs_ t1 !! operand_no
                   = Some (mkOutput node index)).
  { cbn. apply list_lookup_insert_eq, Hno. }
  destruct (ReplaceOperand_distinct h1 this t1 operand_no node n1 index
              old n_old1 i Hwf1 Ht1 Hslot1 Hn1 Hold1)
    as [Hrun2 _]; [exact Hi | congruence ..|].
  rewrite Hrun1, Done_bind, Hrun2. f_equal.
  rewrite (key_insert_ext (use_key h) (use_key h1)) by exact Hkey.
  rewrite (key_erase_ext (use_key h) (use_key h1)) by exact Hkey.
  assert (EA : set_uses (key_insert (use_key h) (mkUse this operand_no i)
                           (uses_ n_old1)) n_old1 = n_old).
  { unfold n_old1. cbn [uses_ set_uses].
    rewrite (key_insert_erase _ _ _ Hsorted Hrec).
    change (set_uses (uses_ n_old) _) with (set_uses (uses_ n_old) n_old).
    apply set_uses_id. }
  assert (EB : set_uses (key_erase (use_key h) (mkUse this operand_no index)
                           (uses_ n1)) n1 = n).
  { unfold n1. cbn [uses_ set_uses].
    rewrite (key_erase_insert _ _ _ Hfree).
    change (set_uses (uses_ n) _) with (set_uses (uses_ n) n).
    apply set_uses_id. }
  assert (ET : set_operands (<[operand_no := old]> (operands_ t1))
                 (<[operand_no := mkOutput old i]>
                    (operands_as_outputs_ t1)) t1 = t).
  { unfold t1. cbn [operands_ operands_as_outputs_ set_operands].
    rewrite !list_insert_insert_eq.
    rewrite (list_insert_id _ _ _ Hps), (list_insert_id _ _ _ Hslot).
    change (set_operands (operands_ t) (operands_as_outputs_ t) _)
      with (set_operands (operands_ t) (operands_as_outputs_ t) t).
    apply set_operands_id. }
  rewrite EA, EB, ET. unfold h1.
  apply map_eq. intros q.
  destruct (decide (q = old)) as [->|Hqo];
    [rewrite lookup_insert_eq; symmetry; exact Hold|].
  rewrite lookup_insert_ne by congruence.
  destruct (decide (q = this)) as [->|Hqt];
    [rewrite lookup_insert_eq; symmetry; exact Ht|].
  rewrite lookup_insert_ne by congruence.
  destruct (decide (q = node)) as [->|Hqn];
    [rewrite lookup_insert_eq; symmetry; exact Hn|].
  rewrite !lookup_insert_ne by congruence. reflexivity.
Qed.

(** ** The uses that the constructor records *)

Section ConstructorUses.
Context `{XlaUtil}.

Lemma Node_ctor_step_uses (hk : Heap) this tk v :
  heap_wf hk -> hk !! this = Some tk -> value_ok hk v ->
  val_node v <> this ->
  exists h1 t1,
    Node_ctor_step this hk v = Done h1
    /\ heap_wf h1 /\ heap_step no_slot hk h1
    /\ h1 !! this = Some t1
    /\ length (operands_as_outputs_ t1)
       = S (length (operands_as_outputs_ tk))
    /\ (forall q, hk !! q = None -> h1 !! q = None)
    /\ forall q m, hk !! q = Some m ->
         exists m',
           h1 !! q = Some m'
           /\ uses_ m'
              = if decide (q = val_node v)
                then key_insert (use_key hk)
                       (mkUse this (length (operands_as_outputs_ tk))
                              (val_index v))
                       (uses_ m)
                else uses_ m.
Proof.
  intros Hwf Htk Hv Hne.
  destruct (Node_ctor_step_wf hk this tk v Hwf Htk Hv)
    as (h1 & Hrun & Hwf1 & Hs1).
  pose proof Hrun as Hinv. unfold Node_ctor_step in Hinv.
  bind_inv Hinv ha Hadd. bind_inv Hinv oh Hvh. bind_inv Hinv ta Hta.
  apply deref_Done in Hta.
  destruct (AddOperand_operands _ _ _ _ _ _ Hadd Htk)
    as ((ta' & Hta' & _ & Houts & Huses) & _).
  assert (ta' = ta) by congruence. subst ta'. specialize (Huses Hne).
  unfold AddOperand in Hadd.
  bind_inv Hadd n Hn. bind_inv Hadd chk Hchk. bind_inv Hadd t0 Ht0.
  apply deref_Done in Hn, Ht0. assert (t0 = tk) by congruence. subst t0.
  cbn [operands_ set_operands] in Hadd.
  assert (Hlen : length (operands_ tk ++ [val_node v]) - 1
                 = length (operands_as_outputs_ tk)).
  { rewrite (wf_agree _ _ _ (Hwf _ _ Htk)), length_app, length_fmap.
    cbn. lia. }
  rewrite Hlen in Hadd.
  set (t1 := set_operands _ _ tk) in Hadd.
  set (u := mkUse this (length (operands_as_outputs_ tk)) (val_index v))
    in *.
  unfold AddUse in Hadd. bind_inv Hadd n1 Hn1. bind_inv Hadd us Hus.
  apply deref_Done in Hn1. rewrite lookup_insert_ne in Hn1 by congruence.
  assert (n1 = n) by congruence. subst n1.
  assert (Hkey : forall x, use_key (<[this := t1]> hk) x = use_key hk x).
  { intros x. apply (use_key_insert_op hk this tk t1 x Htk). reflexivity. }
  assert (Hus' : us = key_insert (use_key hk) u (uses_ n)).
  { rewrite set_insert_live in Hus.
    - rewrite (key_insert_ext (use_key hk)) in Hus by exact Hkey.
      congruence.
    - exists t1. apply lookup_insert_eq.
    - eapply Forall_impl; [apply (node_wf_uses_live hk _ _ (Hwf _ _ Hn))|].
      intros x [c Hc]. unfold use_live.
      destruct (decide (this = use_node x)) as [Heq|Hx].
      + exists t1. rewrite <- Heq. apply lookup_insert_eq.
      + exists c. rewrite lookup_insert_ne by exact Hx. exact Hc. }
  injection Hadd as <-. injection Hinv as <-.
  eexists _, _. split; [exact Hrun|]. split; [exact Hwf1|].
  split; [exact Hs1|]. split; [apply lookup_insert_eq|].
  split; [cbn; rewrite Houts, length_app; cbn; lia|]. split.
  - intros q Hq.
    rewrite !lookup_insert_ne by congruence. exact Hq.
  - intros q m Hq. destruct (decide (q = this)) as [->|Hqt].
    + rewrite lookup_insert_eq. eexists. split; [reflexivity|].
      cbn. rewrite Huses. assert (m = tk) by congruence. subst m.
      destruct (decide (this = val_node v)); [congruence | reflexivity].
    + rewrite lookup_insert_ne by congruence.
      destruct (decide (q = val_node v)) as [->|Hqn].
      * rewrite lookup_insert_eq. eexists. split; [reflexivity|].
        cbn. assert (m = n) by congruence. subst m. exact Hus'.
      * rewrite !lookup_insert_ne by congruence. eauto.
Qed.

Lemma Node_ctor_loop_records this o (h0 : Heap) :
  heap_wf h0 -> h0 !! this = None ->
  forall operands k (hk : Heap) tk,
    heap_wf hk -> hk !! this = Some tk ->
    length (operands_as_outputs_ tk) = k -> op_ tk = o ->
    heap_step no_slot h0 hk ->
    (forall q m u,
       hk !! q = Some m -> u ∈ uses_ m ->
       (use_node u = this /\ use_operand_index u < k)
       \/ (exists m0, h0 !! q = Some m0 /\ u ∈ uses_ m0)) ->
    Forall (value_ok h0) operands ->
    (forall i v n y,
       operands !! i = Some v -> h0 !! val_node v = Some n ->
       y ∈ uses_ n -> use_key h0 y <> (op o, k + i, val_index v)) ->
    exists h',
      foldM (Node_ctor_step this) operands hk = Done h'
      /\ (forall i v,
            operands !! i = Some v ->
            exists n', h' !! val_node v = Some n'
                       /\ mkUse this (k + i) (val_index v) ∈ uses_ n')
      /\ (forall q m u,
            hk !! q = Some m -> u ∈ uses_ m ->
            exists m', h' !! q = Some m' /\ u ∈ uses_ m').
Proof.
  intros Hwf0 Hfresh.
  induction operands as [|v operands IH];
    intros k hk tk Hwf Htk Hk Hop Hs0 Hclass Hops Hfree.
  - exists hk. split; [reflexivity|]. split; [|eauto].
    intros i v Hi. rewrite lookup_nil in Hi. discriminate.
  - apply Forall_cons in Hops as [Hv Hops].
    assert (Hvk : value_ok hk v) by (eapply value_ok_step; eassumption).
    assert (Hne : val_node v <> this).
    { destruct Hv as (n & Hn & _). congruence. }
    destruct (Node_ctor_step_uses hk this tk v Hwf Htk Hvk Hne)
      as (h1 & t1 & Hrun & Hwf1 & Hs1 & Ht1 & Hlen & Hnone & Huses).
    assert (Hop1 : op_ t1 = o).
    { destruct (Hs1 _ _ Htk) as (t1' & Ht1' & Ho & _). congruence. }
    destruct (IH (S k) h1 t1 Hwf1 Ht1) as (h' & Hrun' & Hrec & Hkeep).
    + lia.
    + exact Hop1.
    + eapply heap_step_trans; eassumption.
    + intros q m' u Hq Hu.
      destruct (hk !! q) as [m|] eqn:Hm;
        [|rewrite (Hnone _ Hm) in Hq; discriminate].
      destruct (Huses _ _ Hm) as (m'' & Hm'' & Hus).
      assert (m'' = m') by congruence. subst m''. rewrite Hus in Hu.
      assert (Hold : u ∈ uses_ m ->
                (use_node u = this /\ use_operand_index u < S k)
                \/ (exists m0, h0 !! q = Some m0 /\ u ∈ uses_ m0)).
      { intros Hum. destruct (Hclass _ _ _ Hm Hum) as [[? ?]|?];
          [left; split; [assumption | lia] | right; assumption]. }
      destruct (decide (q = val_node v)); [|auto].
      apply key_insert_elem in Hu as [->|Hu]; [|auto].
      left. cbn. split; [reflexivity | lia].
    + exact Hops.
    + intros i w n y Hi Hn Hy.
      replace (S k + i) with (k + S i) by lia.
      apply (Hfree (S i) w n y); assumption.
    + exists h'. split; [cbn; rewrite Hrun, Done_bind; exact Hrun'|].
      split.
      * intros [|i] w Hi.
        -- injection Hi as <-. destruct Hvk as (n & Hn & _).
           destruct (Huses _ _ Hn) as (n1 & Hn1 & Hus).
           rewrite decide_True in Hus by reflexivity.
           rewrite Nat.add_0_r.
           apply (Hkeep _ _ _ Hn1). rewrite Hus, Hk.
           apply key_insert_new. intros y Hy.
           assert (Hu : use_key hk (mkUse this k (val_index v))
                        = (op o, k, val_index v)).
           { unfold use_key. cbn. rewrite Htk, Hop. reflexivity. }
           rewrite Hu.
           destruct (Hclass _ _ _ Hn Hy) as [[Hyt Hys]|(m0 & Hm0 & Hy0)].
           ++ unfold use_key. intros [= _ Hslot _]. lia.
           ++ rewrite (use_key_step no_slot h0 hk y Hs0).
              ** specialize (Hfree 0 v m0 y eq_refl Hm0 Hy0).
                 rewrite Nat.add_0_r in Hfree. exact Hfree.
              ** pose proof (node_wf_uses_live h0 _ _ (Hwf0 _ _ Hm0)) as Hl.
                 rewrite Forall_forall in Hl. apply Hl, Hy0.
        -- replace (k + S i) with (S k + i) by lia. apply Hrec, Hi.
      * intros q m u Hm Hu.
        destruct (Huses _ _ Hm) as (m1 & Hm1 & Hus).
        apply (Hkeep _ _ _ Hm1). rewrite Hus.
        destruct (decide (q = val_node v)); [|exact Hu].
        apply key_insert_keeps, Hu.
Qed.

(** X18: When no use that an operand has recorded comes from a consumer of
    the kind of the new node at the same operand slot and output index,
    the constructor records one use of the new node on every operand, for
    the slot the operand is passed in and the output index it names. *)
Theorem Node_ctor_records_uses env tc this o operands shape num_outputs
    hash_seed (h : Heap) :
  heap_wf h -> h !! this = None -> Forall (value_ok h) operands ->
  (forall i v n y,
     operands !! i = Some v -> h !! val_node v = Some n -> y ∈ uses_ n ->
     use_key h y <> (op o, i, val_index v)) ->
  exists h',
    Node_ctor env tc this o operands shape num_outputs hash_seed h = Done h'
    /\ forall i v,
         operands !! i = Some v ->
         exists n', h' !! val_node v = Some n'
                    /\ mkUse this i (val_index v) ∈ uses_ n'.
Proof.
  intros Hwf Hfresh Hops Hfree. unfold Node_ctor.
  set (init := Node_init env tc o shape num_outputs _).
  destruct (Node_ctor_loop_records this o h Hwf Hfresh operands 0
              (<[this := init]> h) init)
    as (h' & Hrun & Hrec & _).
  - apply heap_wf_fresh; [exact Hwf | exact Hfresh | reflexivity ..].
  - apply lookup_insert_eq.
  - reflexivity.
  - reflexivity.
  - apply heap_step_fresh, Hfresh.
  - intros q m u Hq Hu. right.
    destruct (decide (q = this)) as [->|Hne].
    + rewrite lookup_insert_eq in Hq. injection Hq as <-.
      apply elem_of_nil in Hu. contradiction.
    + rewrite lookup_insert_ne in Hq by congruence. eauto.
  - exact Hops.
  - intros i v n y Hi Hn Hy. apply (Hfree i v n y); assumption.
  - exists h'. split; [exact Hrun|]. exact Hrec.
Qed.

End ConstructorUses.

(** ** The statements above on the sample graphs *)

Section SampleGraphProperties.
#[local] Existing Instance sample_util.

Lemma Use_lt_strict_weak_order_witness :
  let h := sample_two_consumers in
  let a := mkUse 3 0 0 in
  let b := mkUse 4 0 0 in
  Use_lt h a a = Done false
  /\ (Use_lt h a b = Done true -> Use_lt h b a = Done false)
  /\ (Use_lt h a b = Done true -> Use_lt h b a = Done true ->
      Use_lt h a a = Done true)
  /\ (Use_lt h a b = Done false /\ Use_lt h b a = Done false
      <-> op_ (node_at sample_scalar_node h 3)
          = op_ (node_at sample_scalar_node h 4)
          /\ use_operand_index a = use_operand_index b
          /\ use_index a = use_index b).
Proof.
  intros h a b.
  apply (Use_lt_strict_weak_order h a b a
           (node_at sample_scalar_node h 3) (node_at sample_scalar_node h 4)).
  - vm_compute. reflexivity.
  - vm_compute. reflexivity.
  - eexists. vm_compute. reflexivity.
Defined.

(** The consumer at address 4 gives up the leaf at address 1, which no
    other node and no caller holds. *)
Lemma ReplaceOperand_postcondition_witness :
  let h := sample_split_consumers in
  let t := node_at sample_scalar_node h 4 in
  let roots := [3; 4] in
  exists old h1 h' t',
    operands_ t !! 0 = Some old
    /\ ReplaceOperand 4 0 2 0 h = Done h1
    /\ ReplaceOperand_owned roots 4 0 2 0 h = Some (Done h')
    /\ heap_wf h'
    /\ h' !! 4 = Some t'
    /\ operands_ t' = <[0 := 2]> (operands_ t)
    /\ operands_as_outputs_ t'
       = <[0 := mkOutput 2 0]> (operands_as_outputs_ t)
    /\ is_Some (h' !! 2)
    /\ (forall q m',
          h' !! q = Some m' ->
          exists m,
            h !! q = Some m
            /\ node_static m' = node_static m
            /\ (q <> 4 ->
                operands_ m' = operands_ m
                /\ operands_as_outputs_ m' = operands_as_outputs_ m))
    /\ (forall q, q ∈ roots -> is_Some (h !! q) -> is_Some (h' !! q))
    /\ (held roots h1 old = true ->
        h' = h1 /\ forall q, is_Some (h !! q) -> is_Some (h' !! q))
    /\ (held roots h1 old = false -> h' !! old = None).
Proof.
  intros h t roots.
  apply (ReplaceOperand_postcondition h 4 t 0 2
           (node_at sample_scalar_node h 2) 0 roots).
  - exact sample_split_consumers_wf.
  - vm_compute. reflexivity.
  - vm_compute. lia.
  - vm_compute. reflexivity.
  - vm_compute. lia.
  - right. left.
Defined.

Lemma ReplaceOperand_succeeds_iff_witness :
  let h := sample_split_consumers in
  let t := node_at sample_scalar_node h 4 in
  let n := node_at sample_scalar_node h 2 in
  (is_Done (ReplaceOperand 4 5 2 0 h)
   <-> 0 < num_outputs_ n /\ 5 < length (operands_as_outputs_ t))
  /\ (num_outputs_ n <= 0 -> ReplaceOperand 4 5 2 0 h = Fatal XlaCheckFailed)
  /\ (0 < num_outputs_ n -> length (operands_as_outputs_ t) <= 5 ->
      ReplaceOperand 4 5 2 0 h = Fatal StdOutOfRange).
Proof.
  intros h t n.
  apply (ReplaceOperand_succeeds_iff h 4 t 5 2 n 0).
  - exact sample_split_consumers_wf.
  - vm_compute. reflexivity.
  - vm_compute. reflexivity.
Defined.

Lemma ReplaceOperand_same_operand_witness :
  ReplaceOperand 4 0 1 0 sample_split_consumers = Done sample_split_consumers.
Proof.
  apply (ReplaceOperand_same_operand sample_split_consumers 4
           (node_at sample_scalar_node sample_split_consumers 4) 0 1
           (node_at sample_scalar_node sample_split_consumers 1) 0).
  - exact sample_split_consumers_wf.
  - vm_compute. reflexivity.
  - vm_compute. reflexivity.
  - lia.
  - vm_compute. reflexivity.
  - vm_compute. constructor.
Defined.

Lemma Node_ctor_postcondition_witness :
  exists h' t,
    Node_ctor sample_env sample_tc 3 sample_op [sample_left; sample_right]
              sample_scalar 1 5%Z sample_leaves = Done h'
    /\ heap_wf h'
    /\ h' !! 3 = Some t
    /\ operands_ t = val_node <$> [sample_left; sample_right]
    /\ operands_as_outputs_ t = Value_output <$> [sample_left; sample_right]
    /\ uses_ t = []
    /\ op_ t = sample_op /\ num_outputs_ t = 1 /\ shape_ t = sample_scalar
    /\ node_hash_ t = HashCombine (OpKind_hash sample_op) 5%Z
    /\ is_autograd_ t = is_autograd_thread sample_env
    /\ metadata_ t
       = {| scope := GetCurrentScope (g_scope_context sample_tc);
            frame_info := GetFrameInfo sample_env;
            frontend_attributes := g_frontend_attribute_context sample_tc |}
    /\ forall q m, sample_leaves !! q = Some m ->
         exists m', h' !! q = Some m'
                    /\ node_static m' = node_static m
                    /\ operands_ m' = operands_ m
                    /\ operands_as_outputs_ m' = operands_as_outputs_ m.
Proof.
  apply (Node_ctor_postcondition sample_env sample_tc 3 sample_op
           [sample_left; sample_right] sample_scalar 1 5%Z sample_leaves).
  - exact sample_leaves_wf.
  - vm_compute. reflexivity.
  - repeat constructor; eexists; (split; [vm_compute; reflexivity | cbn; lia]).
Defined.

Lemma Node_ctor_rejects_missing_output_witness :
  Node_ctor sample_env sample_tc 3 sample_op
            ([sample_left] ++ mkValue 2 1 :: []) sample_scalar 1 5%Z
            sample_leaves
  = Fatal XlaCheckFailed.
Proof.
  apply (Node_ctor_rejects_missing_output sample_env sample_tc 3 sample_op
           [sample_left] (mkValue 2 1) [] sample_scalar 1 5%Z sample_leaves
           (node_at sample_scalar_node sample_leaves 2)).
  - exact sample_leaves_wf.
  - vm_compute. reflexivity.
  - repeat constructor; eexists; (split; [vm_compute; reflexivity | cbn; lia]).
  - vm_compute. reflexivity.
  - vm_compute. lia.
Defined.



Lemma Node_ctor_records_uses_witness :
  exists h',
    Node_ctor sample_env sample_tc 5 (mkOpKind 10)
              [sample_left; sample_right] sample_scalar 1 5%Z
              sample_two_consumers = Done h'
    /\ forall i v,
         [sample_left; sample_right] !! i = Some v ->
         exists n', h' !! val_node v = Some n'
                    /\ mkUse 5 i (val_index v) ∈ uses_ n'.
Proof.
  apply (Node_ctor_records_uses sample_env sample_tc 5 (mkOpKind 10)
           [sample_left; sample_right] sample_scalar 1 5%Z
           sample_two_consumers).
  - exact sample_two_consumers_wf.
  - vm_compute. reflexivity.
  - repeat constructor; eexists; (split; [vm_compute; reflexivity | cbn; lia]).
  - intros i v n y Hi Hn Hy.
    destruct i as [|[|i]]; cbn in Hi; [| |discriminate];
      injection Hi as <-; vm_compute in Hn; injection Hn as <-;
      cbn in Hy.
    + apply list_elem_of_singleton in Hy. subst y. vm_compute. discriminate.
    + apply elem_of_nil in Hy. contradiction.
Defined.

Lemma ReplaceOperand_round_trip_witness :
  (ReplaceOperand 3 0 2 0 sample_two_consumers ≫= ReplaceOperand 3 0 1 0)
  = Done sample_two_consumers.
Proof.
  apply (ReplaceOperand_round_trip sample_two_consumers 3
           (node_at sample_scalar_node sample_two_consumers 3) 0 1
           (node_at sample_scalar_node sample_two_consumers 1) 0 2
           (node_at sample_scalar_node sample_two_consumers 2) 0).
  - exact sample_two_consumers_wf.
  - vm_compute. reflexivity.
  - vm_compute. reflexivity.
  - vm_compute. reflexivity.
  - vm_compute. reflexivity.
  - vm_compute. lia.
  - lia.
  - lia.
  - lia.
  - vm_compute. constructor.
  - intros y Hy. vm_compute in Hy. inversion Hy.
Defined.

End SampleGraphProperties.
